(** * Colored graph enumeration: the edge generator and its specification

    A shallow embedding of the C++ core of [graph-enumeration]
    ([graph.h], [graph.cpp], [edge_generator.h], [edge_generator.cpp]) and of
    its Python binding ([edge_generator_module.cpp]),
    followed by the properties the design document states about them.

    Conventions of the embedding:
    - [triu] ([std::uint64_t]) is a [Z] in [[0, 2^64)]; every operation that
      can leave that range is wrapped ([wrap64]).  [unsigned int] arithmetic
      that can overflow is wrapped at 32 bits ([wrap32]).
    - node indices, colors and loop counters that only count up to a
      container size are [nat].
    - [std::vector] is [list]; [v[i]] is the total lookup [v !!! i] (reading
      out of range is undefined in C++; the properties below only read in
      range).
    - loops with a fixed trip count are folds over [seq]; [while] loops and
      the recursion of [generatePermutations] take fuel and return [None]
      when it runs out. *)

From Stdlib Require Import ZArith Lia Bool.
From stdpp Require Import base tactics option list sorting strings gmap.

Local Open Scope Z_scope.

(** ** Machine words *)

Module Word.

Definition wrap32 (x : Z) : Z := x mod 2 ^ 32.
Definition wrap64 (x : Z) : Z := x mod 2 ^ 64.

(** [x << s] on a 64-bit word. *)
Definition shl64 (x s : Z) : Z := wrap64 (Z.shiftl x s).
(** [~x] on a 64-bit word. *)
Definition not64 (x : Z) : Z := Z.lxor x (2 ^ 64 - 1).
(** unary [-x] on a 64-bit word. *)
Definition neg64 (x : Z) : Z := wrap64 (- x).

Fixpoint Pos_popcount (p : positive) : Z :=
  match p with
  | xH => 1
  | xO q => Pos_popcount q
  | xI q => 1 + Pos_popcount q
  end.

(** [__builtin_popcountll] *)
Definition popcountll (x : Z) : Z :=
  match x with
  | Zpos p => Pos_popcount p
  | _ => 0
  end.

Fixpoint Pos_ctz (p : positive) : Z :=
  match p with
  | xO q => 1 + Pos_ctz q
  | _ => 0
  end.

(** [__builtin_ctzll]; the result for [0] is undefined in C, the embedding
    gives the word size there (what [tzcnt] returns). *)
Definition ctzll (x : Z) : Z :=
  match x with
  | Zpos p => Pos_ctz p
  | _ => 64
  end.

End Word.
Import Word.

(** A [while] loop: [None] when the fuel runs out before the condition
    turns false. *)
Fixpoint while {S : Type} (fuel : nat) (cond : S → bool) (body : S → S)
    (s : S) : option S :=
  if cond s then
    match fuel with
    | O => None
    | Datatypes.S fuel' => while fuel' cond body (body s)
    end
  else Some s.

(** ** graph.h *)

(** [using repr = std::vector<int>] *)
Definition repr := list Z.
(** [using triu = std::uint64_t] *)
Definition triu := Z.

(** [upperTriuIndex]: computed in [unsigned int], returned as [size_t]. *)
Definition upperTriuIndex (i j nNodes : nat) : nat :=
  let '(i, j) := if (j <? i)%nat then (j, i) else (i, j) in
  let i := Z.of_nat i in
  let j := Z.of_nat j in
  let nNodes := Z.of_nat nNodes in
  Z.to_nat
    (wrap32 (wrap32 (wrap32 (wrap32 (i * nNodes)
                             - wrap32 (wrap32 (i * i) + wrap32 (3 * i)) / 2)
                     + j)
             - 1)).

Record Graph := mkGraph {
  nNodes : nat;
  nodes : list nat;
  representation : repr;
  connected : bool;
  adjacencyTriu : triu;
  degreeFilter : list triu;
  adjacencyTriuMasks : list triu;
  permutations : list (list nat)
}.

Definition set_representation (r : repr) (g : Graph) : Graph :=
  mkGraph (nNodes g) (nodes g) r (connected g) (adjacencyTriu g)
    (degreeFilter g) (adjacencyTriuMasks g) (permutations g).

Definition set_connected (b : bool) (g : Graph) : Graph :=
  mkGraph (nNodes g) (nodes g) (representation g) b (adjacencyTriu g)
    (degreeFilter g) (adjacencyTriuMasks g) (permutations g).

(** ** graph.cpp *)

(** [Graph::isEdge] *)
Definition isEdge (g : Graph) (u v : nat) : bool :=
  if (u =? v)%nat then false
  else
    let index := upperTriuIndex u v (nNodes g) in
    negb (Z.land (adjacencyTriu g) (adjacencyTriuMasks g !!! index) =? 0).

(** [Graph::checkConnected]: the state of the loop is the visited bitset,
    the queue and the number of dequeued nodes. *)
Record BfsState := mkBfs {
  visited : Z;
  queue : list nat;
  visitedCount : nat
}.

Definition bfs_cond (s : BfsState) : bool :=
  match queue s with [] => false | _ => true end.

Definition bfs_scan (g : Graph) (current : nat) (s : BfsState) (i : nat)
    : BfsState :=
  if negb (negb (Z.land (visited s) (shl64 1 (Z.of_nat i)) =? 0))
     && isEdge g current i
  then mkBfs (Z.lor (visited s) (shl64 1 (Z.of_nat i)))
             (queue s ++ [i]) (visitedCount s)
  else s.

Definition bfs_body (g : Graph) (s : BfsState) : BfsState :=
  match queue s with
  | [] => s
  | current :: rest =>
      let s := mkBfs (visited s) rest (Datatypes.S (visitedCount s)) in
      fold_left (bfs_scan g current) (seq 0 (nNodes g)) s
  end.

Definition checkConnected (fuel : nat) (g : Graph) : option Graph :=
  let s0 := mkBfs (Z.lor 0 1) [0%nat] 0 in
  s ← while fuel bfs_cond (bfs_body g) s0;
  Some (set_connected (visitedCount s =? nNodes g)%nat g).

(** [Graph::isConnected] *)
Definition isConnected (g : Graph) : bool := connected g.

(** [Graph::getRepresentation] *)
Definition getRepresentation (g : Graph) : repr := representation g.

(** [std::sort] on a [std::vector<int>] *)
Definition sort (l : list Z) : list Z := merge_sort Z.le l.

(** [a[i][j]++] on a vector of vectors *)
Definition incr2 (a : list (list Z)) (i j : nat) : list (list Z) :=
  <[i := <[j := ((a !!! i) !!! j) + 1]> (a !!! i)]> a.

(** [Graph::calculateRepresentation], its locals first: [maxNode], the
    buckets [degreesList] after the loop that fills them, and the matrix
    [edgeList] after the loop that counts (its state is the matrix and the
    running bit index [count]). *)
Definition maxNode (g : Graph) : nat :=
  Datatypes.S (nodes g !!! (nNodes g - 1)%nat).

Definition degreesList (g : Graph) : list (list Z) :=
  fold_left
    (fun dl i =>
       let c := nodes g !!! i in
       <[c := (dl !!! c)
              ++ [popcountll (Z.land (adjacencyTriu g)
                                     (degreeFilter g !!! i))]]> dl)
    (seq 0 (nNodes g)) (replicate (maxNode g) []).

Definition edgeList_step (g : Graph) (i : nat) (st : list (list Z) * nat)
    (j : nat) : list (list Z) * nat :=
  let '(el, count) := st in
  let el :=
    if negb (Z.land (adjacencyTriu g) (adjacencyTriuMasks g !!! count) =? 0)
    then
      let a := nodes g !!! i in
      let b := nodes g !!! j in
      let '(a, b) := if (b <? a)%nat then (b, a) else (a, b) in (* a <= b *)
      incr2 el a b
    else el in
  (el, Datatypes.S count).

Definition edgeList (g : Graph) : list (list Z) :=
  let n := nNodes g in
  (fold_left
     (fun st i => fold_left (edgeList_step g i) (seq (i + 1) (n - (i + 1))) st)
     (seq 0 n) (replicate (maxNode g) (replicate (maxNode g) 0), 0%nat)).1.

Definition calculateRepresentation (g : Graph) : Graph :=
  (* 1. total number of edges *)
  let rep := representation g ++ [popcountll (adjacencyTriu g)] in
  (* 2. degree of each node, sorted within each node type group *)
  let rep := fold_left (fun rep degrees => rep ++ sort degrees)
                       (degreesList g) rep in
  (* 3. number of edges for each edge type *)
  let rep :=
    fold_left
      (fun rep i =>
         fold_left (fun rep j => rep ++ [(edgeList g !!! i) !!! j])
                   (seq i (maxNode g - i)) rep)
      (seq 0 (maxNode g)) rep in
  set_representation rep g.

(** The constructor [Graph::Graph]. *)
Definition Graph_new (fuel : nat) (nodes : list nat) (adjacencyTriu : triu)
    (degreeFilter adjacencyTriuMasks : list triu)
    (permutations : list (list nat)) : option Graph :=
  let g := mkGraph (length nodes) nodes [] false adjacencyTriu degreeFilter
                   adjacencyTriuMasks permutations in
  g ← checkConnected fuel g;
  Some (calculateRepresentation g).

(** The inner two loops of [Graph::operator==]: does [permutation] map the
    edges of [g] onto the edges of [other]?  The [break]s only skip work. *)
Definition perm_matches (g other : Graph) (permutation : list nat) : bool :=
  forallb
    (fun i =>
       let permutationI := permutation !!! i in
       forallb
         (fun j =>
            eqb (isEdge g i j) (isEdge other permutationI (permutation !!! j)))
         (seq (i + 1) (nNodes g - (i + 1))))
    (seq 0 (nNodes g)).

(** [Graph::operator==] *)
Definition Graph_eq (g other : Graph) : bool :=
  if negb (bool_decide (representation g = representation other)) then false
  else existsb (perm_matches g other) (permutations g).

(** [Graph::getEdges] *)
Definition getEdges (g : Graph) : list (nat * nat) :=
  fold_left
    (fun edges i =>
       fold_left
         (fun edges j => if isEdge g i j then edges ++ [(i, j)] else edges)
         (seq (i + 1) (nNodes g - (i + 1))) edges)
    (seq 0 (nNodes g)) [].

(** [m[i][j] = x] on a vector of vectors *)
Definition set2 (m : list (list Z)) (i j : nat) (x : Z) : list (list Z) :=
  <[i := <[j := x]> (m !!! i)]> m.

(** [Graph::getAdjacencyMatrix]; the [uint8_t] entries are [Z]s. *)
Definition getAdjacencyMatrix (g : Graph) : list (list Z) :=
  let matrix := replicate (nNodes g) (replicate (nNodes g) 0) in
  fold_left
    (fun matrix i =>
       fold_left
         (fun matrix j =>
            if isEdge g i j
            then set2 (set2 matrix i j 1) j i 1
            else matrix)
         (seq (i + 1) (nNodes g - (i + 1))) matrix)
    (seq 0 (nNodes g)) matrix.

(** ** edge_generator.cpp *)

(** [calculateDegreeFilter] *)
Definition calculateDegreeFilter (nNodes : nat) : list triu :=
  let n := Z.of_nat nNodes in
  let maxSize := wrap32 (wrap32 (n * wrap32 (n - 1)) / 2) in
  let result := replicate nNodes 0 in
  fold_left
    (fun result k =>
       (* edges (u, k) where u < k *)
       let result :=
         fold_left
           (fun result u =>
              let count := Z.of_nat (upperTriuIndex u k nNodes) in
              <[k := Z.lor (result !!! k)
                           (shl64 1 (wrap64 (wrap64 (maxSize - 1) - count)))]>
                result)
           (seq 0 k) result in
       (* edges (k, v) where v > k *)
       fold_left
         (fun result v =>
            let count := Z.of_nat (upperTriuIndex k v nNodes) in
            <[k := Z.lor (result !!! k)
                         (shl64 1 (wrap64 (wrap64 (maxSize - 1) - count)))]>
              result)
         (seq (k + 1) (nNodes - (k + 1))) result)
    (seq 0 nNodes) result.

(** [checkDegrees] *)
Definition checkDegrees (triAdjMat : triu) (degreeFilter : list triu)
    (nNodes : nat) (maxDegree minDegree : Z) : bool :=
  forallb
    (fun i =>
       let count := popcountll (Z.land triAdjMat (degreeFilter !!! i)) in
       negb ((maxDegree <? count) || (count <? minDegree)))
    (seq 0 nNodes).

(** [nextBitPermutation] (edge_generator.h) *)
Definition nextBitPermutation (v : triu) : triu :=
  let t := Z.lor v (wrap64 (v - 1)) in
  Z.lor (wrap64 (t + 1))
        (Z.shiftr (wrap64 (Z.land (not64 t) (neg64 (not64 t)) - 1))
                  (ctzll v + 1)).

(** The arguments [generatePermutations] takes by reference. *)
Record PermGen := mkPermGen {
  out_permutations : list (list nat);
  currentPermutation : list nat;
  indexMap : gmap nat (list nat)
}.

(** [vector::insert(begin() + i, x)] *)
Definition vec_insert {A} (i : nat) (x : A) (l : list A) : list A :=
  take i l ++ x :: drop i l.

(** The [for] loop of [generatePermutations] at position [currentIndex],
    over the recursive call [rec]; [i] is the loop counter.  [indices] is a
    reference into [indexMap], so it is read again from the map after the
    recursive call.  [at] throws on a missing key: no result. *)
Fixpoint perm_loop (rec : PermGen → option PermGen)
    (currentIndex currentValue : nat) (fuel i : nat) (st : PermGen)
    {struct fuel} : option PermGen :=
  indices ← indexMap st !! currentValue;
  if (i <? length indices)%nat then
    match fuel with
    | O => None
    | Datatypes.S fuel' =>
        let index := indices !!! i in
        let st :=
          mkPermGen (out_permutations st)
            (<[currentIndex := index]> (currentPermutation st))
            (<[currentValue := delete i indices]> (indexMap st)) in
        st ← rec st;
        indices ← indexMap st !! currentValue;
        let st :=
          mkPermGen (out_permutations st) (currentPermutation st)
            (<[currentValue := vec_insert i index indices]> (indexMap st)) in
        perm_loop rec currentIndex currentValue fuel' (Datatypes.S i) st
    end
  else Some st.

(** [generatePermutations] *)
Fixpoint generatePermutations (fuel : nat) (nodes : list nat)
    (currentIndex : nat) (st : PermGen) {struct fuel} : option PermGen :=
  if (currentIndex =? length nodes)%nat then
    (* permutation complete *)
    Some (mkPermGen (out_permutations st ++ [currentPermutation st])
                    (currentPermutation st) (indexMap st))
  else
    match fuel with
    | O => None
    | Datatypes.S fuel' =>
        (* the node type at the current index *)
        let currentValue := nodes !!! currentIndex in
        perm_loop (generatePermutations fuel' nodes (Datatypes.S currentIndex))
          currentIndex currentValue (length nodes) 0%nat st
    end.

(** [std::map<repr, std::vector<Graph>>]: an association list kept sorted by
    key, keys compared as [std::vector<int>] are (lexicographically). *)
Fixpoint repr_lt (a b : repr) : bool :=
  match a, b with
  | _, [] => false
  | [], _ :: _ => true
  | x :: a', y :: b' =>
      if x <? y then true else if y <? x then false else repr_lt a' b'
  end.

Fixpoint map_find {V} (key : repr) (m : list (repr * V)) : option V :=
  match m with
  | [] => None
  | (k, v) :: m' =>
      if bool_decide (k = key) then Some v else map_find key m'
  end.

(** [m[key] = v] *)
Fixpoint map_set {V} (key : repr) (v : V) (m : list (repr * V))
    : list (repr * V) :=
  match m with
  | [] => [(key, v)]
  | (k, w) :: m' =>
      if bool_decide (k = key) then (k, v) :: m'
      else if repr_lt key k then (key, v) :: (k, w) :: m'
      else (k, w) :: map_set key v m'
  end.

(** One iteration of the loop that filters out identical graphs. *)
Definition unique_step (uniqueGraphs : list (repr * list Graph))
    (graph : Graph) : list (repr * list Graph) :=
  match map_find (getRepresentation graph) uniqueGraphs with
  | None =>
      let uniqueGraphs := map_set (getRepresentation graph) [] uniqueGraphs in
      map_set (getRepresentation graph)
        (default [] (map_find (getRepresentation graph) uniqueGraphs)
         ++ [graph])
        uniqueGraphs
  | Some bucket =>
      let found :=
        existsb (fun uniqueGraph => Graph_eq uniqueGraph graph) bucket in
      if negb found then
        map_set (getRepresentation graph) (bucket ++ [graph]) uniqueGraphs
      else uniqueGraphs
  end.

(** The sequential part of [generateEdges], from the list of connected
    graphs on: filter out identical graphs, combine the buckets, convert to
    edge lists. *)
Definition uniqueEdges (graphs : list Graph) : list (list (nat * nat)) :=
  let uniqueGraphs := fold_left unique_step graphs [] in
  let uniqueGraphsList :=
    fold_left (fun l graphMap => l ++ graphMap.2) uniqueGraphs [] in
  fold_left (fun edgesResult graph => edgesResult ++ [getEdges graph])
            uniqueGraphsList [].

(** The first parallel loop of [generateEdges], for one number of edges [i]:
    the state of the [while] loop is [(v, trius)]. *)
Definition shell (fuel : nat) (degreeFilter : list triu) (nNodes : nat)
    (maxDegree minDegree triuSize : Z) (trius : list triu) (i : Z)
    : option (list triu) :=
  let v := wrap64 (shl64 1 i - 1) in
  let end_ := shl64 v (wrap32 (triuSize - i)) in
  s ← while fuel
        (fun s : triu * list triu => s.1 <=? end_)
        (fun s =>
           (nextBitPermutation s.1,
            if checkDegrees s.1 degreeFilter nNodes maxDegree minDegree
            then s.2 ++ [s.1] else s.2))
        (v, trius);
  Some s.2.

(** The valid adjacency matrices, in the order one thread produces them.
    With several threads each thread collects the shells it runs in a list
    of its own and the lists are concatenated when the loop ends. *)
Definition candidates (fuel : nat) (nNodes : nat) (maxDegree minDegree : Z)
    : option (list triu) :=
  let n := Z.of_nat nNodes in
  let degreeFilter := calculateDegreeFilter nNodes in
  let totalMaxEdges :=
    Z.min (wrap32 (n * maxDegree) / 2) (wrap32 (n * wrap32 (n - 1)) / 2) in
  let triuSize := wrap32 (n * wrap32 (n - 1)) / 2 in
  foldl
    (fun trius i =>
       trius ← trius;
       shell fuel degreeFilter nNodes maxDegree minDegree triuSize trius i)
    (Some [])
    (seqZ (wrap32 (n - 1)) (totalMaxEdges - wrap32 (n - 1) + 1)).

(** The permutation table of [generateEdges]. *)
Definition permutationTable (fuel : nat) (nodes : list nat)
    : option (list (list nat)) :=
  let nNodes := length nodes in
  let indexMap : gmap nat (list nat) :=
    fold_left
      (fun indexMap i =>
         let c := nodes !!! i in
         <[c := default [] (indexMap !! c) ++ [i]]> indexMap)
      (seq 0 nNodes) ∅ in
  let permutation := replicate nNodes 0%nat in
  st ← generatePermutations fuel nodes 0 (mkPermGen [] permutation indexMap);
  Some (out_permutations st).

(** The adjacency triangle bitmasks of [generateEdges]. *)
Definition adjTriuMasksOf (nNodes : nat) : list triu :=
  let n := Z.of_nat nNodes in
  let numTriuBits := wrap64 (wrap32 (n * wrap32 (n - 1)) / 2 - 1) in
  map (fun count => shl64 1 (wrap64 (numTriuBits - count)))
      (seqZ 0 (numTriuBits + 1)).

(** The second parallel loop of [generateEdges]: the connected graphs. *)
Definition connectedGraphs (fuel : nat) (nodes : list nat)
    (trius degreeFilter adjTriuMasks : list triu)
    (permutations : list (list nat)) : option (list Graph) :=
  foldl
    (fun graphs t =>
       graphs ← graphs;
       graph ← Graph_new fuel nodes t degreeFilter adjTriuMasks permutations;
       Some (if isConnected graph then graphs ++ [graph] else graphs))
    (Some []) trius.

(** [generateEdges] *)
Definition generateEdges (fuel : nat) (nodes : list nat)
    (maxDegree minDegree : Z) : option (list (list (nat * nat))) :=
  let nNodes := length nodes in
  let degreeFilter := calculateDegreeFilter nNodes in
  trius ← candidates fuel nNodes maxDegree minDegree;
  permutations ← permutationTable fuel nodes;
  let adjTriuMasks := adjTriuMasksOf nNodes in
  graphs ← connectedGraphs fuel nodes trius degreeFilter adjTriuMasks
             permutations;
  Some (uniqueEdges graphs).

(** ** edge_generator_module.cpp *)

(** What the binding sees of a Python object: an [int] ([PyLong_Check]
    holds), a [tuple] ([PyTuple_Check] holds), an object of another type
    that converts to an integer through [__index__], or any other object. *)
#[warnings="-register-all"]
Inductive PyObject :=
| PyLong (z : Z)
| PyTuple (items : list PyObject)
| PyIndex (z : Z)
| PyOther.

(** The exception the binding sets before it returns [nullptr]. *)
Inductive PyErr :=
| TypeError (msg : string)
| ValueError (msg : string).

Definition err_parse : PyErr :=
  TypeError
    "Expected a tuple of integers, an integer max_degree, and an integer min_degree".
Definition err_not_tuple : PyErr :=
  TypeError "First argument must be a tuple of integer node values".
Definition err_degree_order : PyErr :=
  ValueError "max_degree must be greater than or equal to min_degree".
Definition err_min_degree : PyErr :=
  ValueError "min_degree must be a non-negative integer".
Definition err_empty : PyErr :=
  ValueError "Node value tuple must not be empty".
Definition err_too_many : PyErr :=
  ValueError "Only up to 11 nodes are supported".
Definition err_not_int : PyErr :=
  TypeError "All node values must be integers".
Definition err_negative : PyErr :=
  ValueError "All node values must be non-negative integers".
Definition err_first : PyErr :=
  ValueError "The first node value in the tuple must be 0".
Definition err_increasing : PyErr :=
  ValueError "The node values must be strictly increasing".

(** [PyLong_AsLong]: [-1] when the value does not fit a [long]. *)
Definition PyLong_AsLong (z : Z) : Z :=
  if (- 2 ^ 63 <=? z) && (z <? 2 ^ 63) then z else -1.

(** The loop that converts the tuple to a vector, with its checks; [i] is
    the loop counter and [nodes] the vector built so far. *)
Fixpoint convertNodes (items : list PyObject) (i : nat) (nodes : list Z)
    : PyErr + list Z :=
  match items with
  | [] => inr nodes
  | pyNode :: items' =>
      match pyNode with
      | PyLong z =>
          let node := PyLong_AsLong z in
          if node <? 0 then
            inl err_negative
          else if (i =? 0)%nat && negb (node =? 0) then
            inl err_first
          else if (0 <? i)%nat
                  && (negb (node =? nodes !!! (i - 1)%nat)
                      && negb (node =? wrap32 (nodes !!! (i - 1)%nat + 1)))
          then inl err_increasing
          else convertNodes items' (Datatypes.S i) (nodes ++ [wrap32 node])
      | _ => inl err_not_int
      end
  end.

(** The [int] that holds the bit pattern of the [unsigned int] [u]. *)
Definition int_of_unsigned (u : Z) : Z :=
  if u <? 2 ^ 31 then u else u - 2 ^ 32.

(** The format unit [O]: any object, stored as it is. *)
Definition convert_O (arg : PyObject) : option PyObject := Some arg.

(** The format unit [I]: a Python integer to a C [unsigned int], without
    overflow checking ([PyLong_AsUnsignedLongMask], which takes an [int] or
    the [__index__] of another object, then the cast to [unsigned int]); an
    object without an integer value fails.  The binding hands in the
    address of an [int], which receives the 32 bits. *)
Definition convert_I (arg : PyObject) : option Z :=
  match arg with
  | PyLong z | PyIndex z =>
      let ival := wrap64 z in
      Some (int_of_unsigned (wrap32 ival))
  | _ => None
  end.

Definition kwlist : list string := ["nodes"; "max_degree"; "min_degree"].

(** The argument for parameter [i]: the positional one when there is one,
    else the keyword argument of the parameter's name. *)
Definition current_arg (args : list PyObject) (kwds : gmap string PyObject)
    (i : nat) : option PyObject :=
  if (i <? length args)%nat then args !! i
  else kwds !! (kwlist !!! i).

(** [PyArg_ParseTupleAndKeywords], the argument parser of the Python C
    API, as its documentation describes it for the format [OII] and the
    keyword list of the binding: [args] is the tuple of positional arguments and
    [kwds] the dictionary of keyword arguments.  More than three arguments
    fail; the three parameters are all required and are converted in
    order.  (With at most three arguments of which three are used none is
    left over, so the final check for unexpected keywords cannot fail.)
    [None] is the failed parse. *)
Definition PyArg_ParseTupleAndKeywords (args : list PyObject)
    (kwds : gmap string PyObject) : option (PyObject * Z * Z) :=
  if (length kwlist <? length args + size kwds)%nat then None
  else
    nodeTuple ← current_arg args kwds 0 ≫= convert_O;
    pyMaxDegree ← current_arg args kwds 1 ≫= convert_I;
    pyMinDegree ← current_arg args kwds 2 ≫= convert_I;
    Some (nodeTuple, pyMaxDegree, pyMinDegree).

(** [generatePyEdges] from the check of the first argument on, with the
    three parsed arguments in its local variables, over the enumeration
    [enum] it calls.  [None] is the [None] of [enum]. *)
Definition generatePyEdges_parsed
    (enum : list nat → Z → Z → option (list (list (nat * nat))))
    (nodeTuple : PyObject) (pyMaxDegree pyMinDegree : Z)
    : option (PyErr + list (list (nat * nat))) :=
  match nodeTuple with
  | PyTuple items =>
      if pyMaxDegree <? pyMinDegree then
        Some (inl err_degree_order)
      else if pyMinDegree <? 0 then
        Some (inl err_min_degree)
      else
        let maxDegree := wrap32 pyMaxDegree in
        let minDegree := wrap32 pyMinDegree in
        let size := wrap32 (Z.of_nat (length items)) in
        if size =? 0 then
          Some (inl err_empty)
        else if 11 <? size then
          Some (inl err_too_many)
        else
          match convertNodes (take (Z.to_nat size) items) 0 [] with
          | inl e => Some (inl e)
          | inr nodes =>
              if 1 <? size then
                edges ← enum (Z.to_nat <$> nodes) maxDegree minDegree;
                Some (inr edges)
              else
                (* only one node: no edges *)
                Some (inr [[]])
          end
  | _ =>
      Some (inl err_not_tuple)
  end.

(** [generatePyEdges], called with the positional arguments [args] and the
    keyword arguments [kwds]. *)
Definition generatePyEdges_with
    (enum : list nat → Z → Z → option (list (list (nat * nat))))
    (args : list PyObject) (kwds : gmap string PyObject)
    : option (PyErr + list (list (nat * nat))) :=
  match PyArg_ParseTupleAndKeywords args kwds with
  | None => Some (inl err_parse)
  | Some (nodeTuple, pyMaxDegree, pyMinDegree) =>
      generatePyEdges_parsed enum nodeTuple pyMaxDegree pyMinDegree
  end.

Definition generatePyEdges (fuel : nat) :=
  generatePyEdges_with (generateEdges fuel).

(** * Specification vocabulary *)

(** ** The call boundary *)

(** The error kinds of the design document. *)
Inductive ErrorKind :=
| InvalidNodeCount
| InvalidColoring
| InvalidDegreeBounds
| InvalidType.

Definition error_kind (e : PyErr) : ErrorKind :=
  match e with
  | TypeError _ => InvalidType
  | ValueError msg =>
      if (msg =? "max_degree must be greater than or equal to min_degree")%string
         || (msg =? "min_degree must be a non-negative integer")%string
      then InvalidDegreeBounds
      else if (msg =? "Node value tuple must not be empty")%string
              || (msg =? "Only up to 11 nodes are supported")%string
      then InvalidNodeCount
      else InvalidColoring
  end.

(** A sequence that starts at 0 (when it starts at all) and whose every
    element is its predecessor or its predecessor plus one. *)
Definition run_ok (zs : list Z) : Prop :=
  (∀ a, zs !! 0%nat = Some a → a = 0)
  ∧ (∀ i a b, zs !! i = Some a → zs !! Datatypes.S i = Some b →
              b = a ∨ b = a + 1).

(** The three preconditions, on the values the binding receives. *)
Definition bad_degree_bounds (pyMaxDegree pyMinDegree : Z) : Prop :=
  pyMaxDegree < pyMinDegree ∨ pyMinDegree < 0.

Definition bad_node_count (zs : list Z) : Prop :=
  length zs = 0%nat ∨ (11 < length zs)%nat.

Definition bad_coloring (zs : list Z) : Prop := ¬ run_ok zs.

(** A tuple of Python integers. *)
Definition int_tuple (zs : list Z) : PyObject := PyTuple (PyLong <$> zs).

(** The [int] that argument parsing makes of the Python integer [z]: its
    low 32 bits, read as a signed number. *)
Definition truncated (z : Z) : Z := int_of_unsigned (wrap32 (wrap64 z)).

(** ** The adjacency encoding *)

(** The number of node pairs, [n(n-1)/2]. *)
Definition triuSize (n : nat) : nat := (n * (n - 1) / 2)%nat.

(** The node pairs [(i, j)], [i < j < n], row by row. *)
Definition pairs (n : nat) : list (nat * nat) :=
  i ← seq 0 n; (λ j, (i, j)) <$> seq (i + 1) (n - (i + 1)).

(** The index formula of the design document, in exact arithmetic. *)
Definition idx (i j n : Z) : Z := i * n - (i * i + 3 * i) / 2 + j - 1.

(** The bit (counted from the least significant one) that the code uses for
    the pair [{i, j}]. *)
Definition bitpos (n i j : nat) : Z :=
  Z.of_nat (triuSize n) - 1 - Z.of_nat (upperTriuIndex i j n).

(** The word whose set bits are the positions [ps]. *)
Definition bitmask (ps : list Z) : Z := foldr (λ p m, Z.lor (2 ^ p) m) 0 ps.

(** The pairs that contain node [k]. *)
Definition incident (n k : nat) : list (nat * nat) :=
  ((λ u, (u, k)) <$> seq 0 k) ++ ((λ v, (k, v)) <$> seq (k + 1) (n - (k + 1))).

(** What the tables built from [n] alone have to be, as a check that can be
    run for each supported [n]. *)
Definition tables_check (n : nat) : bool :=
  bool_decide ((λ p, upperTriuIndex p.1 p.2 n) <$> pairs n
               = seq 0 (triuSize n))
  && bool_decide (Forall (λ p, Z.of_nat (upperTriuIndex p.1 p.2 n)
                               = idx (Z.of_nat p.1) (Z.of_nat p.2) (Z.of_nat n))
                         (pairs n))
  && bool_decide (adjTriuMasksOf n
                  = (λ c, 2 ^ (Z.of_nat (triuSize n) - 1 - Z.of_nat c))
                      <$> seq 0 (triuSize n))
  && bool_decide (calculateDegreeFilter n
                  = (λ k, bitmask ((λ p, bitpos n p.1 p.2) <$> incident n k))
                      <$> seq 0 n).

(** A graph object of one enumeration call: at most 11 nodes, the shared
    tables are those built from the number of nodes, and the adjacency word
    has no bit outside the [n(n-1)/2] low ones. *)
Record graph_ok (g : Graph) : Prop := {
  ok_n : (2 ≤ nNodes g ≤ 11)%nat;
  ok_masks : adjacencyTriuMasks g = adjTriuMasksOf (nNodes g);
  ok_filter : degreeFilter g = calculateDegreeFilter (nNodes g);
  ok_adj : 0 ≤ adjacencyTriu g < 2 ^ Z.of_nat (triuSize (nNodes g))
}.

(** ** Graphs as the design document describes them *)

(** The degree of node [v]: the number of nodes [u] with an edge [{v, u}]. *)
Definition degree (g : Graph) (v : nat) : nat :=
  length (filter (λ u, isEdge g v u = true) (seq 0 (nNodes g))).

(** The number of pairs of an edge list that contain [v]. *)
Definition incidence (v : nat) (edges : list (nat * nat)) : nat :=
  length (filter (λ e, e.1 = v ∨ e.2 = v) edges).

(** Adjacency between two nodes of the graph. *)
Definition adjacent (g : Graph) (u v : nat) : Prop :=
  (u < nNodes g)%nat ∧ (v < nNodes g)%nat ∧ isEdge g u v = true.

(** A graph is connected when any two of its nodes are joined by a path. *)
Definition connected_graph (g : Graph) : Prop :=
  ∀ u v, (u < nNodes g)%nat → (v < nNodes g)%nat → rtc (adjacent g) u v.

(** The same for a graph given by its edge list. *)
Definition joined (edges : list (nat * nat)) (u v : nat) : Prop :=
  (u, v) ∈ edges ∨ (v, u) ∈ edges.

Definition edges_connected (n : nat) (edges : list (nat * nat)) : Prop :=
  ∀ u v, (u < n)%nat → (v < n)%nat → rtc (joined edges) u v.

(** The nodes marked in the [visited] word of the traversal. *)
Definition marked (s : BfsState) (i : nat) : Prop :=
  Z.testbit (visited s) (Z.of_nat i) = true.

#[global] Instance marked_dec s i : Decision (marked s i) :=
  decide (Z.testbit (visited s) (Z.of_nat i) = true).

(** The invariant of the traversal loop. *)
Record bfs_inv (g : Graph) (s : BfsState) : Prop := {
  bfs_nonneg : 0 ≤ visited s;
  bfs_start : marked s 0;
  bfs_sound : ∀ i, marked s i → (i < nNodes g)%nat ∧ rtc (adjacent g) 0%nat i;
  bfs_queue : ∀ q, q ∈ queue s → marked s q;
  bfs_nodup : NoDup (queue s);
  bfs_closed : ∀ u w, marked s u → u ∉ queue s → adjacent g u w → marked s w;
  bfs_count :
    (visitedCount s + length (queue s))%nat
    = length (filter (marked s) (seq 0 (nNodes g)))
}.

(** ** Colorings and the permutations that respect them *)

(** The caller contract on the color sequence: it starts at 0 and every
    element is its predecessor or its predecessor plus one. *)
Definition valid_coloring (nodes : list nat) : Prop :=
  nodes !! 0%nat = Some 0%nat
  ∧ ∀ i a b, nodes !! i = Some a → nodes !! S i = Some b → b = a ∨ b = S a.

(** [p] is a permutation of the node indices that maps every index to an
    index of the same color. *)
Definition color_perm (nodes p : list nat) : Prop :=
  p ≡ₚ seq 0 (length nodes)
  ∧ ∀ i, (i < length nodes)%nat → nodes !!! (p !!! i) = nodes !!! i.

(** The number of nodes of color [c]. *)
Definition color_count (c : nat) (nodes : list nat) : nat :=
  length (filter (λ x, x = c) nodes).

(** The product, over the colors that occur, of the factorial of the number
    of nodes of that color. *)
Definition factorial_product (nodes : list nat) : nat :=
  foldr Nat.mul 1%nat ((λ c, fact (color_count c nodes)) <$> remove_dups nodes).

(** The inverse of a permutation given as a vector. *)
Definition perm_inv (p : list nat) : list nat :=
  (λ v, default 0%nat (fst <$> list_find (λ x, x = v) p)) <$> seq 0 (length p).

(** The number of complete assignments for the positions [l] that are still
    open: each position chooses among the not yet used indices of its
    color. *)
Fixpoint choices (l : list nat) : nat :=
  match l with
  | [] => 1
  | c :: l' => (S (color_count c l') * choices l')%nat
  end.

(** The pool of color [c] in an index map. *)
Definition pool (m : gmap nat (list nat)) (c : nat) : list nat :=
  default [] (m !! c).

(** The index map at position [k] of [generatePermutations]: every pool is
    duplicate free, holds indices of its own color, and has as many of them
    as there are positions of that color from [k] on. *)
Record pools_ok (nodes : list nat) (k : nat) (m : gmap nat (list nat)) : Prop := {
  pools_nodup : ∀ c, NoDup (pool m c);
  pools_color : ∀ c x, x ∈ pool m c →
                       (x < length nodes)%nat ∧ nodes !!! x = c;
  pools_size : ∀ c, length (pool m c) = color_count c (drop k nodes);
  pools_key : ∀ c, c ∈ nodes → is_Some (m !! c)
}.

(** The permutations [generatePermutations] completes from position [k] on,
    when it is entered with the buffer [cur] and the index map [m]. *)
Definition completes (nodes : list nat) (k : nat) (cur : list nat)
    (m : gmap nat (list nat)) (p : list nat) : Prop :=
  length p = length nodes
  ∧ take k p = take k cur
  ∧ NoDup (drop k p)
  ∧ ∀ j, (k ≤ j < length nodes)%nat → p !!! j ∈ pool m (nodes !!! j).

(** What a call of [generatePermutations] at position [k] does to its three
    reference arguments. *)
Definition perm_post (nodes : list nat) (k : nat) (st st' : PermGen) : Prop :=
  indexMap st' = indexMap st
  ∧ length (currentPermutation st') = length nodes
  ∧ take k (currentPermutation st') = take k (currentPermutation st)
  ∧ ∃ L, out_permutations st' = out_permutations st ++ L
         ∧ NoDup L
         ∧ length L = choices (drop k nodes)
         ∧ ∀ p, p ∈ L ↔ completes nodes k (currentPermutation st) (indexMap st) p.

(** The invariant of the [for] loop of [generatePermutations] at position
    [k], entered with buffer [cur0], index map [imap0] and output [out0]:
    after [i] rounds the map is restored, the buffer is unchanged below [k],
    and the output has grown by the permutations that put one of the first
    [i] pool entries at position [k]. *)
Definition perm_loop_inv (nodes : list nat) (k : nat) (cur0 : list nat)
    (imap0 : gmap nat (list nat)) (out0 : list (list nat)) (i : nat)
    (st : PermGen) : Prop :=
  indexMap st = imap0
  ∧ length (currentPermutation st) = length nodes
  ∧ take k (currentPermutation st) = take k cur0
  ∧ ∃ L, out_permutations st = out0 ++ L
         ∧ NoDup L
         ∧ length L = (i * choices (drop (S k) nodes))%nat
         ∧ ∀ p, p ∈ L ↔
                completes nodes k cur0 imap0 p
                ∧ ∃ t, (t < i)%nat
                       ∧ p !!! k = pool imap0 (nodes !!! k) !!! t.

(** The composition of two permutations given as vectors: first [p], then
    [q]. *)
Definition perm_comp (p q : list nat) : list nat :=
  (λ i, q !!! (p !!! i)) <$> seq 0 (length p).

(** A graph object of the enumeration call for [nodes], with permutation
    table [table]. *)
Record in_context (colors : list nat) (table : list (list nat)) (g : Graph)
    : Prop := {
  ctx_n : nNodes g = length colors;
  ctx_nodes : nodes g = colors;
  ctx_table : permutations g = table
}.

(** Two graphs on the same colored node sequence are isomorphic when a
    color-preserving permutation of the node indices maps the edges of the
    first onto the edges of the second. *)
Definition isomorphic (nodes : list nat) (g h : Graph) : Prop :=
  ∃ p, color_perm nodes p
       ∧ ∀ i j, (i < length nodes)%nat → (j < length nodes)%nat →
                isEdge g i j = isEdge h (p !!! i) (p !!! j).

(** ** The invariant vector *)

(** The colors of the two endpoints of an edge, smaller one first. *)
Definition edge_colors (colors : list nat) (e : nat * nat) : nat * nat :=
  let a := colors !!! e.1 in
  let b := colors !!! e.2 in
  (a `min` b, a `max` b)%nat.

(** The invariant vector as the design document defines it, from the edge
    list of the graph: the number of edges, then for each color in
    increasing order the sorted degrees of the nodes of that color, then for
    each color pair [a <= b] in increasing order the number of edges whose
    endpoints have the colors [a] and [b]. *)
Definition invariant_vector (g : Graph) : repr :=
  let numColors := S (list_max (nodes g)) in
  [Z.of_nat (length (getEdges g))]
  ++ (c ← seq 0 numColors;
      sort ((λ v, Z.of_nat (degree g v))
              <$> filter (λ v, nodes g !!! v = c) (seq 0 (nNodes g))))
  ++ (a ← seq 0 numColors;
      (λ b, Z.of_nat (length (filter (λ e, edge_colors (nodes g) e = (a, b))
                                     (getEdges g))))
        <$> seq a (numColors - a)).

(** A matrix of [m] rows of length [m]. *)
Definition square (m : nat) (a : list (list Z)) : Prop :=
  length a = m ∧ ∀ i, (i < m)%nat → length (a !!! i) = m.

(** The image of an edge under a relabeling of the nodes, smaller endpoint
    first. *)
Definition relabel (p : list nat) (e : nat * nat) : nat * nat :=
  let u := p !!! e.1 in
  let v := p !!! e.2 in
  (u `min` v, u `max` v)%nat.

(** ** Candidates *)

(** [g] is the graph object that one call constructs from the adjacency
    word [a], with the tables of the call. *)
Definition candidate (fuel : nat) (colors : list nat)
    (table : list (list nat)) (a : triu) (g : Graph) : Prop :=
  Graph_new fuel colors a (calculateDegreeFilter (length colors))
    (adjTriuMasksOf (length colors)) table = Some g.

(** ** The map of unique graphs *)

(** The keys of the map are strictly increasing. *)
Definition keys_sorted {V} (m : list (repr * V)) : Prop :=
  StronglySorted (λ a b, repr_lt a b = true) (m.*1).

(** All the graphs the map retains. *)
Definition retained (m : list (repr * list Graph)) : list Graph := m ≫= snd.

(** The invariant of the loop that filters out identical graphs, after the
    graphs [seen]: a bucket holds graphs that were seen and have its key as
    representation, no two graphs of a bucket are equal, and every graph
    seen is equal to a graph of the bucket of its representation. *)
Record unique_inv (seen : list Graph) (m : list (repr * list Graph)) : Prop := {
  uq_sorted : keys_sorted m;
  uq_rep : ∀ k b u, (k, b) ∈ m → u ∈ b → representation u = k ∧ u ∈ seen;
  uq_nodup : ∀ k b, (k, b) ∈ m →
      NoDup b ∧ ∀ u u', u ∈ b → u' ∈ b → Graph_eq u u' = true → u = u';
  uq_complete : ∀ g, g ∈ seen →
      ∃ b u, map_find (representation g) m = Some b ∧ u ∈ b
             ∧ Graph_eq u g = true
}.

(** ** Graphs given by edge lists *)

(** The edge list of a simple graph on [n] nodes: pairs [(i, j)] with
    [i < j < n], none of them twice. *)
Definition simple_graph (n : nat) (edges : list (nat * nat)) : Prop :=
  NoDup edges ∧ ∀ i j, (i, j) ∈ edges → (i < j < n)%nat.

(** Every node of the edge list has a degree within the bounds. *)
Definition degree_bounded (n : nat) (minDegree maxDegree : Z)
    (edges : list (nat * nat)) : Prop :=
  ∀ v, (v < n)%nat → minDegree ≤ Z.of_nat (incidence v edges) ≤ maxDegree.

(** Two edge lists are related by a color-preserving permutation of the node
    indices: relabeling the first gives the pairs of the second, in some
    order. *)
Definition edges_isomorphic (colors : list nat)
    (edges edges' : list (nat * nat)) : Prop :=
  ∃ p, color_perm colors p ∧ relabel p <$> edges ≡ₚ edges'.

(** The adjacency word of an edge list. *)
Definition encode (n : nat) (edges : list (nat * nat)) : triu :=
  bitmask ((λ e, bitpos n e.1 e.2) <$> edges).

(** The row-major order on node pairs. *)
Definition pair_lt (p q : nat * nat) : Prop :=
  (p.1 < q.1 ∨ (p.1 = q.1 ∧ p.2 < q.2))%nat.

(** ** Small concrete inputs *)

(** The graph object for three nodes of one color and the adjacency word
    [a], with the tables [generateEdges] builds for three nodes. *)
Definition graph3 (a : triu) : Graph :=
  mkGraph 3 [0; 0; 0]%nat [] false a (calculateDegreeFilter 3)
    (adjTriuMasksOf 3) [].

(** * Properties *)

(** ** Machine words *)

Lemma wrap64_small x : 0 ≤ x < 2 ^ 64 → wrap64 x = x.
Proof. intros. unfold wrap64. by apply Z.mod_small. Qed.

Lemma popcountll_nonneg x : 0 ≤ popcountll x.
Proof.
  destruct x as [|p|p]; simpl; try lia. induction p; simpl; lia.
Qed.

Lemma popcountll_double x : 0 ≤ x → popcountll (2 * x) = popcountll x.
Proof. destruct x as [|p|p]; simpl; intros; done || lia. Qed.

Lemma popcountll_succ_double x :
  0 ≤ x → popcountll (2 * x + 1) = 1 + popcountll x.
Proof. destruct x as [|p|p]; simpl; intros; done || lia. Qed.

Lemma popcountll_div2 x :
  0 ≤ x → popcountll x = popcountll (x / 2) + x mod 2.
Proof.
  intros Hx. pose proof (Z.div_mod x 2 ltac:(lia)) as Hdm.
  pose proof (Z.mod_pos_bound x 2 ltac:(lia)) as Hm.
  assert (0 ≤ x / 2) by (apply Z.div_pos; lia).
  destruct (decide (x mod 2 = 0)) as [H0|H0].
  - rewrite Hdm at 1. rewrite H0, Z.add_0_r. rewrite popcountll_double; lia.
  - assert (x mod 2 = 1) as H1 by lia.
    rewrite Hdm at 1. rewrite H1. rewrite popcountll_succ_double; lia.
Qed.

Lemma filter_fmap' {A B} (f : A → B) (P : B → Prop) `{!∀ x, Decision (P x)}
    (l : list A) :
  filter P (f <$> l) = f <$> filter (λ x, P (f x)) l.
Proof.
  induction l as [|x l IH]; [done|].
  rewrite fmap_cons, !filter_cons, IH. by case_decide.
Qed.

Lemma filter_ext_elem {A} (P1 P2 : A → Prop)
    `{!∀ x, Decision (P1 x), !∀ x, Decision (P2 x)} (l : list A) :
  (∀ x, x ∈ l → (P1 x ↔ P2 x)) → filter P1 l = filter P2 l.
Proof.
  induction l as [|a l IH]; intros Hext; [done|].
  rewrite !filter_cons, IH by (intros; apply Hext; by right).
  destruct (decide (P1 a)), (decide (P2 a)); try done;
    exfalso; pose proof (Hext a ltac:(left)); tauto.
Qed.

(** The population count is the number of set bits among the low [k]. *)
Lemma popcountll_testbits (k : nat) : ∀ x,
  0 ≤ x < 2 ^ Z.of_nat k →
  popcountll x
  = Z.of_nat (length (filter (λ b, Z.testbit x b = true) (seqZ 0 (Z.of_nat k)))).
Proof.
  induction k as [|k IH]; intros x Hx.
  - assert (x = 0) as -> by (simpl in Hx; lia). done.
  - rewrite Nat2Z.inj_succ, Z.pow_succ_r in Hx by lia.
    rewrite popcountll_div2 by lia.
    rewrite IH by (split; [apply Z.div_pos; lia | apply Z.div_lt_upper_bound; lia]).
    replace (Z.of_nat (S k)) with (1 + Z.of_nat k) by lia.
    rewrite seqZ_app by lia. change (seqZ 0 1) with [0].
    rewrite filter_app, length_app.
    replace (seqZ (0 + 1) (Z.of_nat k)) with (Z.succ <$> seqZ 0 (Z.of_nat k)).
    2:{ rewrite <- (fmap_add_seqZ 1 0). apply list_fmap_ext; intros; lia. }
    rewrite filter_fmap', length_fmap.
    rewrite (filter_ext_elem (λ b, Z.testbit x (Z.succ b) = true)
               (λ b, Z.testbit (x / 2) b = true)).
    2:{ intros b Hb%elem_of_seqZ. rewrite Z.div2_bits by lia. done. }
    rewrite filter_cons, filter_nil.
    pose proof (Z.bit0_mod x) as Hm.
    destruct (Z.testbit x 0); simpl in Hm; rewrite <- Hm.
    + rewrite decide_True by done. simpl. lia.
    + rewrite decide_False by done. simpl. lia.
Qed.

Lemma land_pow2_eqb0 a k :
  0 ≤ k → (Z.land a (2 ^ k) =? 0) = negb (Z.testbit a k).
Proof.
  intros Hk.
  assert (Z.land a (2 ^ k) = if Z.testbit a k then 2 ^ k else 0) as ->.
  { apply Z.bits_inj'. intros i Hi. rewrite Z.land_spec, Z.pow2_bits_eqb by done.
    destruct (Z.eqb_spec k i) as [->|Hne].
    - destruct (Z.testbit a i); simpl.
      + rewrite Z.pow2_bits_true; done.
      + by rewrite Z.bits_0.
    - rewrite andb_false_r. destruct (Z.testbit a k).
      + rewrite Z.pow2_bits_false; done.
      + by rewrite Z.bits_0. }
  destruct (Z.testbit a k); simpl; [|done].
  apply Z.eqb_neq. pose proof (Z.pow_pos_nonneg 2 k). lia.
Qed.

Lemma wrap32_small x : 0 ≤ x < 2 ^ 32 → wrap32 x = x.
Proof. intros. unfold wrap32. by apply Z.mod_small. Qed.

Lemma shl64_1 s : 0 ≤ s < 64 → shl64 1 s = 2 ^ s.
Proof.
  intros Hs. unfold shl64. rewrite Z.shiftl_1_l. apply wrap64_small.
  split; [apply Z.pow_nonneg; lia|]. apply Z.pow_lt_mono_r; lia.
Qed.

Local Open Scope Z_scope.

(** ** The adjacency encoding *)

Lemma NoDup_fmap_inj {A B} (f : A → B) (l : list A) x y :
  NoDup (f <$> l) → x ∈ l → y ∈ l → f x = f y → x = y.
Proof.
  intros Hnd [a Ha]%list_elem_of_lookup [b Hb]%list_elem_of_lookup Heq.
  assert (a = b) as ->; [|congruence].
  apply (NoDup_lookup _ _ _ (f x) Hnd); rewrite list_lookup_fmap.
  - by rewrite Ha.
  - by rewrite Hb, Heq.
Qed.

Lemma elem_of_pairs n i j : (i, j) ∈ pairs n ↔ (i < j < n)%nat.
Proof.
  unfold pairs. rewrite list_elem_of_bind. split.
  - intros (i' & Hj & Hi). apply list_elem_of_fmap in Hj as (j' & Heq & Hj).
    simplify_eq. apply elem_of_seq in Hi, Hj. lia.
  - intros H. exists i. split; [|apply elem_of_seq; lia].
    apply list_elem_of_fmap. exists j. split; [done|]. apply elem_of_seq. lia.
Qed.

Lemma NoDup_pairs n : NoDup (pairs n).
Proof.
  unfold pairs. apply NoDup_bind.
  - intros i1 i2 p _ _ (? & -> & _)%list_elem_of_fmap (? & ? & _)%list_elem_of_fmap.
    by simplify_eq.
  - intros i _. apply NoDup_fmap_2; [|apply NoDup_seq]. intros ???. by simplify_eq.
  - apply NoDup_seq.
Qed.

Lemma tables_checked : forallb tables_check (seq 2 10) = true.
Proof. vm_compute. reflexivity. Qed.

Lemma tables_ok n : (2 ≤ n ≤ 11)%nat → tables_check n = true.
Proof.
  intros Hn. pose proof tables_checked as H.
  rewrite forallb_forall in H. apply H. apply list_elem_of_In, elem_of_seq. lia.
Qed.

Lemma triuSize_le n : (2 ≤ n ≤ 11)%nat → (1 ≤ triuSize n ≤ 55)%nat.
Proof.
  intros Hn. unfold triuSize.
  assert (n ∈ seq 2 10) as Hin by (apply elem_of_seq; lia).
  revert Hin. generalize n. apply Forall_forall.
  repeat constructor; simpl; lia.
Qed.

Section Tables.
Context (n : nat) (Hn : (2 ≤ n ≤ 11)%nat).

Lemma tables_parts :
  ((λ p, upperTriuIndex p.1 p.2 n) <$> pairs n = seq 0 (triuSize n))
  ∧ Forall (λ p, Z.of_nat (upperTriuIndex p.1 p.2 n)
                 = idx (Z.of_nat p.1) (Z.of_nat p.2) (Z.of_nat n)) (pairs n)
  ∧ adjTriuMasksOf n
    = (λ c, 2 ^ (Z.of_nat (triuSize n) - 1 - Z.of_nat c)) <$> seq 0 (triuSize n)
  ∧ calculateDegreeFilter n
    = (λ k, bitmask ((λ p, bitpos n p.1 p.2) <$> incident n k)) <$> seq 0 n.
Proof.
  pose proof (tables_ok n Hn) as H. unfold tables_check in H.
  rewrite !andb_true_iff, !bool_decide_eq_true in H. tauto.
Qed.

Lemma upperTriuIndex_lt i j :
  (i < j < n)%nat → (upperTriuIndex i j n < triuSize n)%nat.
Proof.
  intros Hij%elem_of_pairs. destruct tables_parts as (H & _).
  assert (upperTriuIndex i j n ∈ seq 0 (triuSize n)) as Hin.
  { rewrite <- H. apply list_elem_of_fmap. by exists (i, j). }
  apply elem_of_seq in Hin. lia.
Qed.

Lemma upperTriuIndex_inj i j i' j' :
  (i < j < n)%nat → (i' < j' < n)%nat →
  upperTriuIndex i j n = upperTriuIndex i' j' n → (i, j) = (i', j').
Proof.
  intros Hij%elem_of_pairs Hij'%elem_of_pairs Heq.
  destruct tables_parts as (H & _).
  assert (NoDup ((λ p, upperTriuIndex p.1 p.2 n) <$> pairs n)) as Hnd.
  { rewrite H. apply NoDup_seq. }
  apply (NoDup_fmap_inj (λ p, upperTriuIndex p.1 p.2 n) (pairs n)); done.
Qed.

Lemma upperTriuIndex_surj c :
  (c < triuSize n)%nat → ∃ i j, (i < j < n)%nat ∧ upperTriuIndex i j n = c.
Proof.
  intros Hc. destruct tables_parts as (H & _).
  assert (c ∈ (λ p, upperTriuIndex p.1 p.2 n) <$> pairs n) as Hin.
  { rewrite H. apply elem_of_seq. lia. }
  apply list_elem_of_fmap in Hin as ([i j] & -> & Hp%elem_of_pairs). eauto.
Qed.

Lemma upperTriuIndex_idx i j :
  (i < j < n)%nat →
  Z.of_nat (upperTriuIndex i j n)
  = idx (Z.of_nat i) (Z.of_nat j) (Z.of_nat n).
Proof.
  intros Hij%elem_of_pairs. destruct tables_parts as (_ & H & _).
  rewrite Forall_forall in H. apply (H (i, j) Hij).
Qed.

Lemma adjTriuMasks_lookup i j :
  (i < j < n)%nat →
  adjTriuMasksOf n !!! upperTriuIndex i j n = 2 ^ bitpos n i j.
Proof.
  intros Hij. destruct tables_parts as (_ & _ & -> & _).
  apply list_lookup_total_correct. rewrite list_lookup_fmap.
  rewrite lookup_seq_lt by by apply upperTriuIndex_lt. done.
Qed.

Lemma adjTriuMasks_lookup_count c :
  (c < triuSize n)%nat →
  adjTriuMasksOf n !!! c = 2 ^ (Z.of_nat (triuSize n) - 1 - Z.of_nat c).
Proof.
  intros Hc. destruct tables_parts as (_ & _ & -> & _).
  apply list_lookup_total_correct. rewrite list_lookup_fmap.
  rewrite lookup_seq_lt by done. done.
Qed.

Lemma degreeFilter_lookup k :
  (k < n)%nat →
  calculateDegreeFilter n !!! k
  = bitmask ((λ p, bitpos n p.1 p.2) <$> incident n k).
Proof.
  intros Hk. destruct tables_parts as (_ & _ & _ & ->).
  apply list_lookup_total_correct. rewrite list_lookup_fmap.
  rewrite lookup_seq_lt by done. done.
Qed.

Lemma bitpos_range i j :
  (i < j < n)%nat → 0 ≤ bitpos n i j < Z.of_nat (triuSize n).
Proof. intros H%upperTriuIndex_lt. unfold bitpos. lia. Qed.

End Tables.

Lemma upperTriuIndex_sym i j n : upperTriuIndex i j n = upperTriuIndex j i n.
Proof.
  unfold upperTriuIndex.
  destruct (Nat.ltb_spec j i), (Nat.ltb_spec i j); try done; try lia.
  by replace j with i by lia.
Qed.

Lemma bitpos_sym n i j : bitpos n i j = bitpos n j i.
Proof. unfold bitpos. by rewrite upperTriuIndex_sym. Qed.

(** What [isEdge] reads. *)
Lemma isEdge_testbit g u v :
  graph_ok g → (u < nNodes g)%nat → (v < nNodes g)%nat → u ≠ v →
  isEdge g u v = Z.testbit (adjacencyTriu g) (bitpos (nNodes g) u v).
Proof.
  intros [Hn Hm _ _] Hu Hv Huv. unfold isEdge.
  rewrite (proj2 (Nat.eqb_neq u v)) by done.
  assert (∀ i j, (i < j < nNodes g)%nat →
    negb (Z.land (adjacencyTriu g)
            (adjacencyTriuMasks g !!! upperTriuIndex i j (nNodes g)) =? 0)
    = Z.testbit (adjacencyTriu g) (bitpos (nNodes g) i j)) as H.
  { intros i j Hij. rewrite Hm, adjTriuMasks_lookup by done.
    rewrite land_pow2_eqb0, negb_involutive; [done|].
    by apply bitpos_range. }
  destruct (decide (u < v)%nat).
  - apply H. lia.
  - rewrite upperTriuIndex_sym, bitpos_sym. apply H. lia.
Qed.

Lemma isEdge_irrefl g u : isEdge g u u = false.
Proof. unfold isEdge. by rewrite Nat.eqb_refl. Qed.

Lemma isEdge_sym g u v : isEdge g u v = isEdge g v u.
Proof.
  unfold isEdge. rewrite (Nat.eqb_sym v u). by rewrite upperTriuIndex_sym.
Qed.

(** ** Population counts under a mask *)

Lemma bitmask_nonneg ps : Forall (λ p, 0 ≤ p) ps → 0 ≤ bitmask ps.
Proof.
  induction 1 as [|p ps Hp _ IH]; simpl; [done|].
  apply Z.lor_nonneg. split; [apply Z.pow_nonneg; lia|done].
Qed.

Lemma bitmask_testbit ps b :
  Forall (λ p, 0 ≤ p) ps → 0 ≤ b →
  Z.testbit (bitmask ps) b = bool_decide (b ∈ ps).
Proof.
  intros Hps Hb. induction Hps as [|p ps Hp _ IH]; simpl.
  - by rewrite Z.bits_0.
  - rewrite Z.lor_spec, IH, Z.pow2_bits_eqb by done.
    destruct (Z.eqb_spec p b) as [->|Hne]; simpl.
    + symmetry. apply bool_decide_eq_true. by left.
    + apply bool_decide_ext. rewrite elem_of_cons. split; [by right|].
      by intros [?|?].
Qed.

Lemma bits_bound x k :
  0 ≤ k → 0 ≤ x → (∀ b, k ≤ b → Z.testbit x b = false) → x < 2 ^ k.
Proof.
  intros Hk Hx Hb.
  assert (Z.land x (Z.ones k) = x) as Heq.
  { apply Z.bits_inj'. intros b Hb0. rewrite Z.land_spec.
    destruct (decide (b < k)).
    - rewrite Z.ones_spec_low by lia. by rewrite andb_true_r.
    - rewrite Hb by lia. done. }
  rewrite Z.land_ones in Heq by done. rewrite <- Heq.
  apply Z.mod_pos_bound. by apply Z.pow_pos_nonneg.
Qed.

Lemma popcountll_land_bitmask a ps :
  0 ≤ a → NoDup ps → Forall (λ p, 0 ≤ p < 64) ps →
  popcountll (Z.land a (bitmask ps))
  = Z.of_nat (length (filter (λ p, Z.testbit a p = true) ps)).
Proof.
  intros Ha Hnd Hps.
  assert (Forall (λ p, 0 ≤ p) ps) as Hps0.
  { eapply Forall_impl; [done|]. simpl. lia. }
  assert (0 ≤ Z.land a (bitmask ps)) as H0.
  { apply Z.land_nonneg. by left. }
  rewrite (popcountll_testbits 64).
  2:{ split; [done|]. apply bits_bound; [lia|done|].
      intros b Hb. rewrite Z.land_spec, bitmask_testbit by (done || lia).
      rewrite bool_decide_eq_false_2; [apply andb_false_r|].
      intros Hin. rewrite Forall_forall in Hps. specialize (Hps _ Hin). lia. }
  f_equal.
  rewrite (filter_ext_elem _ (λ b, Z.testbit a b = true ∧ b ∈ ps)).
  2:{ intros b Hb%elem_of_seqZ. rewrite Z.land_spec, bitmask_testbit by (done||lia).
      rewrite andb_true_iff, bool_decide_eq_true. done. }
  rewrite <- list_filter_filter.
  apply Permutation_length.
  apply (filter_Permutation (λ p, Z.testbit a p = true)).
  apply NoDup_Permutation; [apply NoDup_filter, NoDup_seqZ|done|].
  intros b. rewrite list_elem_of_filter, elem_of_seqZ.
  rewrite Forall_forall in Hps. split; [tauto|]. intros Hin.
  specialize (Hps _ Hin). split; [done|]. simpl. lia.
Qed.

(** ** Loops that collect *)

Lemma fold_left_collect {A B} (P : A → bool) (f : A → B) (l : list A) acc :
  fold_left (λ acc x, if P x then acc ++ [f x] else acc) l acc
  = acc ++ (f <$> filter (λ x, P x = true) l).
Proof.
  revert acc. induction l as [|x l IH]; intros acc; cbn [fold_left].
  - by rewrite filter_nil, fmap_nil, app_nil_r.
  - rewrite IH, filter_cons. destruct (P x) eqn:HP.
    + rewrite decide_True by done. by rewrite fmap_cons, <- (assoc_L (++)).
    + rewrite decide_False by done. done.
Qed.

Lemma fold_left_bind {A B} (f : list B → A → list B) (h : A → list B)
    (l : list A) :
  (∀ acc x, f acc x = acc ++ h x) →
  ∀ acc, fold_left f l acc = acc ++ (l ≫= h).
Proof.
  intros Hf. induction l as [|x l IH]; intros acc; simpl.
  - by rewrite app_nil_r.
  - rewrite IH, Hf. by rewrite <- (assoc_L (++)).
Qed.

Lemma filter_bind {A B} (P : B → Prop) `{!∀ x, Decision (P x)}
    (h : A → list B) (l : list A) :
  filter P (l ≫= h) = l ≫= (λ x, filter P (h x)).
Proof.
  induction l as [|x l IH]; [done|].
  rewrite !bind_cons, filter_app. by rewrite IH.
Qed.

(** [getEdges] lists the pairs that are edges, in index order. *)
Lemma getEdges_filter g :
  getEdges g = filter (λ p, isEdge g p.1 p.2 = true) (pairs (nNodes g)).
Proof.
  unfold getEdges, pairs. rewrite filter_bind.
  rewrite (fold_left_bind _
    (λ i, filter (λ p, isEdge g p.1 p.2 = true)
            ((λ j, (i, j)) <$> seq (i + 1) (nNodes g - (i + 1))))); [done|].
  intros acc i. rewrite (fold_left_collect (isEdge g i) (λ j, (i, j))).
  by rewrite filter_fmap'.
Qed.

Lemma elem_of_getEdges g i j :
  (i, j) ∈ getEdges g ↔ (i < j < nNodes g)%nat ∧ isEdge g i j = true.
Proof.
  rewrite getEdges_filter, list_elem_of_filter, elem_of_pairs. simpl. tauto.
Qed.

Lemma NoDup_getEdges g : NoDup (getEdges g).
Proof. rewrite getEdges_filter. apply NoDup_filter, NoDup_pairs. Qed.

(** ** Degrees *)

Lemma elem_of_incident n k p :
  (k < n)%nat →
  p ∈ incident n k ↔ p ∈ pairs n ∧ (p.1 = k ∨ p.2 = k).
Proof.
  intros Hk. destruct p as [i j]. rewrite elem_of_pairs. unfold incident.
  rewrite elem_of_app, !list_elem_of_fmap. simpl. split.
  - intros [(u & ? & Hu%elem_of_seq)|(v & ? & Hv%elem_of_seq)]; simplify_eq; lia.
  - intros [Hij [->| ->]].
    + right. exists j. split; [done|]. apply elem_of_seq. lia.
    + left. exists i. split; [done|]. apply elem_of_seq. lia.
Qed.

Lemma NoDup_incident n k : NoDup (incident n k).
Proof.
  unfold incident. apply NoDup_app. split_and!.
  - apply NoDup_fmap_2; [|apply NoDup_seq]. intros ???. by simplify_eq.
  - intros p (u & -> & Hu%elem_of_seq)%list_elem_of_fmap
             (v & ? & Hv%elem_of_seq)%list_elem_of_fmap.
    simplify_eq. lia.
  - apply NoDup_fmap_2; [|apply NoDup_seq]. intros ???. by simplify_eq.
Qed.

Lemma seq_split_at n v :
  (v < n)%nat → seq 0 n = seq 0 v ++ [v] ++ seq (v + 1) (n - (v + 1)).
Proof.
  intros Hv. assert (n = v + S (n - (v + 1)))%nat as Hn by lia.
  rewrite Hn at 1. rewrite seq_app. simpl. by rewrite Nat.add_1_r.
Qed.

Lemma degree_incident g v :
  (v < nNodes g)%nat →
  degree g v
  = length (filter (λ p, isEdge g p.1 p.2 = true) (incident (nNodes g) v)).
Proof.
  intros Hv. unfold degree, incident.
  rewrite (seq_split_at (nNodes g) v) by done.
  rewrite !filter_app, !length_app, !filter_fmap', !length_fmap. simpl.
  rewrite filter_cons, decide_False by (rewrite isEdge_irrefl; done).
  simpl. f_equal.
  apply (f_equal length), filter_ext_elem. intros u _. by rewrite isEdge_sym.
Qed.

Lemma incidence_getEdges g v :
  (v < nNodes g)%nat →
  incidence v (getEdges g)
  = length (filter (λ p, isEdge g p.1 p.2 = true) (incident (nNodes g) v)).
Proof.
  intros Hv. unfold incidence. rewrite getEdges_filter.
  rewrite list_filter_filter.
  rewrite (list_filter_iff _ (λ p, isEdge g p.1 p.2 = true ∧ (p.1 = v ∨ p.2 = v)))
    by (intros; tauto).
  rewrite <- list_filter_filter.
  apply Permutation_length, (filter_Permutation (λ p, isEdge g p.1 p.2 = true)).
  apply NoDup_Permutation.
  - apply NoDup_filter, NoDup_pairs.
  - apply NoDup_incident.
  - intros p. rewrite list_elem_of_filter, elem_of_incident by done. tauto.
Qed.

Lemma NoDup_bitpos_incident n k :
  (2 ≤ n ≤ 11)%nat → (k < n)%nat →
  NoDup ((λ p, bitpos n p.1 p.2) <$> incident n k).
Proof.
  intros Hn Hk. apply NoDup_fmap_2_strong; [|apply NoDup_incident].
  intros [i j] [i' j'] [Hp _]%elem_of_incident [Hp' _]%elem_of_incident; try done.
  apply elem_of_pairs in Hp, Hp'. unfold bitpos. simpl. intros Heq.
  apply (upperTriuIndex_inj n Hn); [done..|]. lia.
Qed.

Lemma popcountll_degreeFilter g v :
  graph_ok g → (v < nNodes g)%nat →
  popcountll (Z.land (adjacencyTriu g) (degreeFilter g !!! v))
  = Z.of_nat (length (filter (λ p, isEdge g p.1 p.2 = true)
                             (incident (nNodes g) v))).
Proof.
  intros Hg Hv. pose proof Hg as [Hn Hm Hf Ha].
  rewrite Hf, degreeFilter_lookup by done.
  assert (Forall (λ p, 0 ≤ p < 64)
            ((λ p, bitpos (nNodes g) p.1 p.2) <$> incident (nNodes g) v)) as Hr.
  { apply Forall_fmap, Forall_forall. intros [i j] [Hp _]%elem_of_incident; [|done].
    apply elem_of_pairs in Hp. simpl.
    pose proof (bitpos_range _ Hn i j Hp). pose proof (triuSize_le _ Hn). lia. }
  rewrite popcountll_land_bitmask; [|lia|by apply NoDup_bitpos_incident|done].
  rewrite filter_fmap', length_fmap. f_equal. f_equal.
  apply filter_ext_elem. intros [i j] [Hp _]%elem_of_incident; [|done].
  apply elem_of_pairs in Hp. simpl.
  rewrite isEdge_testbit by (done || lia). done.
Qed.

Local Open Scope Z_scope.

(** ** The traversal of [checkConnected] *)

Lemma length_filter_or {A} (P Q : A → Prop)
    `{!∀ x, Decision (P x), !∀ x, Decision (Q x)} (l : list A) :
  (∀ x, x ∈ l → P x → Q x → False) →
  length (filter (λ x, P x ∨ Q x) l)
  = (length (filter P l) + length (filter Q l))%nat.
Proof.
  induction l as [|x l IH]; intros Hd; [done|].
  rewrite !filter_cons.
  specialize (IH (λ y Hy, Hd y (list_elem_of_further _ _ _ Hy))).
  pose proof (Hd x ltac:(left)).
  destruct (decide (P x)), (decide (Q x)); try tauto.
  - rewrite decide_True by tauto. simpl. lia.
  - rewrite decide_True by tauto. simpl. lia.
  - rewrite decide_False by tauto. done.
Qed.

Lemma length_filter_all {A} (P : A → Prop) `{!∀ x, Decision (P x)} (l : list A) :
  length (filter P l) = length l ↔ ∀ x, x ∈ l → P x.
Proof.
  induction l as [|x l IH]; [by split; [intros ?? ?%elem_of_nil|]|].
  rewrite filter_cons. pose proof (length_filter P l).
  destruct (decide (P x)); simpl.
  - split.
    + intros Hl y [->|Hy]%elem_of_cons; [done|]. apply IH; [lia|done].
    + intros Hall. f_equal. apply IH. intros y Hy. apply Hall. by right.
  - split; [lia|]. intros Hall. exfalso. apply n. apply Hall. by left.
Qed.

Lemma bfs_scan_cond s i :
  (i < 64)%nat → 0 ≤ visited s →
  negb (negb (Z.land (visited s) (shl64 1 (Z.of_nat i)) =? 0))
  = negb (Z.testbit (visited s) (Z.of_nat i)).
Proof.
  intros Hi Hv. rewrite shl64_1 by lia.
  rewrite land_pow2_eqb0 by lia. by rewrite negb_involutive.
Qed.

Lemma bfs_scan_fold g current l : NoDup l → Forall (λ i, i < 64)%nat l →
  ∀ s, 0 ≤ visited s →
  let s' := fold_left (bfs_scan g current) l s in
  0 ≤ visited s'
  ∧ (∀ b, 0 ≤ b →
       Z.testbit (visited s') b = true ↔
       Z.testbit (visited s) b = true
       ∨ ∃ i, i ∈ l ∧ b = Z.of_nat i ∧ isEdge g current i = true)
  ∧ queue s'
    = queue s ++ filter (λ i, ¬ marked s i ∧ isEdge g current i = true) l
  ∧ visitedCount s' = visitedCount s.
Proof.
  induction 1 as [|i l Hi Hnd IH]; intros Hl s Hv; simpl.
  - split_and!; [done| |by rewrite app_nil_r|done].
    intros b Hb. split; [by left|]. intros [?|(i & []%elem_of_nil & _)]. done.
  - apply Forall_cons in Hl as [Hi64 Hl].
    set (s1 := bfs_scan g current s i).
    assert (0 ≤ visited s1
            ∧ (∀ b, 0 ≤ b → Z.testbit (visited s1) b = true ↔
                 Z.testbit (visited s) b = true
                 ∨ (b = Z.of_nat i ∧ isEdge g current i = true))
            ∧ queue s1
              = queue s ++ (if decide (¬ marked s i ∧ isEdge g current i = true)
                            then [i] else [])
            ∧ visitedCount s1 = visitedCount s) as (Hv1 & Hb1 & Hq1 & Hc1).
    { subst s1. unfold bfs_scan. rewrite bfs_scan_cond by done.
      destruct (decide (marked s i)) as [Hm|Hm].
      - rewrite decide_False by tauto. unfold marked in Hm. rewrite Hm. simpl.
        split_and!; [done| |by rewrite app_nil_r|done].
        intros b Hb. split; [by left|]. intros [?|[-> _]]; done.
      - pose proof Hm as Hm'. unfold marked in Hm'.
        apply not_true_is_false in Hm'. rewrite Hm'. simpl.
        destruct (isEdge g current i) eqn:He; simpl.
        + rewrite decide_True by done.
          rewrite shl64_1 by lia.
          split_and!; [|intros b Hb|done|done].
          * apply Z.lor_nonneg. split; [done|]. apply Z.pow_nonneg. lia.
          * rewrite Z.lor_spec, orb_true_iff, Z.pow2_bits_eqb by lia.
            rewrite Z.eqb_eq. split; (intros [?|?]; [by left|right]).
            -- by split.
            -- by destruct H.
        + rewrite decide_False by (intros [_ ?]; done).
          split_and!; [done| |by rewrite app_nil_r|done].
          intros b Hb. split; [by left|]. intros [?|[_ ?]]; done. }
    destruct (IH Hl s1 Hv1) as (Hv' & Hb' & Hq' & Hc'). fold s1.
    split_and!; [done| | |congruence].
    + intros b Hb. rewrite Hb', Hb1 by done. split.
      * intros [[?|[-> ?]]|(j & ? & ? & ?)]; [by left|right..].
        -- exists i. split; [by left|done].
        -- exists j. split; [by right|done].
      * intros [?|(j & [->|?]%elem_of_cons & ? & ?)]; [left; by left|left; by right|].
        right. by exists j.
    + rewrite Hq', Hq1, filter_cons, <- (assoc_L (++)). f_equal.
      assert (filter (λ j, ¬ marked s1 j ∧ isEdge g current j = true) l
              = filter (λ j, ¬ marked s j ∧ isEdge g current j = true) l) as ->.
      { apply filter_ext_elem. intros j Hj. unfold marked.
        rewrite Hb1 by lia. split; [tauto|]. intros [Hn He]. split; [|done].
        intros [?|[Heq _]]; [done|]. apply Nat2Z.inj in Heq. by subst. }
      by case_decide.
Qed.

Lemma adjacent_sym g u v : adjacent g u v → adjacent g v u.
Proof. intros (? & ? & ?). split_and!; [done..|]. by rewrite isEdge_sym. Qed.

Lemma rtc_adjacent_sym g u v : rtc (adjacent g) u v → rtc (adjacent g) v u.
Proof.
  induction 1 as [|u w v Huw _ IH]; [done|].
  eapply rtc_r; [done|]. by apply adjacent_sym.
Qed.

Lemma filter_none {A} (P : A → Prop) `{!∀ x, Decision (P x)} (l : list A) :
  (∀ x, x ∈ l → ¬ P x) → filter P l = [].
Proof.
  induction l as [|x l IH]; intros Hn; [done|].
  rewrite filter_cons_False by (apply Hn; by left).
  apply IH. intros y Hy. apply Hn. by right.
Qed.

Lemma bfs_inv_init g :
  graph_ok g → bfs_inv g (mkBfs (Z.lor 0 1) [0%nat] 0).
Proof.
  intros [Hn _ _ _].
  assert (∀ i, marked (mkBfs (Z.lor 0 1) [0%nat] 0) i ↔ i = 0%nat) as Hm.
  { intros i. unfold marked. cbn [visited]. change (Z.lor 0 1) with (2 ^ 0).
    rewrite Z.pow2_bits_eqb, Z.eqb_eq by lia. lia. }
  split; cbn [queue visitedCount].
  - done.
  - by apply Hm.
  - intros i ->%Hm. split; [lia|done].
  - intros q ->%list_elem_of_singleton. by apply Hm.
  - apply NoDup_singleton.
  - intros u w ->%Hm Hq. exfalso. apply Hq. by left.
  - rewrite (seq_split_at (nNodes g) 0) by lia.
    change (seq 0 0) with (@nil nat). rewrite app_nil_l.
    rewrite filter_app, length_app.
    rewrite (filter_cons_True _ 0%nat []) by by apply Hm.
    rewrite filter_nil, filter_none; [done|].
    intros i Hi%elem_of_seq ->%Hm. lia.
Qed.

Lemma bfs_body_inv g s :
  graph_ok g → bfs_inv g s → queue s ≠ [] →
  bfs_inv g (bfs_body g s)
  ∧ visitedCount (bfs_body g s) = S (visitedCount s).
Proof.
  intros Hg [Hv H0 Hs Hq Hnd Hcl Hc] Hne. pose proof Hg as [Hn _ _ _].
  unfold bfs_body. destruct (queue s) as [|current rest] eqn:Hqs; [done|].
  set (s0 := mkBfs (visited s) rest (S (visitedCount s))).
  destruct (bfs_scan_fold g current (seq 0 (nNodes g)) (NoDup_seq _ _)
              ltac:(apply Forall_forall; intros ? ?%elem_of_seq; lia)
              s0 Hv) as (Hv' & Hb' & Hq' & Hc').
  set (s' := fold_left (bfs_scan g current) (seq 0 (nNodes g)) s0) in *.
  assert (marked s current) as Hcur by (apply Hq; by left).
  assert (∀ i, marked s' i ↔
               marked s i ∨ ((i < nNodes g)%nat ∧ isEdge g current i = true))
    as Hm.
  { intros i. unfold marked at 1. rewrite Hb' by lia. split.
    - intros [?|(j & Hj%elem_of_seq & ->%Nat2Z.inj & ?)]; [by left|right].
      split; [lia|done].
    - intros [?|[? ?]]; [by left|right]. exists i.
      split; [apply elem_of_seq; lia|done]. }
  assert (∀ i, i ∈ queue s' ↔
               i ∈ rest ∨ ((i < nNodes g)%nat ∧ ¬ marked s i
                           ∧ isEdge g current i = true)) as Hqm.
  { intros i. rewrite Hq', elem_of_app, list_elem_of_filter, elem_of_seq.
    cbn [queue s0]. unfold marked. simpl. intuition lia. }
  split; [|done]. split.
  - done.
  - apply Hm. by left.
  - intros i [Hi|[Hi He]]%Hm; [by apply Hs|]. split; [done|].
    eapply rtc_r; [by apply Hs|]. split_and!; [by apply Hs|done..].
  - intros q [Hr|(? & ? & ?)]%Hqm; apply Hm; [left; apply Hq; by right|by right].
  - rewrite Hq'. apply NoDup_app. split_and!.
    + by apply NoDup_cons in Hnd as [_ ?].
    + intros q Hr [[Hnm _] _]%list_elem_of_filter. apply Hnm.
      unfold marked. cbn [s0 visited]. apply Hq. by right.
    + apply NoDup_filter, NoDup_seq.
  - intros u w Hu Hnq Hadj. apply Hm.
    destruct (decide (u = current)) as [->|Hne'].
    { right. destruct Hadj as (_ & ? & ?). done. }
    apply Hm in Hu as [Hu|[Hu He]].
    + left. apply (Hcl u w); [done| |done].
      intros [->|Hr]%elem_of_cons; [done|]. apply Hnq, Hqm. by left.
    + destruct (decide (marked s u)) as [Hmu|Hmu].
      * left. apply (Hcl u w); [done| |done].
        intros [->|Hr]%elem_of_cons; [done|]. apply Hnq, Hqm. by left.
      * exfalso. apply Hnq, Hqm. right. done.
  - rewrite (filter_ext_elem (marked s')
               (λ i, marked s i ∨ (¬ marked s i ∧ isEdge g current i = true))).
    2:{ intros i Hi%elem_of_seq. rewrite Hm.
        destruct (decide (marked s i)); intuition lia. }
    rewrite length_filter_or by (intros; tauto).
    rewrite Hc', Hq', length_app. cbn [s0 visitedCount queue length] in *.
    match goal with |- (_ + (_ + ?a) = _ + ?b)%nat => change a with b end.
    lia.
Qed.

Lemma bfs_loop g fuel : ∀ s,
  graph_ok g → bfs_inv g s → (nNodes g ≤ visitedCount s + fuel)%nat →
  ∃ s', while fuel bfs_cond (bfs_body g) s = Some s'
        ∧ bfs_inv g s' ∧ queue s' = [].
Proof.
  induction fuel as [|fuel IH]; intros s Hg Hinv Hf.
  - exists s. pose proof (bfs_count g s Hinv) as Hc.
    pose proof (length_filter (marked s) (seq 0 (nNodes g))) as Hl.
    rewrite length_seq in Hl.
    destruct (queue s) as [|q rest] eqn:Hq; [|simpl in Hc; lia].
    simpl. unfold bfs_cond. rewrite Hq. done.
  - cbn [while]. unfold bfs_cond at 1.
    destruct (queue s) as [|q rest] eqn:Hq.
    + exists s. done.
    + destruct (bfs_body_inv g s Hg Hinv) as [Hinv' Hc']; [by rewrite Hq|].
      apply IH; [done..|]. lia.
Qed.

Lemma connected_from_0 g :
  (0 < nNodes g)%nat →
  connected_graph g ↔ ∀ v, (v < nNodes g)%nat → rtc (adjacent g) 0%nat v.
Proof.
  intros Hn. split.
  - intros Hc v Hv. by apply Hc.
  - intros H0 u v Hu Hv. etrans; [|by apply H0].
    apply rtc_adjacent_sym. by apply H0.
Qed.

(** The traversal ends within [nNodes] rounds and its flag says whether the
    graph is connected. *)
Lemma checkConnected_spec g fuel :
  graph_ok g → (nNodes g ≤ fuel)%nat →
  ∃ b, checkConnected fuel g = Some (set_connected b g)
       ∧ (b = true ↔ connected_graph g).
Proof.
  intros Hg Hf. pose proof Hg as [Hn _ _ _].
  destruct (bfs_loop g fuel _ Hg (bfs_inv_init g Hg)) as (s' & Hw & Hinv & Hq).
  { simpl. lia. }
  exists (visitedCount s' =? nNodes g)%nat. split.
  - unfold checkConnected. rewrite Hw. done.
  - rewrite connected_from_0 by lia. rewrite Nat.eqb_eq.
    pose proof (bfs_count g s' Hinv) as Hc. rewrite Hq in Hc. simpl in Hc.
    rewrite Nat.add_0_r in Hc. rewrite Hc.
    pose proof (length_filter_all (marked s') (seq 0 (nNodes g))) as Hall.
    rewrite length_seq in Hall. rewrite Hall. clear Hall.
    split.
    + intros Hall v Hv. apply (bfs_sound g s' Hinv), Hall, elem_of_seq. lia.
    + intros Hr v Hv%elem_of_seq.
      specialize (Hr v ltac:(lia)). clear Hv. revert v Hr.
      apply rtc_ind_r.
      * apply (bfs_start g s' Hinv).
      * intros u w _ Huw IH.
        apply (bfs_closed g s' Hinv u w);
          [done|rewrite Hq; apply not_elem_of_nil|done].
Qed.

Local Open Scope nat_scope.

(** ** The permutation table *)

Lemma vec_insert_delete {A} `{!Inhabited A} (l : list A) i :
  i < length l → vec_insert i (l !!! i) (delete i l) = l.
Proof.
  intros Hi. unfold vec_insert. rewrite delete_take_drop.
  rewrite take_app_le by (rewrite length_take; lia).
  rewrite take_take, Nat.min_id.
  rewrite drop_app_ge by (rewrite length_take; lia).
  rewrite length_take, Nat.min_l, Nat.sub_diag, drop_0 by lia.
  apply take_drop_middle. by apply list_lookup_lookup_total_lt.
Qed.

Lemma elem_of_delete_NoDup {A} `{!Inhabited A} (l : list A) i x :
  NoDup l → i < length l →
  x ∈ delete i l ↔ x ∈ l ∧ x ≠ l !!! i.
Proof.
  intros Hnd Hi.
  pose proof (take_drop_middle l i (l !!! i)
                (list_lookup_lookup_total_lt _ _ Hi)) as Hl.
  rewrite <- Hl in Hnd. rewrite <- Hl at 2.
  rewrite delete_take_drop.
  apply NoDup_app in Hnd as (_ & Hd & [Hn _]%NoDup_cons).
  rewrite !elem_of_app, elem_of_cons. split.
  - intros [Hx|Hx]; (split; [tauto|]); intros ->.
    + apply (Hd _ Hx). by left.
    + done.
  - tauto.
Qed.

Lemma pool_insert m c l c' :
  pool (<[c := l]> m) c' = if decide (c = c') then l else pool m c'.
Proof.
  unfold pool. rewrite lookup_insert. by destruct (decide (c = c')).
Qed.

Lemma color_count_cons c x l :
  color_count c (x :: l)
  = (if decide (x = c) then 1 else 0) + color_count c l.
Proof. unfold color_count. rewrite filter_cons. by case_decide. Qed.

Lemma drop_lookup_cons {A} (l : list A) k x :
  l !! k = Some x → drop k l = x :: drop (S k) l.
Proof. intros H. by rewrite (drop_S _ _ _ H). Qed.

Section Level.
Context (nodes : list nat) (k : nat) (Hk : k < length nodes).
Context (imap0 : gmap nat (list nat)).
Context (Hpools : pools_ok nodes k imap0).

Local Abbreviation c := (nodes !!! k).
Local Abbreviation indices := (pool imap0 (nodes !!! k)).

Lemma indices_length :
  length indices = S (color_count c (drop (S k) nodes)).
Proof.
  rewrite (pools_size _ _ _ Hpools).
  rewrite (drop_lookup_cons nodes k c) by by apply list_lookup_lookup_total_lt.
  rewrite color_count_cons, decide_True by done. done.
Qed.

Lemma indices_key : imap0 !! c = Some indices.
Proof.
  destruct (pools_key _ _ _ Hpools c) as [l Hl].
  { apply list_elem_of_lookup. exists k. by apply list_lookup_lookup_total_lt. }
  unfold pool. by rewrite Hl.
Qed.

Lemma pools_ok_step t :
  t < length indices →
  pools_ok nodes (S k) (<[c := delete t indices]> imap0).
Proof.
  intros Ht. destruct Hpools as [Hnd Hcol Hsz Hkey]. split.
  - intros c'. rewrite pool_insert. case_decide; [|done].
    rewrite delete_take_drop. 
    pose proof (Hnd c) as Hn.
    rewrite <- (take_drop_middle indices t (indices !!! t)) in Hn
      by by apply list_lookup_lookup_total_lt.
    apply NoDup_app in Hn as (? & Hd & [_ ?]%NoDup_cons).
    apply NoDup_app. split_and!; [done| |done].
    intros x Hx Hx'. apply (Hd x Hx). by right.
  - intros c' x. rewrite pool_insert. case_decide; [|by apply Hcol].
    subst c'. intros Hx. apply Hcol.
    apply elem_of_delete_NoDup in Hx as [Hx _]; [done|apply Hnd|done].
  - intros c'. rewrite pool_insert.
    pose proof (Hsz c') as Hs.
    rewrite (drop_lookup_cons nodes k c) in Hs
      by by apply list_lookup_lookup_total_lt.
    rewrite color_count_cons in Hs.
    destruct (decide (c = c')) as [<-|Hc].
    + rewrite length_delete by by apply lookup_lt_is_Some_2.
      lia.
    + done.
  - intros c' Hc'. rewrite lookup_insert. case_decide; [done|].
    by apply Hkey.
Qed.

Lemma completes_step cur0 cur t p :
  length cur = length nodes → take k cur = take k cur0 →
  t < length indices →
  completes nodes (S k) (<[k := indices !!! t]> cur)
    (<[c := delete t indices]> imap0) p
  ↔ completes nodes k cur0 imap0 p ∧ p !!! k = indices !!! t.
Proof.
  intros Hlen Htk Ht. destruct Hpools as [Hnd Hcol Hsz Hkey].
  assert (∀ x, x ∈ indices → nodes !!! x = c) as Hcolc.
  { intros x Hx. by apply Hcol. }
  assert (indices !!! t ∈ indices) as Hin.
  { apply list_elem_of_lookup. exists t.
    by apply list_lookup_lookup_total_lt. }
  assert (∀ j x, x ∈ pool (<[c := delete t indices]> imap0) (nodes !!! j)
            ↔ x ∈ pool imap0 (nodes !!! j) ∧ x ≠ indices !!! t) as Hpool.
  { intros j x. rewrite pool_insert. case_decide as Hc.
    - rewrite <- Hc.
      apply elem_of_delete_NoDup; [apply Hnd|done].
    - split; [|tauto]. intros Hx. split; [done|]. intros ->.
      apply Hcol in Hx as [_ Hx]. rewrite Hcolc in Hx by done. done. }
  unfold completes. split.
  - intros (Hpl & Htake & Hndp & Hj).
    assert (p !!! k = indices !!! t) as Hpk.
    { apply list_lookup_total_correct.
      rewrite <- (lookup_take_lt p (S k) k) by lia. rewrite Htake.
      rewrite lookup_take_lt by lia.
      apply list_lookup_insert_eq. lia. }
    split; [|done]. split_and!; [done| | |].
    + rewrite <- Htk.
      rewrite <- (take_insert_ge cur k k (indices !!! t)) by lia.
      assert (∀ l : list nat, take k l = take k (take (S k) l)) as Htt.
      { intros l. rewrite take_take. f_equal. lia. }
      rewrite (Htt p), (Htt (<[k:=_]> cur)). by rewrite Htake.
    + rewrite (drop_lookup_cons p k (p !!! k))
        by (apply list_lookup_lookup_total_lt; lia).
      apply NoDup_cons. split; [|done].
      intros [j Hjx]%list_elem_of_lookup. rewrite lookup_drop in Hjx.
      assert (S k + j < length nodes) as Hjn.
      { apply lookup_lt_Some in Hjx. lia. }
      specialize (Hj (S k + j) ltac:(lia)).
      rewrite (list_lookup_total_correct _ _ _ Hjx) in Hj.
      apply Hpool in Hj as [_ Hne]. by rewrite Hpk in Hne.
    + intros j Hjr. destruct (decide (j = k)) as [->|Hne].
      * rewrite Hpk. done.
      * apply (Hpool j), Hj. lia.
  - intros [(Hpl & Htake & Hndp & Hj) Hpk].
    rewrite (drop_lookup_cons p k (p !!! k)) in Hndp
      by (apply list_lookup_lookup_total_lt; lia).
    apply NoDup_cons in Hndp as [Hnin Hndp].
    split_and!; [done| |done|].
    + rewrite (take_S_r p k (p !!! k))
        by (apply list_lookup_lookup_total_lt; lia).
      rewrite (take_S_r (<[k:=indices !!! t]> cur) k (indices !!! t))
        by (apply list_lookup_insert_eq; lia).
      rewrite take_insert_ge by lia. by rewrite Htake, Htk, Hpk.
    + intros j Hjr. apply Hpool. split; [apply Hj; lia|].
      intros Heq. apply Hnin. rewrite Hpk, <- Heq.
      apply list_elem_of_lookup. exists (j - S k). rewrite lookup_drop.
      replace (S k + (j - S k)) with j by lia.
      apply list_lookup_lookup_total_lt. lia.
Qed.

End Level.

Section Loop.
Context (nodes : list nat) (k : nat) (Hk : k < length nodes).
Context (cur0 : list nat) (imap0 : gmap nat (list nat)).
Context (Hlen0 : length cur0 = length nodes).
Context (Hpools : pools_ok nodes k imap0).
Context (rec : PermGen → option PermGen).
Context (Hrec : ∀ st,
  length (currentPermutation st) = length nodes →
  pools_ok nodes (S k) (indexMap st) →
  ∃ st', rec st = Some st' ∧ perm_post nodes (S k) st st').
Context (out0 : list (list nat)).

Local Abbreviation c := (nodes !!! k).
Local Abbreviation indices := (pool imap0 (nodes !!! k)).

Lemma perm_loop_spec fuel : ∀ i st,
  i ≤ length indices → length indices - i ≤ fuel →
  perm_loop_inv nodes k cur0 imap0 out0 i st →
  ∃ st', perm_loop rec k c fuel i st = Some st'
         ∧ perm_loop_inv nodes k cur0 imap0 out0 (length indices) st'.
Proof.
  pose proof (indices_key nodes k Hk imap0 Hpools) as Hkey.
  induction fuel as [|fuel IH]; intros i st Hi Hf Hinv.
  - assert (i = length indices) as -> by lia.
    exists st. split; [|done]. simpl.
    destruct Hinv as (-> & _). rewrite Hkey. simpl.
    by rewrite Nat.ltb_irrefl.
  - cbn [perm_loop]. pose proof Hinv as (Him & Hlen & Htk & L & Hout & HndL & HlenL & HL).
    rewrite Him, Hkey. cbn [mbind option_bind].
    destruct (Nat.ltb_spec i (length indices)) as [Hlt|Hge].
    2:{ assert (i = length indices) as -> by lia. by exists st. }
    set (st1 := mkPermGen (out_permutations st)
                  (<[k:=indices !!! i]> (currentPermutation st))
                  (<[c:=delete i indices]> imap0)).
    destruct (Hrec st1) as (st2 & Hr & Him2 & Hlen2 & Htk2 & L' & Hout2 & HndL' & HlenL' & HL').
    { cbn [st1 currentPermutation]. by rewrite length_insert. }
    { cbn [st1 indexMap]. by apply pools_ok_step. }
    rewrite Hr. cbn [mbind option_bind].
    rewrite Him2. cbn [st1 indexMap]. rewrite lookup_insert_eq.
    cbn [mbind option_bind].
    rewrite vec_insert_delete by done.
    rewrite insert_insert_eq, (insert_id imap0 c indices) by done.
    apply IH; [lia|lia|].
    assert (∀ p, p ∈ L' ↔
              completes nodes k cur0 imap0 p ∧ p !!! k = indices !!! i) as HL''.
    { intros p. rewrite HL'. cbn [st1 currentPermutation indexMap].
      by apply completes_step. }
    split_and!; cbn [indexMap currentPermutation out_permutations].
    + done.
    + done.
    + rewrite <- Htk. cbn [st1 currentPermutation] in Htk2.
      rewrite <- (take_insert_ge (currentPermutation st) k k (indices !!! i)) by lia.
      assert (∀ l : list nat, take k l = take k (take (S k) l)) as Htt.
      { intros l. rewrite take_take. f_equal. lia. }
      rewrite (Htt (currentPermutation st2)), (Htt (<[k:=_]> _)).
      by rewrite Htk2.
    + exists (L ++ L'). split_and!.
      * rewrite Hout2. cbn [st1 out_permutations]. rewrite Hout.
        by rewrite (assoc_L (++)).
      * apply NoDup_app. split_and!; [done| |done].
        intros p [_ (t & Ht & Hpt)]%HL [_ Hpi]%HL''.
        assert (t = i); [|lia].
        apply (NoDup_lookup indices t i (p !!! k)).
        -- apply (pools_nodup _ _ _ Hpools).
        -- rewrite Hpt. apply list_lookup_lookup_total_lt. lia.
        -- rewrite Hpi. by apply list_lookup_lookup_total_lt.
      * rewrite length_app, HlenL, HlenL'. lia.
      * intros p. rewrite elem_of_app, HL, HL''. split.
        -- intros [[? (t & ? & ?)]|[? ?]]; (split; [done|]).
           ++ exists t. split; [lia|done].
           ++ exists i. split; [lia|done].
        -- intros [? (t & Ht & ?)].
           destruct (decide (t = i)) as [->|]; [by right|left].
           split; [done|]. exists t. split; [lia|done].
Qed.

Lemma perm_loop_post st st' :
  st = mkPermGen out0 cur0 imap0 →
  perm_loop_inv nodes k cur0 imap0 out0 (length indices) st' →
  perm_post nodes k st st'.
Proof.
  intros -> (Him & Hlen & Htk & L & Hout & HndL & HlenL & HL).
  split_and!; [done..|]. exists L. split_and!; [done..| |].
  - rewrite HlenL.
    rewrite (indices_length nodes k Hk imap0 Hpools).
    rewrite (drop_lookup_cons nodes k (nodes !!! k))
      by by apply list_lookup_lookup_total_lt.
    done.
  - intros p. rewrite HL. cbn [currentPermutation indexMap].
    split; [tauto|]. intros Hc. split; [done|].
    destruct Hc as (_ & _ & _ & Hj). specialize (Hj k ltac:(lia)).
    apply list_elem_of_lookup in Hj as [t Ht]. exists t.
    split; [by eapply lookup_lt_Some|].
    symmetry. by apply list_lookup_total_correct.
Qed.

End Loop.

Lemma color_count_le c l : color_count c l ≤ length l.
Proof. apply length_filter. Qed.

(** A call at position [k] terminates, restores the index map and appends
    exactly the permutations that complete the current buffer. *)
Lemma generatePermutations_spec nodes fuel : ∀ k st,
  k ≤ length nodes → length nodes - k ≤ fuel →
  length (currentPermutation st) = length nodes →
  pools_ok nodes k (indexMap st) →
  ∃ st', generatePermutations fuel nodes k st = Some st'
         ∧ perm_post nodes k st st'.
Proof.
  assert (∀ fuel k st, k = length nodes →
    length (currentPermutation st) = length nodes →
    ∃ st', generatePermutations fuel nodes k st = Some st'
           ∧ perm_post nodes k st st') as Hbase.
  { intros f k st -> Hlen. eexists. split.
    - destruct f; simpl; by rewrite Nat.eqb_refl.
    - split_and!; [done..|]. exists [currentPermutation st].
      split_and!; [done|apply NoDup_singleton| |].
      + by rewrite drop_all.
      + intros p. rewrite list_elem_of_singleton. unfold completes. split.
        * intros ->. split_and!; [done|done| |intros; lia].
          rewrite drop_ge by lia. apply NoDup_nil_2.
        * intros (Hp & Ht & _). by rewrite !take_ge in Ht by lia. }
  induction fuel as [|fuel IH]; intros k st Hk Hf Hlen Hpools.
  - apply Hbase; [lia|done].
  - destruct (decide (k = length nodes)) as [->|Hne]; [by apply Hbase|].
    cbn [generatePermutations].
    rewrite (proj2 (Nat.eqb_neq _ _)) by done.
    assert (k < length nodes) as Hlt by lia.
    pose proof (indices_length nodes k Hlt _ Hpools) as Hil.
    pose proof (color_count_le (nodes !!! k) (drop (S k) nodes)) as Hcl.
    rewrite length_drop in Hcl.
    destruct (perm_loop_spec nodes k Hlt (currentPermutation st) (indexMap st)
                Hlen Hpools (generatePermutations fuel nodes (S k))
                ltac:(intros; apply IH; (done || lia))
                (out_permutations st) (length nodes) 0 st)
      as (st' & Hl & Hinv); [lia|lia| |].
    + split_and!; [done..|]. exists []. split_and!.
      * by rewrite app_nil_r.
      * apply NoDup_nil_2.
      * done.
      * intros p. split; [intros []%elem_of_nil|]. intros [_ (t & ? & _)]. lia.
    + exists st'. split; [done|].
      eapply perm_loop_post; [done..| |done]. by destruct st.
Qed.

(** The index map [generateEdges] builds: the pool of a color lists the
    indices of that color in increasing order. *)
Lemma indexMap_build nodes j :
  j ≤ length nodes →
  let m := fold_left
             (λ (indexMap : gmap nat (list nat)) i,
                <[nodes !!! i := default [] (indexMap !! (nodes !!! i)) ++ [i]]>
                  indexMap)
             (seq 0 j) ∅ in
  (∀ c, pool m c = filter (λ i, nodes !!! i = c) (seq 0 j))
  ∧ (∀ c, c ∈ take j nodes → is_Some (m !! c)).
Proof.
  induction j as [|j IH]; intros Hj; cbn zeta.
  - split; [done|]. intros c []%elem_of_nil.
  - rewrite seq_S, fold_left_app. cbn [fold_left]. cbn zeta in IH.
    destruct IH as [IHp IHk]; [lia|].
    set (m := fold_left _ (seq 0 j) ∅) in *.
    split.
    + intros c. rewrite pool_insert, filter_app, filter_cons, filter_nil.
      case_decide as Hc.
      * rewrite <- IHp, <- Hc. done.
      * rewrite app_nil_r. apply IHp.
    + intros c. rewrite (take_S_r nodes j (nodes !!! j))
        by (apply list_lookup_lookup_total_lt; lia).
      rewrite elem_of_app, list_elem_of_singleton, lookup_insert.
      intros [Hc| ->].
      * case_decide; [done|]. by apply IHk.
      * by rewrite decide_True.
Qed.

Lemma list_as_fmap_seq (l : list nat) :
  l = (λ i, l !!! i) <$> seq 0 (length l).
Proof.
  apply list_eq. intros i.
  rewrite list_lookup_fmap. destruct (decide (i < length l)).
  - rewrite lookup_seq_lt by done. simpl.
    by apply list_lookup_lookup_total_lt.
  - rewrite lookup_seq_ge by lia. simpl. apply lookup_ge_None. lia.
Qed.

Lemma color_count_seq nodes c :
  length (filter (λ i, nodes !!! i = c) (seq 0 (length nodes)))
  = color_count c nodes.
Proof.
  unfold color_count.
  transitivity (length (filter (λ x, x = c)
                  ((λ i, nodes !!! i) <$> seq 0 (length nodes)))).
  - by rewrite filter_fmap', length_fmap.
  - by rewrite <- list_as_fmap_seq.
Qed.

Lemma pools_ok_init nodes :
  pools_ok nodes 0
    (fold_left
       (λ (indexMap : gmap nat (list nat)) i,
          <[nodes !!! i := default [] (indexMap !! (nodes !!! i)) ++ [i]]>
            indexMap)
       (seq 0 (length nodes)) ∅).
Proof.
  destruct (indexMap_build nodes (length nodes)) as [Hp Hk]; [done|].
  split.
  - intros c. rewrite Hp. apply NoDup_filter, NoDup_seq.
  - intros c x. rewrite Hp, list_elem_of_filter, elem_of_seq. lia.
  - intros c. rewrite Hp, drop_0. apply color_count_seq.
  - intros c Hc. apply Hk. by rewrite take_ge.
Qed.

Lemma NoDup_bounded_Permutation (p : list nat) n :
  NoDup p → length p = n → (∀ x, x ∈ p → x < n) → p ≡ₚ seq 0 n.
Proof.
  intros Hnd Hlen Hb. apply submseteq_length_Permutation.
  - apply NoDup_submseteq; [done|]. intros x Hx. apply elem_of_seq.
    specialize (Hb x Hx). lia.
  - rewrite length_seq. lia.
Qed.

Lemma completes_color_perm nodes cur p :
  completes nodes 0 cur
    (fold_left
       (λ (indexMap : gmap nat (list nat)) i,
          <[nodes !!! i := default [] (indexMap !! (nodes !!! i)) ++ [i]]>
            indexMap)
       (seq 0 (length nodes)) ∅) p
  ↔ color_perm nodes p.
Proof.
  destruct (indexMap_build nodes (length nodes)) as [Hp _]; [done|].
  unfold completes, color_perm. rewrite drop_0. split.
  - intros (Hlen & _ & Hnd & Hj).
    assert (∀ j, j < length nodes →
              p !!! j < length nodes ∧ nodes !!! (p !!! j) = nodes !!! j) as Hj'.
    { intros j Hjn. specialize (Hj j ltac:(lia)).
      rewrite Hp, list_elem_of_filter, elem_of_seq in Hj. lia. }
    split; [|intros; by apply Hj'].
    apply NoDup_bounded_Permutation; [done..|].
    intros x [j Hx]%list_elem_of_lookup.
    pose proof (lookup_lt_Some _ _ _ Hx).
    rewrite <- (list_lookup_total_correct _ _ _ Hx). apply Hj'. lia.
  - intros [Hperm Hcol].
    assert (length p = length nodes) as Hlen.
    { by rewrite Hperm, length_seq. }
    split_and!; [done|done| |].
    + rewrite Hperm. apply NoDup_seq.
    + intros j Hj. rewrite Hp, list_elem_of_filter, elem_of_seq.
      split; [apply Hcol; lia|].
      assert (p !!! j ∈ seq 0 (length nodes)) as Hin%elem_of_seq; [|lia].
      rewrite <- Hperm. apply list_elem_of_lookup. exists j.
      apply list_lookup_lookup_total_lt. lia.
Qed.

(** ** The size of the table *)

Lemma prod_fact_bump (g : nat → nat) c (D : list nat) :
  NoDup D → c ∈ D →
  foldr Nat.mul 1 ((λ c', fact ((if decide (c = c') then 1 else 0) + g c')) <$> D)
  = S (g c) * foldr Nat.mul 1 ((λ c', fact (g c')) <$> D).
Proof.
  induction 1 as [|d D Hd Hnd IH]; [intros []%elem_of_nil|].
  rewrite !fmap_cons. cbn [foldr].
  intros [->|Hc]%elem_of_cons.
  - rewrite decide_True by done.
    assert ((λ c', fact ((if decide (d = c') then 1 else 0) + g c')) <$> D
            = (λ c', fact (g c')) <$> D) as ->.
    { apply list_fmap_ext. intros i c' Hc'%list_elem_of_lookup_2.
      rewrite decide_False; [done|]. by intros ->. }
    change (fact (1 + g d)) with (S (g d) * fact (g d)). lia.
  - rewrite IH by done. rewrite decide_False by (by intros ->).
    cbn [Nat.add]. lia.
Qed.

Lemma factorial_product_cons c l :
  factorial_product (c :: l) = S (color_count c l) * factorial_product l.
Proof.
  unfold factorial_product. 
  assert (∀ D : list nat, (λ c', fact (color_count c' (c :: l))) <$> D
          = (λ c', fact ((if decide (c = c') then 1 else 0) + color_count c' l))
              <$> D) as Hcc.
  { intros D. apply list_fmap_ext. intros _ c' _. by rewrite color_count_cons. }
  rewrite Hcc. cbn [remove_dups].
  destruct (decide_rel elem_of c l) as [Hin|Hnin].
  - apply prod_fact_bump; [apply NoDup_remove_dups|by apply elem_of_remove_dups].
  - rewrite fmap_cons. cbn [foldr]. rewrite decide_True by done.
    assert (color_count c l = 0) as ->.
    { unfold color_count. rewrite filter_none; [done|].
      intros x Hx Heq. apply Hnin. by rewrite <- Heq. }
    assert ((λ c', fact ((if decide (c = c') then 1 else 0) + color_count c' l))
              <$> remove_dups l
            = (λ c', fact (color_count c' l)) <$> remove_dups l) as ->.
    { apply list_fmap_ext. intros _ c' Hc'%list_elem_of_lookup_2.
      rewrite elem_of_remove_dups in Hc'.
      rewrite decide_False; [done|]. intros ->. by apply Hnin. }
    simpl. lia.
Qed.

Lemma choices_factorial_product nodes : choices nodes = factorial_product nodes.
Proof.
  induction nodes as [|c l IH]; [done|].
  by rewrite factorial_product_cons, <- IH.
Qed.

(** The table is produced within [length nodes] levels of recursion and
    holds exactly the color-preserving permutations. *)
Lemma permutationTable_members nodes fuel :
  length nodes ≤ fuel →
  ∃ table, permutationTable fuel nodes = Some table
           ∧ ∀ p, p ∈ table ↔ color_perm nodes p.
Proof.
  intros Hf. unfold permutationTable.
  set (imap := fold_left _ (seq 0 (length nodes)) ∅).
  destruct (generatePermutations_spec nodes fuel 0
              (mkPermGen [] (replicate (length nodes) 0) imap))
    as (st' & Hg & _ & _ & _ & L & Hout & _ & _ & HL).
  - lia.
  - lia.
  - simpl. by rewrite length_replicate.
  - apply pools_ok_init.
  - rewrite Hg. simpl. simpl in Hout. rewrite Hout. exists L.
    split; [done|]. intros p. rewrite HL. apply completes_color_perm.
Qed.

(** ** The permutations form a group *)

Lemma color_perm_length nodes p : color_perm nodes p → length p = length nodes.
Proof. intros [Hp _]. by rewrite Hp, length_seq. Qed.

Lemma color_perm_lt nodes p i :
  color_perm nodes p → i < length nodes → p !!! i < length nodes.
Proof.
  intros Hc Hi. pose proof (color_perm_length _ _ Hc) as Hl.
  destruct Hc as [Hp _].
  assert (p !!! i ∈ seq 0 (length nodes)) as Hin%elem_of_seq; [|lia].
  rewrite <- Hp. apply list_elem_of_lookup. exists i.
  apply list_lookup_lookup_total_lt. lia.
Qed.

Lemma color_perm_inj nodes p i j :
  color_perm nodes p → i < length nodes → j < length nodes →
  p !!! i = p !!! j → i = j.
Proof.
  intros Hc Hi Hj Heq. pose proof (color_perm_length _ _ Hc) as Hl.
  destruct Hc as [Hp _].
  assert (NoDup p) as Hnd by (rewrite Hp; apply NoDup_seq).
  apply (NoDup_lookup p i j (p !!! i) Hnd).
  - apply list_lookup_lookup_total_lt. lia.
  - rewrite Heq. apply list_lookup_lookup_total_lt. lia.
Qed.

Lemma color_perm_id nodes : color_perm nodes (seq 0 (length nodes)).
Proof.
  split; [done|]. intros i Hi. by rewrite lookup_total_seq_lt.
Qed.

Lemma perm_inv_length p : length (perm_inv p) = length p.
Proof. unfold perm_inv. by rewrite length_fmap, length_seq. Qed.

Lemma perm_inv_lookup p v :
  v < length p →
  perm_inv p !!! v = default 0 (fst <$> list_find (λ x, x = v) p).
Proof.
  intros Hv. unfold perm_inv. apply list_lookup_total_correct.
  rewrite list_lookup_fmap, lookup_seq_lt by done. done.
Qed.

Lemma perm_inv_r nodes p v :
  color_perm nodes p → v < length nodes →
  perm_inv p !!! v < length nodes ∧ p !!! (perm_inv p !!! v) = v.
Proof.
  intros Hc Hv. pose proof (color_perm_length _ _ Hc) as Hl.
  destruct Hc as [Hp _].
  rewrite perm_inv_lookup by lia.
  assert (v ∈ p) as Hin by (rewrite Hp; apply elem_of_seq; lia).
  destruct (list_find_elem_of (λ x, x = v) p v Hin eq_refl) as [[i x] Hf].
  rewrite Hf. simpl.
  apply list_find_Some in Hf as (Hi & -> & _).
  split; [apply lookup_lt_Some in Hi; lia|].
  by apply list_lookup_total_correct.
Qed.

Lemma perm_inv_l nodes p i :
  color_perm nodes p → i < length nodes → perm_inv p !!! (p !!! i) = i.
Proof.
  intros Hc Hi.
  pose proof (color_perm_lt _ _ i Hc Hi) as Hpi.
  destruct (perm_inv_r nodes p (p !!! i) Hc Hpi) as [Hlt Heq].
  by apply (color_perm_inj nodes p).
Qed.

Lemma color_perm_inv nodes p : color_perm nodes p → color_perm nodes (perm_inv p).
Proof.
  intros Hc. pose proof (color_perm_length _ _ Hc) as Hl. split.
  - apply NoDup_bounded_Permutation.
    + apply NoDup_alt. intros i j x Hi Hj.
      pose proof (lookup_lt_Some _ _ _ Hi) as Hil.
      pose proof (lookup_lt_Some _ _ _ Hj) as Hjl.
      rewrite perm_inv_length in Hil, Hjl.
      apply list_lookup_total_correct in Hi, Hj.
      destruct (perm_inv_r nodes p i Hc) as [_ Hi']; [lia|].
      destruct (perm_inv_r nodes p j Hc) as [_ Hj']; [lia|].
      rewrite Hi in Hi'. rewrite Hj in Hj'. congruence.
    + by rewrite perm_inv_length.
    + intros x [i Hx]%list_elem_of_lookup.
      pose proof (lookup_lt_Some _ _ _ Hx) as Hil.
      rewrite perm_inv_length in Hil.
      apply list_lookup_total_correct in Hx. subst x.
      apply (perm_inv_r nodes p i Hc). lia.
  - intros v Hv. destruct (perm_inv_r nodes p v Hc Hv) as [Hlt Heq].
    destruct Hc as [_ Hcol]. rewrite <- (Hcol _ Hlt). by rewrite Heq.
Qed.

Lemma perm_comp_lookup nodes p q i :
  color_perm nodes p → i < length nodes →
  perm_comp p q !!! i = q !!! (p !!! i).
Proof.
  intros Hc Hi. pose proof (color_perm_length _ _ Hc) as Hl.
  unfold perm_comp. apply list_lookup_total_correct.
  rewrite list_lookup_fmap, lookup_seq_lt by lia. done.
Qed.

Lemma color_perm_comp nodes p q :
  color_perm nodes p → color_perm nodes q → color_perm nodes (perm_comp p q).
Proof.
  intros Hp Hq. pose proof (color_perm_length _ _ Hp) as Hl.
  assert (length (perm_comp p q) = length nodes) as Hlc.
  { unfold perm_comp. by rewrite length_fmap, length_seq. }
  split.
  - apply NoDup_bounded_Permutation; [|done|].
    + apply NoDup_alt. intros i j x Hi Hj.
      pose proof (lookup_lt_Some _ _ _ Hi) as Hil.
      pose proof (lookup_lt_Some _ _ _ Hj) as Hjl.
      apply list_lookup_total_correct in Hi, Hj.
      rewrite (perm_comp_lookup nodes) in Hi, Hj by (done || lia).
      apply (color_perm_inj nodes p); [done|lia|lia|].
      apply (color_perm_inj nodes q);
        [done|apply color_perm_lt; (done || lia)..|congruence].
    + intros x [i Hx]%list_elem_of_lookup.
      pose proof (lookup_lt_Some _ _ _ Hx) as Hil.
      apply list_lookup_total_correct in Hx. subst x.
      rewrite (perm_comp_lookup nodes) by (done || lia).
      apply color_perm_lt; [done|]. apply color_perm_lt; (done || lia).
  - intros i Hi. rewrite (perm_comp_lookup nodes) by done.
    pose proof Hp as [_ Hpc]. pose proof Hq as [_ Hqc].
    rewrite Hqc by by apply color_perm_lt.
    by apply Hpc.
Qed.

(** ** The isomorphism test *)

Lemma perm_matches_spec g h p :
  perm_matches g h p = true ↔
  ∀ i j, i < j < nNodes g → isEdge g i j = isEdge h (p !!! i) (p !!! j).
Proof.
  unfold perm_matches. rewrite forallb_forall. split.
  - intros H i j Hij.
    specialize (H i ltac:(apply list_elem_of_In, elem_of_seq; lia)).
    rewrite forallb_forall in H.
    specialize (H j ltac:(apply list_elem_of_In, elem_of_seq; lia)).
    by apply eqb_prop in H.
  - intros H i Hi%list_elem_of_In%elem_of_seq. rewrite forallb_forall.
    intros j Hj%list_elem_of_In%elem_of_seq.
    rewrite H by lia. apply eqb_reflx.
Qed.

Lemma Graph_eq_spec g h :
  Graph_eq g h = true ↔
  representation g = representation h
  ∧ ∃ p, p ∈ permutations g ∧ perm_matches g h p = true.
Proof.
  unfold Graph_eq. destruct (decide (representation g = representation h)) as [Hr|Hr].
  - rewrite bool_decide_eq_true_2 by done. simpl.
    rewrite existsb_exists. setoid_rewrite list_elem_of_In. tauto.
  - rewrite bool_decide_eq_false_2 by done. simpl. split; [done|tauto].
Qed.

(** On graphs of one call the permutation search decides isomorphism. *)
Lemma perm_matches_isomorphic nodes table g h :
  (∀ p, p ∈ table ↔ color_perm nodes p) →
  in_context nodes table g → in_context nodes table h →
  (∃ p, p ∈ permutations g ∧ perm_matches g h p = true)
  ↔ isomorphic nodes g h.
Proof.
  intros Htab [Hng Hg Hpg] [Hnh Hh Hph]. unfold isomorphic. split.
  - intros (p & Hp & Hm). rewrite Hpg in Hp. apply Htab in Hp.
    exists p. split; [done|]. rewrite perm_matches_spec in Hm.
    intros i j Hi Hj. destruct (lt_eq_lt_dec i j) as [[Hlt| ->]|Hgt].
    + apply Hm. lia.
    + by rewrite !isEdge_irrefl.
    + rewrite isEdge_sym, (isEdge_sym h). apply Hm. lia.
  - intros (p & Hp & Hm). exists p. rewrite Hpg. split; [by apply Htab|].
    apply perm_matches_spec. intros i j Hij. apply Hm; lia.
Qed.

Lemma isomorphic_refl nodes g : isomorphic nodes g g.
Proof.
  exists (seq 0 (length nodes)). split; [apply color_perm_id|].
  intros i j Hi Hj. by rewrite !lookup_total_seq_lt.
Qed.

Lemma isomorphic_sym nodes g h : isomorphic nodes g h → isomorphic nodes h g.
Proof.
  intros (p & Hp & Hm). exists (perm_inv p).
  split; [by apply color_perm_inv|]. intros i j Hi Hj.
  destruct (perm_inv_r nodes p i Hp Hi) as [Hi' Hie].
  destruct (perm_inv_r nodes p j Hp Hj) as [Hj' Hje].
  rewrite (Hm _ _ Hi' Hj'). by rewrite Hie, Hje.
Qed.

Lemma isomorphic_trans nodes g h k :
  isomorphic nodes g h → isomorphic nodes h k → isomorphic nodes g k.
Proof.
  intros (p & Hp & Hm) (q & Hq & Hm'). exists (perm_comp p q).
  split; [by apply color_perm_comp|]. intros i j Hi Hj.
  rewrite !(perm_comp_lookup nodes) by done.
  rewrite Hm by done. apply Hm'; by apply color_perm_lt.
Qed.

Local Open Scope nat_scope.

(** ** Colorings *)

Lemma valid_coloring_mono nodes i j a b :
  valid_coloring nodes → i ≤ j →
  nodes !! i = Some a → nodes !! j = Some b → a ≤ b.
Proof.
  intros [_ Hs] Hij Ha. revert b. induction Hij as [|j Hij IH]; intros b Hb.
  - by simplify_eq.
  - destruct (nodes !! j) as [c|] eqn:Hc.
    + specialize (IH c eq_refl). destruct (Hs j c b Hc Hb); lia.
    + apply lookup_ge_None in Hc. apply lookup_lt_Some in Hb. lia.
Qed.

Lemma valid_coloring_nonempty nodes : valid_coloring nodes → 0 < length nodes.
Proof. intros [H0 _]. by apply lookup_lt_Some in H0. Qed.

Lemma valid_coloring_le_last nodes i :
  valid_coloring nodes → i < length nodes →
  nodes !!! i ≤ nodes !!! (length nodes - 1).
Proof.
  intros Hv Hi. apply (valid_coloring_mono nodes i (length nodes - 1));
    [done|lia|apply list_lookup_lookup_total_lt; lia..].
Qed.

Lemma list_max_le_iff l m : list_max l ≤ m ↔ ∀ x, x ∈ l → x ≤ m.
Proof.
  induction l as [|y l IH]; simpl.
  - split; [intros _ x []%elem_of_nil|lia].
  - rewrite Nat.max_lub_iff, IH. split.
    + intros [? H] x [->|?]%elem_of_cons; [done|by apply H].
    + intros H. split; [apply H; by left|]. intros x Hx. apply H. by right.
Qed.

Lemma list_max_elem l : l ≠ [] → list_max l ∈ l.
Proof.
  induction l as [|y l IH]; [done|]. intros _. simpl.
  destruct l as [|z l'].
  - simpl. rewrite Nat.max_0_r. by left.
  - destruct (Nat.max_spec y (list_max (z :: l'))) as [[_ ->]|[_ ->]].
    + right. by apply IH.
    + by left.
Qed.

Lemma valid_coloring_list_max nodes :
  valid_coloring nodes → list_max nodes = nodes !!! (length nodes - 1).
Proof.
  intros Hv. pose proof (valid_coloring_nonempty _ Hv) as Hn.
  apply Nat.le_antisymm.
  - apply list_max_le_iff. intros x [i Hx]%list_elem_of_lookup.
    rewrite <- (list_lookup_total_correct _ _ _ Hx).
    apply valid_coloring_le_last; [done|]. by eapply lookup_lt_Some.
  - assert (nodes !!! (length nodes - 1) ∈ nodes) as Hin.
    { apply list_elem_of_lookup. exists (length nodes - 1).
      apply list_lookup_lookup_total_lt. lia. }
    revert Hin. generalize (nodes !!! (length nodes - 1)).
    by apply list_max_le_iff.
Qed.

(** ** Loops of [calculateRepresentation] *)

Lemma fold_left_bind_flat {A B C} (f : C → B → C) (h : A → list B) (l : list A) :
  ∀ acc, fold_left f (l ≫= h) acc
         = fold_left (λ acc x, fold_left f (h x) acc) l acc.
Proof.
  induction l as [|x l IH]; intros acc; [done|].
  rewrite bind_cons, fold_left_app. apply IH.
Qed.

Lemma fold_left_fmap {A B C} (f : C → B → C) (g : A → B) (l : list A) :
  ∀ acc, fold_left f (g <$> l) acc = fold_left (λ acc x, f acc (g x)) l acc.
Proof. induction l as [|x l IH]; intros acc; [done|]. apply IH. Qed.

Lemma fold_left_ext_elem {A C} (f f' : C → A → C) (l : list A) :
  (∀ acc x, x ∈ l → f acc x = f' acc x) →
  ∀ acc, fold_left f l acc = fold_left f' l acc.
Proof.
  induction l as [|x l IH]; intros Hf acc; [done|]. simpl.
  rewrite Hf by by left. apply IH. intros; apply Hf. by right.
Qed.

Lemma fold_left_filter {A C} (P : A → bool) (f : C → A → C) (l : list A) :
  ∀ acc, fold_left (λ acc x, if P x then f acc x else acc) l acc
         = fold_left f (filter (λ x, P x = true) l) acc.
Proof.
  induction l as [|x l IH]; intros acc; [done|].
  rewrite filter_cons. cbn [fold_left]. rewrite IH.
  destruct (P x) eqn:HP.
  - by rewrite decide_True.
  - by rewrite decide_False.
Qed.

(** The buckets of degrees. *)
Lemma degrees_buckets (colors : list nat) (d : nat → Z) m j :
  j ≤ length colors →
  (∀ i, i < length colors → colors !!! i < m) →
  fold_left
    (λ (dl : list (list Z)) i,
       <[colors !!! i := dl !!! (colors !!! i) ++ [d i]]> dl)
    (seq 0 j) (replicate m [])
  = (λ c, d <$> filter (λ i, colors !!! i = c) (seq 0 j)) <$> seq 0 m.
Proof.
  intros Hj Hm. induction j as [|j IH].
  - simpl. apply list_eq. intros c. rewrite list_lookup_fmap.
    destruct (decide (c < m)).
    + rewrite lookup_replicate_2, lookup_seq_lt by done. done.
    + rewrite (proj1 (lookup_replicate_None _ _ _)), lookup_seq_ge by lia. done.
  - rewrite seq_S, fold_left_app. cbn [fold_left]. rewrite IH by lia.
    clear IH. rewrite Nat.add_0_l.
    assert (colors !!! j < m) as Hc by (apply Hm; lia).
    apply list_eq. intros c. rewrite list_lookup_fmap.
    destruct (decide (c < m)) as [Hcm|Hcm].
    2:{ rewrite list_lookup_insert_ne by lia.
        rewrite list_lookup_fmap, lookup_seq_ge by lia. done. }
    rewrite lookup_seq_lt by done. cbn [fmap option_fmap option_map Nat.add].
    rewrite filter_app, fmap_app, filter_cons, filter_nil.
    destruct (decide (colors !!! j = c)) as [<-|Hne].
    + rewrite list_lookup_insert_eq by (rewrite length_fmap, length_seq; lia).
      f_equal. f_equal. apply list_lookup_total_correct.
      rewrite list_lookup_fmap, lookup_seq_lt by done. done.
    + rewrite list_lookup_insert_ne by done.
      rewrite list_lookup_fmap, lookup_seq_lt by done.
      cbn [fmap option_fmap option_map Nat.add].
      by rewrite fmap_nil, app_nil_r.
Qed.

Lemma fold_left_snoc_fmap {A B} (f : A → B) (l : list A) (acc : list B) :
  fold_left (λ acc x, acc ++ [f x]) l acc = acc ++ (f <$> l).
Proof.
  revert acc. induction l as [|x l IH]; intros acc; cbn [fold_left].
  - by rewrite fmap_nil, app_nil_r.
  - by rewrite IH, fmap_cons, <- (assoc_L (++)).
Qed.

(** The matrix of edge counts. *)
Lemma incr2_spec m (a : list (list Z)) i j :
  square m a → i < m → j < m →
  square m (incr2 a i j)
  ∧ ∀ x y, x < m → y < m →
      (incr2 a i j !!! x) !!! y
      = ((a !!! x) !!! y + if decide ((i, j) = (x, y)) then 1 else 0)%Z.
Proof.
  intros [Hl Hr] Hi Hj. unfold incr2. split.
  - split; [by rewrite length_insert|]. intros x Hx.
    destruct (decide (i = x)) as [->|Hne].
    + rewrite list_lookup_total_insert_eq by lia.
      rewrite length_insert. by apply Hr.
    + rewrite list_lookup_total_insert_ne by done. by apply Hr.
  - intros x y Hx Hy. destruct (decide (i = x)) as [->|Hne].
    + rewrite list_lookup_total_insert_eq by lia.
      destruct (decide (j = y)) as [->|Hne'].
      * rewrite list_lookup_total_insert_eq by (rewrite Hr; lia).
        by rewrite decide_True.
      * rewrite list_lookup_total_insert_ne by done.
        rewrite decide_False by congruence. lia.
    + rewrite list_lookup_total_insert_ne by done.
      rewrite decide_False by congruence. lia.
Qed.

Lemma square_replicate m : square m (replicate m (replicate m 0%Z)).
Proof.
  split; [by rewrite length_replicate|]. intros i Hi.
  rewrite lookup_total_replicate_2 by done. by rewrite length_replicate.
Qed.

Lemma edge_counts m (ec : nat * nat → nat * nat) (E : list (nat * nat)) :
  (∀ e, e ∈ E → (ec e).1 < m ∧ (ec e).2 < m) →
  ∀ a0, square m a0 →
  let a := fold_left (λ el e, incr2 el (ec e).1 (ec e).2) E a0 in
  square m a
  ∧ ∀ x y, x < m → y < m →
      (a !!! x) !!! y
      = ((a0 !!! x) !!! y
         + Z.of_nat (length (filter (λ e, ec e = (x, y)) E)))%Z.
Proof.
  induction E as [|e E IH]; intros HE a0 Ha0; cbn [fold_left].
  - split; [done|]. intros. rewrite filter_nil. simpl. lia.
  - destruct (HE e ltac:(left)) as [H1 H2].
    destruct (incr2_spec m a0 _ _ Ha0 H1 H2) as [Hsq Hv].
    destruct (IH ltac:(intros; apply HE; by right) _ Hsq) as [Hsq' Hv'].
    split; [done|]. intros x y Hx Hy. rewrite Hv', Hv by done.
    rewrite filter_cons. destruct (ec e) as [u v] eqn:Hec. simpl.
    destruct (decide ((u, v) = (x, y))); simpl; lia.
Qed.

Section Counter.
Context (g : Graph) (Hn : 2 ≤ nNodes g ≤ 11).

Lemma pairs_index L1 p L2 :
  pairs (nNodes g) = L1 ++ p :: L2 →
  upperTriuIndex p.1 p.2 (nNodes g) = length L1.
Proof using Hn.
  intros Hp. destruct (tables_parts _ Hn) as (Hidx & _).
  assert (((λ p, upperTriuIndex p.1 p.2 (nNodes g)) <$> pairs (nNodes g))
            !! length L1 = Some (upperTriuIndex p.1 p.2 (nNodes g))) as Hl.
  { rewrite list_lookup_fmap, Hp, list_lookup_middle by done. done. }
  rewrite Hidx in Hl. apply lookup_seq in Hl. lia.
Qed.

Lemma counter_fold L2 : ∀ L1 el,
  pairs (nNodes g) = L1 ++ L2 →
  fold_left (λ st p, edgeList_step g p.1 st p.2) L2 (el, length L1)
  = (fold_left
       (λ el p, if isEdge g p.1 p.2
                then incr2 el (edge_colors (nodes g) p).1
                              (edge_colors (nodes g) p).2
                else el) L2 el,
     length (pairs (nNodes g))).
Proof using Hn.
  induction L2 as [|p L2 IH]; intros L1 el Hp.
  - simpl. by rewrite Hp, app_nil_r.
  - cbn [fold_left].
    assert (edgeList_step g p.1 (el, length L1) p.2
            = (if isEdge g p.1 p.2
               then incr2 el (edge_colors (nodes g) p).1
                             (edge_colors (nodes g) p).2
               else el, length (L1 ++ [p]))) as ->.
    { unfold edgeList_step. rewrite length_app. f_equal; [|simpl; lia].
      assert (p ∈ pairs (nNodes g)) as Hin.
      { rewrite Hp. apply elem_of_app. right. by left. }
      destruct p as [i j]. apply elem_of_pairs in Hin. cbn [fst snd].
      unfold isEdge. rewrite (proj2 (Nat.eqb_neq i j)) by lia.
      pose proof (pairs_index L1 (i, j) L2 Hp) as Hidx.
      cbn [fst snd] in Hidx. rewrite Hidx.
      destruct (negb _); [|done]. unfold edge_colors. cbn [fst snd].
      destruct (Nat.ltb_spec (nodes g !!! j) (nodes g !!! i)); cbn [fst snd];
        f_equal; lia. }
    apply IH. by rewrite <- (assoc_L (++)).
Qed.

(** The matrix the counting loop leaves: one increment per edge, at the
    colors of its endpoints. *)
Lemma edgeList_fold :
  edgeList g
  = fold_left (λ el e, incr2 el (edge_colors (nodes g) e).1
                                (edge_colors (nodes g) e).2)
      (getEdges g) (replicate (maxNode g) (replicate (maxNode g) 0%Z)).
Proof using Hn.
  unfold edgeList.
  rewrite (fold_left_ext_elem _
    (λ st i, fold_left (λ st p, edgeList_step g p.1 st p.2)
               ((λ j, (i, j)) <$> seq (i + 1) (nNodes g - (i + 1))) st)).
  2:{ intros st i _. by rewrite fold_left_fmap. }
  rewrite <- (fold_left_bind_flat (λ st p, edgeList_step g p.1 st p.2)
                (λ i, (λ j, (i, j)) <$> seq (i + 1) (nNodes g - (i + 1)))).
  change (seq 0 (nNodes g) ≫= _) with (pairs (nNodes g)).
  rewrite (counter_fold (pairs (nNodes g)) [] _ eq_refl). cbn [fst].
  rewrite (fold_left_filter (λ p, isEdge g p.1 p.2)
             (λ el e, incr2 el (edge_colors (nodes g) e).1
                               (edge_colors (nodes g) e).2)).
  by rewrite getEdges_filter.
Qed.

End Counter.

Lemma bitpos_pairs_Permutation n :
  2 ≤ n ≤ 11 →
  (λ p, bitpos n p.1 p.2) <$> pairs n ≡ₚ seqZ 0 (Z.of_nat (triuSize n)).
Proof.
  intros Hn. apply NoDup_Permutation.
  - apply NoDup_fmap_2_strong; [|apply NoDup_pairs].
    intros [i j] [i' j'] Hp%elem_of_pairs Hp'%elem_of_pairs Heq.
    unfold bitpos in Heq. cbn [fst snd] in Heq.
    apply (upperTriuIndex_inj n Hn); [done..|lia].
  - apply NoDup_seqZ.
  - intros b. rewrite list_elem_of_fmap, elem_of_seqZ. split.
    + intros ([i j] & -> & Hp%elem_of_pairs). cbn [fst snd].
      pose proof (bitpos_range n Hn i j Hp). lia.
    + intros Hb.
      destruct (upperTriuIndex_surj n Hn (triuSize n - 1 - Z.to_nat b))
        as (i & j & Hij & Hidx); [lia|].
      exists (i, j). split; [|by apply elem_of_pairs].
      unfold bitpos. cbn [fst snd]. rewrite Hidx. lia.
Qed.

(** The population count of the adjacency word is the number of edges. *)
Lemma popcountll_edges g :
  graph_ok g →
  popcountll (adjacencyTriu g) = Z.of_nat (length (getEdges g)).
Proof.
  intros Hg. pose proof Hg as [Hn _ _ Ha].
  rewrite (popcountll_testbits (triuSize (nNodes g))) by done. f_equal.
  rewrite getEdges_filter.
  rewrite (filter_ext_elem (λ p, isEdge g p.1 p.2 = true)
             (λ p, Z.testbit (adjacencyTriu g) (bitpos (nNodes g) p.1 p.2) = true)).
  2:{ intros [i j] Hp%elem_of_pairs. cbn [fst snd].
      rewrite isEdge_testbit by (done || lia). done. }
  symmetry.
  transitivity (length (filter (λ b, Z.testbit (adjacencyTriu g) b = true)
                  ((λ p, bitpos (nNodes g) p.1 p.2) <$> pairs (nNodes g)))).
  - by rewrite filter_fmap', length_fmap.
  - apply Permutation_length.
    apply (filter_Permutation (λ b, Z.testbit (adjacencyTriu g) b = true)).
    by apply bitpos_pairs_Permutation.
Qed.

Lemma bind_fmap_list {A B C} (f : A → B) (h : B → list C) (l : list A) :
  (f <$> l) ≫= h = l ≫= (λ x, h (f x)).
Proof.
  induction l as [|x l IH]; [done|]. by rewrite fmap_cons, !bind_cons, IH.
Qed.

Lemma edge_colors_bound g e :
  nNodes g = length (nodes g) → valid_coloring (nodes g) →
  e ∈ getEdges g →
  (edge_colors (nodes g) e).1 < maxNode g
  ∧ (edge_colors (nodes g) e).2 < maxNode g.
Proof.
  intros Hlen Hv He. destruct e as [i j].
  apply elem_of_getEdges in He as [Hij _].
  unfold edge_colors, maxNode. cbn [fst snd]. rewrite Hlen.
  pose proof (valid_coloring_le_last (nodes g) i Hv ltac:(lia)).
  pose proof (valid_coloring_le_last (nodes g) j Hv ltac:(lia)).
  lia.
Qed.

(** The representation is the invariant vector of the design document. *)
Lemma calculateRepresentation_spec g :
  graph_ok g → nNodes g = length (nodes g) → valid_coloring (nodes g) →
  calculateRepresentation g
  = set_representation (representation g ++ invariant_vector g) g.
Proof.
  intros Hg Hlen Hv. pose proof Hg as [Hn _ _ _].
  unfold calculateRepresentation. f_equal.
  assert (maxNode g = S (list_max (nodes g))) as Hmax.
  { unfold maxNode. by rewrite valid_coloring_list_max, Hlen. }
  (* 3. *)
  rewrite (fold_left_bind _
             (λ i, (λ j, (edgeList g !!! i) !!! j) <$> seq i (maxNode g - i))).
  2:{ intros acc i. apply fold_left_snoc_fmap. }
  (* 2. *)
  rewrite (fold_left_bind _ sort) by done.
  unfold invariant_vector. rewrite <- !(assoc_L (++)). f_equal. f_equal.
  { by rewrite popcountll_edges. }
  rewrite <- Hmax. f_equal.
  - unfold degreesList.
    rewrite (degrees_buckets (nodes g)
               (λ i, popcountll (Z.land (adjacencyTriu g) (degreeFilter g !!! i))));
      [|lia|].
    2:{ intros i Hi. unfold maxNode. rewrite Hlen.
        pose proof (valid_coloring_le_last (nodes g) i Hv Hi). lia. }
    rewrite bind_fmap_list. apply list_bind_ext; [|done]. intros c.
    f_equal. apply list_fmap_ext. intros _ v [_ Hin%elem_of_seq]%list_elem_of_lookup_2%list_elem_of_filter.
    rewrite popcountll_degreeFilter by (done || lia).
    by rewrite degree_incident by lia.
  - rewrite edgeList_fold by done.
    destruct (edge_counts (maxNode g) (edge_colors (nodes g)) (getEdges g)
                ltac:(intros; by apply edge_colors_bound)
                _ (square_replicate (maxNode g))) as [_ Hc].
    apply list_bind_ext; [|done]. intros a.
    apply list_fmap_ext. intros _ b Hb%list_elem_of_lookup_2%elem_of_seq.
    destruct (decide (a < maxNode g)) as [Ha|Ha]; [|lia].
    rewrite Hc by lia.
    rewrite !lookup_total_replicate_2 by lia. lia.
Qed.

(** ** The invariant vector is invariant *)

Lemma sort_Permutation l1 l2 : l1 ≡ₚ l2 → sort l1 = sort l2.
Proof.
  intros Hp. unfold sort. apply (Sorted_unique Z.le).
  - apply Sorted_merge_sort. apply _.
  - apply Sorted_merge_sort. apply _.
  - by rewrite !merge_sort_Permutation.
Qed.

Lemma relabel_inj colors p (Hp : color_perm colors p) e e' :
  e ∈ pairs (length colors) → e' ∈ pairs (length colors) →
  relabel p e = relabel p e' → e = e'.
Proof.
  destruct e as [i j], e' as [i' j'].
  intros Hij%elem_of_pairs Hij'%elem_of_pairs. unfold relabel. cbn [fst snd].
  intros Heq.
  assert (∀ a b, a < length colors → b < length colors →
            p !!! a = p !!! b → a = b) as Hinj.
  { intros a b. by apply (color_perm_inj colors p). }
  assert ((p !!! i = p !!! i' ∧ p !!! j = p !!! j')
          ∨ (p !!! i = p !!! j' ∧ p !!! j = p !!! i')) as [[H1 H2]|[H1 H2]].
  { injection Heq. lia. }
  - apply Hinj in H1, H2; try lia. by subst.
  - apply Hinj in H1, H2; lia.
Qed.

Lemma relabel_colors colors p (Hp : color_perm colors p) e :
  e ∈ pairs (length colors) →
  edge_colors colors (relabel p e) = edge_colors colors e.
Proof.
  destruct e as [i j]. intros Hij%elem_of_pairs.
  destruct Hp as [_ Hc]. unfold relabel, edge_colors. cbn [fst snd].
  pose proof (Hc i ltac:(lia)) as Hi. pose proof (Hc j ltac:(lia)) as Hj.
  destruct (Nat.max_spec (p !!! i) (p !!! j)) as [[? ->]|[? ->]],
    (Nat.min_spec (p !!! i) (p !!! j)) as [[? ->]|[? ->]]; try lia;
    rewrite ?Hi, ?Hj; f_equal; lia.
Qed.

Lemma class_relabel colors p (Hp : color_perm colors p) c :
  (λ v, p !!! v) <$> filter (λ v, colors !!! v = c) (seq 0 (length colors))
  ≡ₚ filter (λ v, colors !!! v = c) (seq 0 (length colors)).
Proof.
  apply NoDup_Permutation.
  - apply NoDup_fmap_2_strong; [|apply NoDup_filter, NoDup_seq].
    intros x y [_ Hx%elem_of_seq]%list_elem_of_filter
               [_ Hy%elem_of_seq]%list_elem_of_filter.
    apply (color_perm_inj colors p); (done || lia).
  - apply NoDup_filter, NoDup_seq.
  - intros w. rewrite list_elem_of_fmap, list_elem_of_filter, elem_of_seq.
    split.
    + intros (v & -> & [Hc Hv%elem_of_seq]%list_elem_of_filter).
      pose proof (color_perm_lt colors p v Hp ltac:(lia)).
      destruct Hp as [_ Hcol]. rewrite Hcol by lia. split; [done|lia].
    + intros [Hc Hw].
      destruct (perm_inv_r colors p w Hp ltac:(lia)) as [Hlt Heq].
      exists (perm_inv p !!! w). split; [done|].
      apply list_elem_of_filter. split; [|apply elem_of_seq; lia].
      destruct Hp as [_ Hcol]. rewrite <- (Hcol _ Hlt). by rewrite Heq.
Qed.

Section Relabel.
Context (colors : list nat) (g h : Graph) (p : list nat).
Context (Hng : nNodes g = length colors) (Hnh : nNodes h = length colors).
Context (Hp : color_perm colors p).
Context (Hm : ∀ i j, i < length colors → j < length colors →
                     isEdge g i j = isEdge h (p !!! i) (p !!! j)).

Lemma relabel_elem e :
  e ∈ getEdges g → relabel p e ∈ getEdges h.
Proof using Hng Hnh Hp Hm.
  destruct e as [i j]. intros [Hij He]%elem_of_getEdges.
  unfold relabel. cbn [fst snd]. apply elem_of_getEdges.
  rewrite Hm in He by lia.
  pose proof (color_perm_lt colors p i Hp ltac:(lia)).
  pose proof (color_perm_lt colors p j Hp ltac:(lia)).
  assert (p !!! i ≠ p !!! j) as Hne.
  { intros Heq. apply (color_perm_inj colors p) in Heq; [lia|done|lia..]. }
  split; [lia|].
  destruct (Nat.max_spec (p !!! i) (p !!! j)) as [[? ->]|[? ->]],
    (Nat.min_spec (p !!! i) (p !!! j)) as [[? ->]|[? ->]]; try lia;
    [done|by rewrite isEdge_sym].
Qed.

Lemma degree_relabel v :
  v < length colors → degree g v = degree h (p !!! v).
Proof using Hng Hnh Hp Hm.
  intros Hv. unfold degree. rewrite Hng, Hnh.
  rewrite (filter_ext_elem (λ u, isEdge g v u = true)
             (λ u, isEdge h (p !!! v) (p !!! u) = true)).
  2:{ intros u Hu%elem_of_seq. rewrite Hm by lia. done. }
  transitivity (length (filter (λ w, isEdge h (p !!! v) w = true)
                  ((λ u, p !!! u) <$> seq 0 (length colors)))).
  { by rewrite filter_fmap', length_fmap. }
  rewrite <- (color_perm_length colors p Hp).
  rewrite <- (list_as_fmap_seq p).
  rewrite (color_perm_length colors p Hp).
  apply Permutation_length, (filter_Permutation (λ w, isEdge h (p !!! v) w = true)).
  by destruct Hp.
Qed.

End Relabel.

Lemma relabel_edges colors g h p :
  nNodes g = length colors → nNodes h = length colors →
  color_perm colors p →
  (∀ i j, i < length colors → j < length colors →
          isEdge g i j = isEdge h (p !!! i) (p !!! j)) →
  relabel p <$> getEdges g ≡ₚ getEdges h.
Proof.
  intros Hng Hnh Hp Hm. apply NoDup_Permutation.
  - apply NoDup_fmap_2_strong; [|apply NoDup_getEdges].
    intros e e' He He'. apply (relabel_inj colors p Hp).
    + rewrite getEdges_filter, list_elem_of_filter, Hng in He. tauto.
    + rewrite getEdges_filter, list_elem_of_filter, Hng in He'. tauto.
  - apply NoDup_getEdges.
  - intros e'. rewrite list_elem_of_fmap. split.
    + intros (e & -> & He). by apply (relabel_elem colors g h p).
    + intros He'.
      pose proof (color_perm_inv colors p Hp) as Hq.
      assert (∀ i j, i < length colors → j < length colors →
                isEdge h i j
                = isEdge g (perm_inv p !!! i) (perm_inv p !!! j)) as Hm'.
      { intros i j Hi Hj.
        destruct (perm_inv_r colors p i Hp Hi) as [Hi' Hie].
        destruct (perm_inv_r colors p j Hp Hj) as [Hj' Hje].
        rewrite (Hm _ _ Hi' Hj'). by rewrite Hie, Hje. }
      exists (relabel (perm_inv p) e'). split.
      * destruct e' as [i j]. apply elem_of_getEdges in He' as [Hij _].
        rewrite Hnh in Hij.
        destruct (perm_inv_r colors p i Hp ltac:(lia)) as [Hi' Hie].
        destruct (perm_inv_r colors p j Hp ltac:(lia)) as [Hj' Hje].
        unfold relabel. cbn [fst snd].
        destruct (Nat.max_spec (perm_inv p !!! i) (perm_inv p !!! j))
          as [[? ->]|[? ->]],
          (Nat.min_spec (perm_inv p !!! i) (perm_inv p !!! j))
          as [[? ->]|[? ->]]; try lia; rewrite ?Hie, ?Hje; f_equal; try lia.
        all: assert (perm_inv p !!! i = perm_inv p !!! j) as Heq by lia.
        all: rewrite Heq in Hie; lia.
      * by apply (relabel_elem colors h g (perm_inv p)).
Qed.

(** Isomorphic graphs of one call have the same invariant vector. *)
Lemma invariant_vector_isomorphic colors g h :
  nNodes g = length colors → nNodes h = length colors →
  nodes g = colors → nodes h = colors →
  isomorphic colors g h →
  invariant_vector g = invariant_vector h.
Proof.
  intros Hng Hnh Hg Hh (p & Hp & Hm).
  pose proof (relabel_edges colors g h p Hng Hnh Hp Hm) as HE.
  unfold invariant_vector. rewrite Hg, Hh, Hng, Hnh. f_equal; [|f_equal].
  - f_equal. f_equal. by rewrite <- HE, length_fmap.
  - apply list_bind_ext; [|done]. intros c.
    rewrite (list_fmap_ext (λ v, Z.of_nat (degree g v))
               (λ v, Z.of_nat (degree h (p !!! v)))
               (filter (λ v, colors !!! v = c) (seq 0 (length colors)))).
    2:{ intros _ v [_ Hv%elem_of_seq]%list_elem_of_lookup_2%list_elem_of_filter.
        f_equal. apply (degree_relabel colors g h p); (done || lia). }
    apply sort_Permutation.
    rewrite <- (class_relabel colors p Hp c) at 2.
    by rewrite <- list_fmap_compose.
  - apply list_bind_ext; [|done]. intros a.
    apply list_fmap_ext. intros _ b _. f_equal.
    rewrite <- HE.
    rewrite filter_fmap', length_fmap. f_equal.
    apply filter_ext_elem. intros e He.
    rewrite (relabel_colors colors p Hp); [done|].
    rewrite getEdges_filter, list_elem_of_filter, Hng in He. tauto.
Qed.

(** ** Graph objects of one call *)

Lemma candidate_inv fuel colors table a g :
  candidate fuel colors table a g →
  ∃ b, g = calculateRepresentation
             (mkGraph (length colors) colors [] b a
                (calculateDegreeFilter (length colors))
                (adjTriuMasksOf (length colors)) table)
       ∧ checkConnected fuel
           (mkGraph (length colors) colors [] false a
              (calculateDegreeFilter (length colors))
              (adjTriuMasksOf (length colors)) table)
         = Some (mkGraph (length colors) colors [] b a
                   (calculateDegreeFilter (length colors))
                   (adjTriuMasksOf (length colors)) table).
Proof.
  unfold candidate, Graph_new, checkConnected. intros H.
  destruct (while fuel bfs_cond _ _) as [s|]; [|done]. simpl in H.
  injection H as <-. eexists. split; reflexivity.
Qed.

Lemma candidate_fields fuel colors table a g :
  candidate fuel colors table a g →
  nNodes g = length colors ∧ nodes g = colors ∧ adjacencyTriu g = a
  ∧ degreeFilter g = calculateDegreeFilter (length colors)
  ∧ adjacencyTriuMasks g = adjTriuMasksOf (length colors)
  ∧ permutations g = table.
Proof. intros (b & -> & _)%candidate_inv. done. Qed.

Lemma candidate_ok fuel colors table a g :
  2 ≤ length colors ≤ 11 →
  (0 ≤ a < 2 ^ Z.of_nat (triuSize (length colors)))%Z →
  candidate fuel colors table a g →
  graph_ok g ∧ in_context colors table g.
Proof.
  intros Hn Ha (Hng & Hg & Hag & Hd & Hm & Ht)%candidate_fields.
  split; split; rewrite ?Hng, ?Hag; done.
Qed.

Lemma candidate_representation fuel colors table a g :
  valid_coloring colors → 2 ≤ length colors ≤ 11 →
  (0 ≤ a < 2 ^ Z.of_nat (triuSize (length colors)))%Z →
  candidate fuel colors table a g →
  representation g = invariant_vector g.
Proof.
  intros Hv Hn Ha (b & -> & _)%candidate_inv.
  rewrite calculateRepresentation_spec; [done| |done|done].
  split; done.
Qed.

(** On the graph objects of one call [operator==] decides isomorphism. *)
Lemma Graph_eq_isomorphic fuel fuel' colors table a a' g h :
  valid_coloring colors → 2 ≤ length colors ≤ 11 →
  (∀ p, p ∈ table ↔ color_perm colors p) →
  (0 ≤ a < 2 ^ Z.of_nat (triuSize (length colors)))%Z →
  (0 ≤ a' < 2 ^ Z.of_nat (triuSize (length colors)))%Z →
  candidate fuel colors table a g → candidate fuel' colors table a' h →
  Graph_eq g h = true ↔ isomorphic colors g h.
Proof.
  intros Hv Hn Htab Ha Ha' Hg Hh.
  destruct (candidate_ok _ _ _ _ _ Hn Ha Hg) as [Hgo Hgc].
  destruct (candidate_ok _ _ _ _ _ Hn Ha' Hh) as [Hho Hhc].
  rewrite Graph_eq_spec, (perm_matches_isomorphic colors table) by done.
  split; [tauto|]. intros Hiso. split; [|done].
  rewrite (candidate_representation _ _ _ _ _ Hv Hn Ha Hg).
  rewrite (candidate_representation _ _ _ _ _ Hv Hn Ha' Hh).
  destruct Hgc, Hhc. by apply (invariant_vector_isomorphic colors).
Qed.

Local Open Scope Z_scope.

(** ** The call boundary *)

Lemma run_ok_bound zs i a :
  run_ok zs → zs !! i = Some a → 0 ≤ a ≤ Z.of_nat i.
Proof.
  intros [H0 Hs]. revert a. induction i as [|i IH]; intros a Ha.
  - apply H0 in Ha. lia.
  - destruct (zs !! i) as [p|] eqn:Hp.
    + specialize (IH p eq_refl). destruct (Hs i p a Hp Ha); lia.
    + apply lookup_ge_None in Hp. apply lookup_lt_Some in Ha. lia.
Qed.

Lemma run_ok_snoc zs z :
  run_ok (zs ++ [z]) ↔
  run_ok zs ∧ match last zs with None => z = 0 | Some a => z = a ∨ z = a + 1 end.
Proof.
  split.
  - intros [H0 Hs]. split; [split|].
    + intros a Ha. apply H0. by apply lookup_app_l_Some.
    + intros i a b Ha Hb. apply (Hs i); by apply lookup_app_l_Some.
    + destruct zs as [|y zs'] using rev_ind; simpl.
      * by apply H0.
      * rewrite last_snoc. apply (Hs (length zs')).
        -- rewrite lookup_app_l by (rewrite length_app; simpl; lia).
           by rewrite list_lookup_middle.
        -- rewrite (list_lookup_middle (zs' ++ [y]) [] z) by
             (rewrite length_app; simpl; lia). done.
  - intros [[H0 Hs] Hl]. split.
    + intros a Ha. destruct zs as [|y zs']; simpl in *.
      * by simplify_eq.
      * apply H0. done.
    + intros i a b Ha Hb.
      assert (i < length zs)%nat as Hi.
      { apply lookup_lt_Some in Hb. rewrite length_app in Hb. simpl in Hb. lia. }
      rewrite lookup_app_l in Ha by done.
      destruct (decide (Datatypes.S i < length zs)%nat) as [Hlt|Hge].
      * rewrite lookup_app_l in Hb by done. by apply (Hs i).
      * assert (Datatypes.S i = length zs) as Heq by lia.
        rewrite Heq in Hb. rewrite list_lookup_middle in Hb by done.
        simplify_eq.
        rewrite last_lookup in Hl.
        replace (Nat.pred (length zs)) with i in Hl by lia.
        by rewrite Ha in Hl.
Qed.

Lemma run_ok_app_l l k : run_ok (l ++ k) → run_ok l.
Proof.
  intros [H0 Hs]. split.
  - intros a Ha. apply H0. by apply lookup_app_l_Some.
  - intros i a b Ha Hb. apply (Hs i); by apply lookup_app_l_Some.
Qed.

(** The conversion loop accepts exactly the admissible continuations of
    the vector built so far. *)
Lemma convertNodes_spec zs : ∀ nodes,
  run_ok nodes → Z.of_nat (length nodes + length zs) < 2 ^ 31 →
  (run_ok (nodes ++ zs) ∧
     convertNodes (PyLong <$> zs) (length nodes) nodes = inr (nodes ++ zs))
  ∨ (¬ run_ok (nodes ++ zs) ∧
     ∃ e, convertNodes (PyLong <$> zs) (length nodes) nodes = inl e
          ∧ error_kind e = InvalidColoring).
Proof.
  induction zs as [|z zs IH]; intros nodes Hok Hlen.
  - left. rewrite app_nil_r. done.
  - assert (¬ run_ok (nodes ++ [z]) → ¬ run_ok (nodes ++ z :: zs)) as Hbad.
    { intros Hn Hall. apply Hn. apply (run_ok_app_l _ zs).
      by rewrite <- (assoc_L (++)). }
    assert (match last nodes with
            | None => True
            | Some a => 0 ≤ a ≤ Z.of_nat (length nodes)
            end) as Hlast.
    { destruct (last nodes) as [a|] eqn:Ha; [|done].
      rewrite last_lookup in Ha. apply (run_ok_bound _ _ _ Hok) in Ha. lia. }
    rewrite fmap_cons. cbn [convertNodes]. unfold PyLong_AsLong.
    rewrite length_cons in Hlen.
    destruct (decide (- 2 ^ 63 ≤ z < 2 ^ 63)) as [Hr|Hr]; cycle 1.
    { right. split.
      - apply Hbad. rewrite run_ok_snoc. intros [_ Hl].
        destruct (last nodes) as [a|]; lia.
      - exists err_negative.
        replace ((- 2 ^ 63 <=? z) && (z <? 2 ^ 63)) with false; [done|].
        symmetry. apply andb_false_iff. rewrite Z.leb_gt, Z.ltb_ge. lia. }
    replace ((- 2 ^ 63 <=? z) && (z <? 2 ^ 63)) with true.
    2:{ symmetry; apply andb_true_iff; rewrite Z.leb_le, Z.ltb_lt. done. }
    destruct (Z.ltb_spec z 0) as [Hneg|Hnn].
    { right. split; [|by exists err_negative].
      apply Hbad. rewrite run_ok_snoc. intros [_ Hl].
      destruct (last nodes) as [a|]; lia. }
    destruct nodes as [|y nodes' _] using rev_ind.
    + cbn [length Nat.eqb Nat.ltb Nat.leb andb].
      destruct (Z.eqb_spec z 0) as [->|Hz]; cbn [negb].
      * assert (run_ok [0]) as Hok0.
        { split; [intros a; simpl; intros; by simplify_eq|].
          intros [|i] a b; simpl; done. }
        change (wrap32 0) with 0. rewrite app_nil_l.
        apply (IH [0] Hok0). simpl. lia.
      * right. split; [|by exists err_first].
        apply Hbad. intros [H0 _]. apply Hz. by apply H0.
    + rewrite last_snoc in Hlast. rewrite length_app in *.
      cbn [length] in *.
      replace (length nodes' + 1 =? 0)%nat with false
        by (symmetry; apply Nat.eqb_neq; lia).
      replace (0 <? length nodes' + 1)%nat with true
        by (symmetry; apply Nat.ltb_lt; lia).
      replace (length nodes' + 1 - 1)%nat with (length nodes') by lia.
      rewrite list_lookup_total_middle by done. cbn [andb].
      rewrite (wrap32_small (y + 1)) by lia.
      destruct (decide (z = y ∨ z = y + 1)) as [Hstep|Hstep].
      * replace (negb (z =? y) && negb (z =? y + 1)) with false
          by (symmetry; apply andb_false_iff; rewrite !negb_false_iff;
              rewrite !Z.eqb_eq; done).
        rewrite (wrap32_small z) by lia.
        assert (run_ok ((nodes' ++ [y]) ++ [z])) as Hok'.
        { rewrite run_ok_snoc, last_snoc. done. }
        specialize (IH ((nodes' ++ [y]) ++ [z]) Hok').
        rewrite !length_app in IH. cbn [length] in IH.
        replace (Datatypes.S (length nodes' + 1)) with
          (length nodes' + 1 + 1)%nat by lia.
        rewrite <- (assoc_L (++) (nodes' ++ [y]) [z] zs) in IH.
        apply IH. lia.
      * replace (negb (z =? y) && negb (z =? y + 1)) with true
          by (symmetry; apply andb_true_iff; rewrite !negb_true_iff;
              rewrite !Z.eqb_neq; lia).
        right. split; [|by exists err_increasing].
        apply Hbad. rewrite run_ok_snoc, last_snoc. tauto.
Qed.

(** *** Argument parsing *)

Lemma truncated_range z : - 2 ^ 31 ≤ truncated z < 2 ^ 31.
Proof.
  unfold truncated, int_of_unsigned, wrap32, wrap64.
  pose proof (Z.mod_pos_bound (z mod 2 ^ 64) (2 ^ 32) ltac:(lia)).
  destruct (Z.ltb_spec ((z mod 2 ^ 64) mod 2 ^ 32) (2 ^ 31)); lia.
Qed.

Lemma truncated_small z : - 2 ^ 31 ≤ z < 2 ^ 31 → truncated z = z.
Proof.
  intros Hz. unfold truncated, int_of_unsigned, wrap32, wrap64.
  destruct (Z.le_gt_cases 0 z) as [Hnn|Hneg].
  - rewrite (Z.mod_small z (2 ^ 64)) by lia.
    rewrite (Z.mod_small z (2 ^ 32)) by lia.
    destruct (Z.ltb_spec z (2 ^ 31)); lia.
  - assert (z mod 2 ^ 64 = z + 2 ^ 64) as ->.
    { symmetry. apply (Z.mod_unique_pos _ _ (-1)); lia. }
    assert ((z + 2 ^ 64) mod 2 ^ 32 = z + 2 ^ 32) as ->.
    { symmetry. apply (Z.mod_unique_pos _ _ (2 ^ 32 - 1)); lia. }
    destruct (Z.ltb_spec (z + 2 ^ 32) (2 ^ 31)); lia.
Qed.

Lemma wrap32_wrap64 z : wrap32 (wrap64 z) = wrap32 z.
Proof.
  unfold wrap32, wrap64. rewrite (Z.div_mod z (2 ^ 64)) at 2 by lia.
  replace (2 ^ 64 * (z / 2 ^ 64) + z mod 2 ^ 64)
    with (z mod 2 ^ 64 + (z / 2 ^ 64 * 2 ^ 32) * 2 ^ 32) by ring.
  by rewrite Z.mod_add by lia.
Qed.

(** Two Python integers with the same low 32 bits are the same argument. *)
Lemma truncated_period z k : truncated (z + k * 2 ^ 32) = truncated z.
Proof.
  unfold truncated. rewrite !wrap32_wrap64. unfold wrap32.
  by rewrite Z.mod_add by lia.
Qed.

Lemma parse_positional o a b :
  PyArg_ParseTupleAndKeywords [o; PyLong a; PyLong b] ∅
  = Some (o, truncated a, truncated b).
Proof. reflexivity. Qed.

(** A call with three positional arguments, the degrees Python integers,
    runs the checks on the truncated degrees. *)
Lemma generatePyEdges_positional enum o a b :
  generatePyEdges_with enum [o; PyLong a; PyLong b] ∅
  = generatePyEdges_parsed enum o (truncated a) (truncated b).
Proof. reflexivity. Qed.

(** *** The checks after parsing *)

(** On a tuple of Python integers whose length fits the [unsigned int] it
    is stored in, the checks that follow argument parsing sort the parsed
    values as the design document does; the error does not depend on the
    enumeration [enum]. *)
Lemma generatePyEdges_parsed_checks (zs : list Z) (pyMaxDegree pyMinDegree : Z) :
  Z.of_nat (length zs) < 2 ^ 32 →
  - 2 ^ 31 ≤ pyMaxDegree < 2 ^ 31 →
  - 2 ^ 31 ≤ pyMinDegree < 2 ^ 31 →
  (bad_degree_bounds pyMaxDegree pyMinDegree →
   ∃ e, error_kind e = InvalidDegreeBounds ∧
        ∀ enum, generatePyEdges_parsed enum (int_tuple zs) pyMaxDegree
                  pyMinDegree = Some (inl e))
  ∧ (¬ bad_degree_bounds pyMaxDegree pyMinDegree → bad_node_count zs →
     ∃ e, error_kind e = InvalidNodeCount ∧
          ∀ enum, generatePyEdges_parsed enum (int_tuple zs) pyMaxDegree
                    pyMinDegree = Some (inl e))
  ∧ (¬ bad_degree_bounds pyMaxDegree pyMinDegree → ¬ bad_node_count zs →
     bad_coloring zs →
     ∃ e, error_kind e = InvalidColoring ∧
          ∀ enum, generatePyEdges_parsed enum (int_tuple zs) pyMaxDegree
                    pyMinDegree = Some (inl e))
  ∧ (¬ bad_degree_bounds pyMaxDegree pyMinDegree → ¬ bad_node_count zs →
     ¬ bad_coloring zs →
     ∀ enum, generatePyEdges_parsed enum (int_tuple zs) pyMaxDegree pyMinDegree
             = if (1 <? length zs)%nat
               then inr <$> enum (Z.to_nat <$> zs) pyMaxDegree pyMinDegree
               else Some (inr [[]])).
Proof.
  intros Hlen Hmax Hmin.
  unfold bad_degree_bounds, bad_node_count, bad_coloring, int_tuple,
    generatePyEdges_parsed.
  rewrite length_fmap.
  rewrite (wrap32_small (Z.of_nat (length zs))) by lia.
  destruct (Z.ltb_spec pyMaxDegree pyMinDegree) as [H1|H1].
  { split; [intros _; by exists err_degree_order|].
    repeat split; intros []; lia. }
  destruct (Z.ltb_spec pyMinDegree 0) as [H2|H2].
  { split; [intros _; by exists err_min_degree|].
    repeat split; intros []; lia. }
  split; [lia|].
  rewrite !wrap32_small by lia.
  destruct (Z.eqb_spec (Z.of_nat (length zs)) 0) as [H3|H3].
  { split; [intros _ _; by exists err_empty|].
    split; intros _ []; lia. }
  destruct (Z.ltb_spec 11 (Z.of_nat (length zs))) as [H4|H4].
  { split; [intros _ _; by exists err_too_many|].
    split; intros _ []; lia. }
  split; [lia|].
  rewrite Nat2Z.id, <- fmap_take, firstn_all.
  assert (run_ok []) as Hnil.
  { split; intros; by simplify_list_eq. }
  destruct (convertNodes_spec zs [] Hnil) as [[Hok Heq]|[Hok (e & Heq & He)]];
    [simpl; lia| |]; simpl in Heq; rewrite Heq.
  - split; [tauto|]. intros _ _ _ enum.
    destruct (Z.ltb_spec 1 (Z.of_nat (length zs))),
      (Nat.ltb_spec 1 (length zs)); try lia; [|done].
    by destruct (enum _ _ _).
  - split; [|tauto]. intros _ _ _. by exists e.
Qed.

(** C9 (call-boundary checks, and the inputs they miss).  The binding is
    called with a tuple of Python integers [zs] and the Python integers
    [maxDegree] and [minDegree].  Argument parsing keeps the low 32 bits of
    each degree, unchecked, and every later check is made on these: with
    the truncated degrees in the place of the caller's,
    - degree bounds with [max < min] or [min < 0] give an
      invalid-degree-bounds error;
    - otherwise an empty tuple or one of more than 11 nodes (and fewer than
      [2^32]) gives an invalid-node-count error;
    - otherwise a coloring that does not start at 0 or has a step other
      than +0 / +1 gives an invalid-coloring error;
    - the error does not depend on the enumeration [enum]: it is decided
      before the enumeration is called, and an error carries no result;
    - an input that passes every check gets the enumeration's result (for
      a single node: the one empty edge list).
    Degrees that fit an [int] are not changed by the truncation, so for
    them this is the claim.  But the call [generate((0, 0), 1, -2^32)] has
    a negative [min_degree] and is not rejected: the enumeration runs with
    [minDegree = 0] and returns the one edge list [[(0, 1)]].  In the same
    way the length of the tuple is cut to 32 bits before it is checked: a
    tuple of [2^32 + 1] elements that starts with 0 is taken for a single
    node. *)
Theorem generatePyEdges_checks_truncation :
  (∀ (zs : list Z) (maxDegree minDegree : Z),
     Z.of_nat (length zs) < 2 ^ 32 →
     (bad_degree_bounds (truncated maxDegree) (truncated minDegree) →
      ∃ e, error_kind e = InvalidDegreeBounds ∧
           ∀ enum, generatePyEdges_with enum
                     [int_tuple zs; PyLong maxDegree; PyLong minDegree] ∅
                   = Some (inl e))
     ∧ (¬ bad_degree_bounds (truncated maxDegree) (truncated minDegree) →
        bad_node_count zs →
        ∃ e, error_kind e = InvalidNodeCount ∧
             ∀ enum, generatePyEdges_with enum
                       [int_tuple zs; PyLong maxDegree; PyLong minDegree] ∅
                     = Some (inl e))
     ∧ (¬ bad_degree_bounds (truncated maxDegree) (truncated minDegree) →
        ¬ bad_node_count zs → bad_coloring zs →
        ∃ e, error_kind e = InvalidColoring ∧
             ∀ enum, generatePyEdges_with enum
                       [int_tuple zs; PyLong maxDegree; PyLong minDegree] ∅
                     = Some (inl e))
     ∧ (¬ bad_degree_bounds (truncated maxDegree) (truncated minDegree) →
        ¬ bad_node_count zs → ¬ bad_coloring zs →
        ∀ enum, generatePyEdges_with enum
                  [int_tuple zs; PyLong maxDegree; PyLong minDegree] ∅
                = if (1 <? length zs)%nat
                  then inr <$> enum (Z.to_nat <$> zs) (truncated maxDegree)
                                 (truncated minDegree)
                  else Some (inr [[]])))
  ∧ (∀ z, - 2 ^ 31 ≤ z < 2 ^ 31 → truncated z = z)
  ∧ bad_degree_bounds 1 (- 2 ^ 32)
  ∧ (∀ enum, generatePyEdges_with enum
               [int_tuple [0; 0]; PyLong 1; PyLong (- 2 ^ 32)] ∅
             = inr <$> enum [0; 0]%nat 1 0)
  ∧ generatePyEdges 100 [int_tuple [0; 0]; PyLong 1; PyLong (- 2 ^ 32)] ∅
    = Some (inr [[(0, 1)]%nat])
  ∧ (∀ enum items,
       Z.of_nat (length items) = 2 ^ 32 + 1 →
       items !! 0%nat = Some (PyLong 0) →
       generatePyEdges_with enum [PyTuple items; PyLong 1; PyLong 0] ∅
       = Some (inr [[]])).
Proof.
  split; [|split; [|split; [|split; [|split]]]].
  - intros zs maxDegree minDegree Hlen.
    pose proof (truncated_range maxDegree) as Hmax.
    pose proof (truncated_range minDegree) as Hmin.
    destruct (generatePyEdges_parsed_checks zs _ _ Hlen Hmax Hmin)
      as (H1 & H2 & H3 & H4).
    split; [|split; [|split]].
    + intros Hbad. destruct (H1 Hbad) as (e & He & Hres).
      exists e. split; [done|]. intros enum.
      rewrite generatePyEdges_positional. apply Hres.
    + intros Hd Hbad. destruct (H2 Hd Hbad) as (e & He & Hres).
      exists e. split; [done|]. intros enum.
      rewrite generatePyEdges_positional. apply Hres.
    + intros Hd Hn Hbad. destruct (H3 Hd Hn Hbad) as (e & He & Hres).
      exists e. split; [done|]. intros enum.
      rewrite generatePyEdges_positional. apply Hres.
    + intros Hd Hn Hc enum.
      rewrite generatePyEdges_positional. by apply H4.
  - apply truncated_small.
  - right. lia.
  - intros enum. rewrite generatePyEdges_positional.
    change (truncated 1) with 1. change (truncated (- 2 ^ 32)) with 0.
    unfold generatePyEdges_parsed, int_tuple. simpl.
    by destruct (enum _ _ _).
  - by vm_compute.
  - intros enum items Hlen H0. rewrite generatePyEdges_positional.
    change (truncated 1) with 1. change (truncated 0) with 0.
    unfold generatePyEdges_parsed.
    assert (wrap32 (Z.of_nat (length items)) = 1) as ->.
    { rewrite Hlen. reflexivity. }
    destruct items as [|item items]; [done|].
    simpl in H0. injection H0 as ->. reflexivity.
Qed.

(** C8 (single node, and the degree bounds that miss it).  Called with the
    one-node tuple [(0,)] and Python integers as degree bounds, the binding
    looks at the low 32 bits of each bound, read as an [int]: it returns
    exactly one result, the empty edge list, when these satisfy
    [0 <= min <= max], and the degree error otherwise.  The result does not
    depend on the enumeration [enum]: for one node the binding does not
    call the core.  So for bounds [0 <= minDegree <= maxDegree < 2^31] the
    result is the one empty edge list; but [generate((0,), 2^31, 0)], whose
    bounds are in order, is rejected with the error for [max < min]. *)
Theorem generatePyEdges_single_node_truncation :
  (∀ enum maxDegree minDegree,
     generatePyEdges_with enum
       [int_tuple [0]; PyLong maxDegree; PyLong minDegree] ∅
     = Some (if truncated maxDegree <? truncated minDegree
             then inl err_degree_order
             else if truncated minDegree <? 0 then inl err_min_degree
             else inr [[]]))
  ∧ (∀ fuel maxDegree minDegree,
       0 ≤ minDegree → minDegree ≤ maxDegree → maxDegree < 2 ^ 31 →
       generatePyEdges fuel
         [int_tuple [0]; PyLong maxDegree; PyLong minDegree] ∅
       = Some (inr [[]]))
  ∧ ¬ bad_degree_bounds (2 ^ 31) 0
  ∧ (∀ fuel, generatePyEdges fuel
               [int_tuple [0]; PyLong (2 ^ 31); PyLong 0] ∅
             = Some (inl err_degree_order)).
Proof.
  assert (∀ enum maxDegree minDegree,
     generatePyEdges_with enum
       [int_tuple [0]; PyLong maxDegree; PyLong minDegree] ∅
     = Some (if truncated maxDegree <? truncated minDegree
             then inl err_degree_order
             else if truncated minDegree <? 0 then inl err_min_degree
             else inr [[]])) as Hgen.
  { intros enum maxDegree minDegree. rewrite generatePyEdges_positional.
    unfold generatePyEdges_parsed, int_tuple.
    destruct (truncated maxDegree <? truncated minDegree); [done|].
    by destruct (truncated minDegree <? 0). }
  split; [exact Hgen|]. split; [|split].
  - intros fuel maxDegree minDegree Hmin Hle Hmax.
    unfold generatePyEdges. rewrite Hgen.
    rewrite !truncated_small by lia.
    destruct (Z.ltb_spec maxDegree minDegree); [lia|].
    destruct (Z.ltb_spec minDegree 0); [lia|done].
  - unfold bad_degree_bounds. lia.
  - intros fuel. unfold generatePyEdges. by rewrite Hgen.
Qed.

Local Open Scope Z_scope.

(** ** The enumeration loop *)

Lemma while_inv {S} (P : S → Prop) (cond : S → bool) (body : S → S) fuel :
  (∀ s, P s → cond s = true → P (body s)) →
  ∀ s s', P s → while fuel cond body s = Some s' → P s' ∧ cond s' = false.
Proof.
  intros Hstep. induction fuel as [|fuel IH]; intros s s' HP; simpl.
  - destruct (cond s) eqn:Hc; [done|]. intros [= <-]. done.
  - destruct (cond s) eqn:Hc.
    + apply IH. by apply Hstep.
    + intros [= <-]. done.
Qed.

Lemma while_fuel_mono {S} (cond : S → bool) (body : S → S) fuel fuel' s s' :
  (fuel ≤ fuel')%nat →
  while fuel cond body s = Some s' → while fuel' cond body s = Some s'.
Proof.
  revert fuel' s. induction fuel as [|fuel IH]; intros fuel' s Hf; simpl.
  - destruct (cond s) eqn:Hc; [done|]. intros [= <-].
    destruct fuel'; simpl; by rewrite Hc.
  - destruct fuel' as [|fuel']; [lia|]. simpl.
    destruct (cond s); [|done]. apply IH. lia.
Qed.

Lemma wrap64_nonneg x : 0 ≤ wrap64 x.
Proof. unfold wrap64. apply Z.mod_pos_bound. lia. Qed.

Lemma nextBitPermutation_nonneg v : 0 ≤ nextBitPermutation v.
Proof.
  unfold nextBitPermutation. apply Z.lor_nonneg. split.
  - apply wrap64_nonneg.
  - apply Z.shiftr_nonneg, wrap64_nonneg.
Qed.

Lemma triuSize_wrap n :
  (2 ≤ n ≤ 11)%nat →
  wrap32 (Z.of_nat n * wrap32 (Z.of_nat n - 1)) / 2 = Z.of_nat (triuSize n).
Proof.
  intros Hn. assert (n ∈ seq 2 10) as Hin by (apply elem_of_seq; lia).
  revert Hin. generalize n. apply Forall_forall.
  repeat constructor.
Qed.

(** The start and the end value of the shell of [i] edges. *)
Lemma shell_bounds T i :
  0 ≤ i ≤ T → T ≤ 55 →
  wrap64 (shl64 1 i - 1) = 2 ^ i - 1
  ∧ shl64 (wrap64 (shl64 1 i - 1)) (wrap32 (T - i)) = (2 ^ i - 1) * 2 ^ (T - i).
Proof.
  intros Hi HT.
  assert (0 < 2 ^ i ≤ 2 ^ 55) as Hp.
  { split; [apply Z.pow_pos_nonneg; lia|apply Z.pow_le_mono_r; lia]. }
  assert (0 < 2 ^ (T - i) ≤ 2 ^ 55) as Hq.
  { split; [apply Z.pow_pos_nonneg; lia|apply Z.pow_le_mono_r; lia]. }
  assert (2 ^ i * 2 ^ (T - i) = 2 ^ T) as Hpq.
  { rewrite <- Z.pow_add_r by lia. f_equal. lia. }
  assert (2 ^ T ≤ 2 ^ 55) as HT' by (apply Z.pow_le_mono_r; lia).
  rewrite shl64_1 by lia.
  rewrite (wrap64_small (2 ^ i - 1)) by lia. split; [done|].
  rewrite wrap32_small by lia.
  unfold shl64. rewrite Z.shiftl_mul_pow2 by lia.
  apply wrap64_small. nia.
Qed.

Lemma shell_sound fuel df n maxDegree minDegree T trius i trius' :
  0 ≤ i ≤ T → T ≤ 55 →
  shell fuel df n maxDegree minDegree T trius i = Some trius' →
  ∃ new, trius' = trius ++ new
         ∧ Forall (λ a, 0 ≤ a < 2 ^ T
                        ∧ checkDegrees a df n maxDegree minDegree = true) new.
Proof.
  intros Hi HT. unfold shell.
  destruct (shell_bounds T i Hi HT) as [-> ->].
  destruct (while fuel _ _ _) as [s|] eqn:Hw; [|done]. simpl. intros [= <-].
  apply (while_inv
    (λ s, 0 ≤ s.1
          ∧ ∃ new, s.2 = trius ++ new
                   ∧ Forall (λ a, 0 ≤ a < 2 ^ T
                        ∧ checkDegrees a df n maxDegree minDegree = true) new))
    in Hw as [[_ H] _]; [done| |].
  - intros [v acc] HP Hc. cbn [fst snd] in *.
    destruct HP as [Hv (new & -> & Hnew)].
    split; [apply nextBitPermutation_nonneg|].
    destruct (checkDegrees v df n maxDegree minDegree) eqn:Hcd.
    + exists (new ++ [v]). split; [by rewrite (assoc_L (++))|].
      apply Forall_app. split; [done|]. apply Forall_singleton.
      split; [|done]. apply Z.leb_le in Hc. split; [done|].
      assert (0 < 2 ^ (T - i)) by (apply Z.pow_pos_nonneg; lia).
      assert (2 ^ i * 2 ^ (T - i) = 2 ^ T) as Hpq.
      { rewrite <- Z.pow_add_r by lia. f_equal. lia. }
      nia.
    + by exists new.
  - cbn [fst snd]. split.
    + assert (0 < 2 ^ i) by (apply Z.pow_pos_nonneg; lia). lia.
    + exists []. by rewrite app_nil_r.
Qed.

Lemma foldl_option_sound {A B} (f : list A → B → option (list A))
    (P : A → Prop) (l : list B) (Q : B → Prop) :
  (∀ acc x acc', Q x → f acc x = Some acc' →
     ∃ new, acc' = acc ++ new ∧ Forall P new) →
  Forall Q l →
  ∀ acc res, Forall P acc →
    foldl (λ acc x, acc ← acc; f acc x) (Some acc) l = Some res →
    Forall P res.
Proof.
  intros Hf HQ. induction HQ as [|x l Hx _ IH]; intros acc res Hacc; simpl.
  - by intros [= <-].
  - destruct (f acc x) as [acc'|] eqn:Hfx.
    + destruct (Hf _ _ _ Hx Hfx) as (new & -> & Hnew).
      apply IH. by apply Forall_app.
    + intros Hnone. exfalso. clear -Hnone.
      induction l as [|y l IH]; simpl in *; [done|]. by apply IH.
Qed.

(** Every adjacency word the enumeration keeps lies in the [n(n-1)/2]-bit
    space and passes the degree check. *)
Lemma candidates_sound fuel n maxDegree minDegree trius :
  (2 ≤ n ≤ 11)%nat →
  candidates fuel n maxDegree minDegree = Some trius →
  Forall (λ a, 0 ≤ a < 2 ^ Z.of_nat (triuSize n)
               ∧ checkDegrees a (calculateDegreeFilter n) n maxDegree minDegree
                 = true) trius.
Proof.
  intros Hn. unfold candidates. rewrite triuSize_wrap by done.
  pose proof (triuSize_le n Hn) as HT.
  rewrite (wrap32_small (Z.of_nat n - 1)) by lia.
  apply (foldl_option_sound _ _ _
           (λ i, 0 ≤ i ≤ Z.of_nat (triuSize n))).
  - intros acc i acc' Hi. apply shell_sound; lia.
  - apply Forall_forall. intros i Hi%elem_of_seqZ. lia.
  - done.
Qed.

(** ** The ordered map *)

Lemma repr_lt_irrefl a : repr_lt a a = false.
Proof.
  induction a as [|x a IH]; [done|]. simpl.
  by rewrite Z.ltb_irrefl.
Qed.

Lemma repr_lt_trans a b c :
  repr_lt a b = true → repr_lt b c = true → repr_lt a c = true.
Proof.
  revert b c. induction a as [|x a IH]; intros [|y b] [|z c]; simpl; try done.
  destruct (Z.ltb_spec x y), (Z.ltb_spec y x), (Z.ltb_spec y z),
    (Z.ltb_spec z y), (Z.ltb_spec x z), (Z.ltb_spec z x);
    try done; try lia.
  apply IH.
Qed.

Lemma repr_lt_trichotomy a b :
  repr_lt a b = false → repr_lt b a = false → a = b.
Proof.
  revert b. induction a as [|x a IH]; intros [|y b]; simpl; try done.
  destruct (Z.ltb_spec x y), (Z.ltb_spec y x); try done; try lia.
  intros Hab Hba. f_equal; [lia|by apply IH].
Qed.

Lemma map_find_set {V} (k k' : repr) (v : V) m :
  map_find k' (map_set k v m) = if decide (k = k') then Some v else map_find k' m.
Proof.
  induction m as [|[k1 w] m IH]; simpl.
  - destruct (decide (k = k')) as [->|Hne].
    + by rewrite bool_decide_eq_true_2.
    + by rewrite bool_decide_eq_false_2.
  - destruct (decide (k1 = k)) as [->|Hne1].
    + rewrite bool_decide_eq_true_2 by done. simpl.
      destruct (decide (k = k')) as [->|Hne].
      * by rewrite bool_decide_eq_true_2.
      * by rewrite bool_decide_eq_false_2.
    + rewrite (bool_decide_eq_false_2 (k1 = k)) by done.
      destruct (repr_lt k k1); simpl.
      * destruct (decide (k = k')) as [->|Hne].
        -- by rewrite bool_decide_eq_true_2.
        -- by rewrite (bool_decide_eq_false_2 (k = k')).
      * rewrite IH. destruct (decide (k = k')) as [->|Hne]; [|done].
        by rewrite bool_decide_eq_false_2.
Qed.

Lemma map_set_set {V} (k : repr) (v w : V) m :
  map_set k v (map_set k w m) = map_set k v m.
Proof.
  induction m as [|[k1 u] m IH]; simpl.
  - by rewrite bool_decide_eq_true_2.
  - destruct (decide (k1 = k)) as [->|Hne1].
    + rewrite bool_decide_eq_true_2 by done. simpl.
      by rewrite bool_decide_eq_true_2.
    + rewrite (bool_decide_eq_false_2 (k1 = k)) by done.
      destruct (repr_lt k k1) eqn:Hlt; simpl.
      * by rewrite bool_decide_eq_true_2.
      * rewrite (bool_decide_eq_false_2 (k1 = k)), Hlt by done.
        by rewrite IH.
Qed.

Lemma map_set_keys {V} (k k' : repr) (v : V) m :
  k' ∈ (map_set k v m).*1 ↔ k' = k ∨ k' ∈ m.*1.
Proof.
  induction m as [|[k1 w] m IH]; simpl.
  - rewrite list_elem_of_singleton, elem_of_nil. tauto.
  - destruct (decide (k1 = k)) as [->|Hne1].
    + rewrite bool_decide_eq_true_2 by done. simpl.
      rewrite !elem_of_cons. tauto.
    + rewrite (bool_decide_eq_false_2 (k1 = k)) by done.
      destruct (repr_lt k k1); simpl.
      * rewrite !elem_of_cons. tauto.
      * rewrite !elem_of_cons, IH. tauto.
Qed.

Lemma keys_sorted_set {V} (k : repr) (v : V) m :
  keys_sorted m → keys_sorted (map_set k v m).
Proof.
  unfold keys_sorted. induction m as [|[k1 w] m IH]; simpl; intros Hs.
  - repeat constructor.
  - apply StronglySorted_inv in Hs as [Hs Hall].
    destruct (decide (k1 = k)) as [->|Hne1].
    + rewrite bool_decide_eq_true_2 by done. simpl. by constructor.
    + rewrite (bool_decide_eq_false_2 (k1 = k)) by done.
      destruct (repr_lt k k1) eqn:Hlt; simpl.
      * constructor; [by constructor|]. constructor; [done|].
        eapply Forall_impl; [done|]. simpl. intros k2. by apply repr_lt_trans.
      * constructor; [by apply IH|].
        apply Forall_forall. intros k2 [->|Hk2]%map_set_keys.
        -- destruct (repr_lt k1 k) eqn:Hlt'; [done|].
           exfalso. apply Hne1. by apply repr_lt_trichotomy.
        -- rewrite Forall_forall in Hall. by apply Hall.
Qed.

Lemma keys_sorted_NoDup {V} (m : list (repr * V)) : keys_sorted m → NoDup (m.*1).
Proof.
  unfold keys_sorted. induction 1 as [|k ks Hs IH Hall]; constructor; [|done].
  intros Hin. rewrite Forall_forall in Hall. specialize (Hall k Hin).
  by rewrite repr_lt_irrefl in Hall.
Qed.

Lemma map_find_elem {V} (k : repr) (b : V) m :
  keys_sorted m → map_find k m = Some b ↔ (k, b) ∈ m.
Proof.
  intros Hs%keys_sorted_NoDup. induction m as [|[k1 w] m IH]; simpl.
  - rewrite elem_of_nil. done.
  - simpl in Hs. apply NoDup_cons in Hs as [Hnin Hs].
    rewrite elem_of_cons. destruct (decide (k1 = k)) as [->|Hne1].
    + rewrite bool_decide_eq_true_2 by done. split.
      * intros [= ->]. by left.
      * intros [[= ->]|Hin]; [done|]. exfalso. apply Hnin.
        apply list_elem_of_fmap. by exists (k, b).
    + rewrite bool_decide_eq_false_2 by done. rewrite IH by done.
      split; [by right|]. intros [[= -> ->]|?]; done.
Qed.

Lemma elem_of_map_set {V} (k k' : repr) (v b' : V) m :
  keys_sorted m →
  (k', b') ∈ map_set k v m ↔ (k', b') = (k, v) ∨ ((k', b') ∈ m ∧ k' ≠ k).
Proof.
  intros Hs. rewrite <- !map_find_elem by (done || by apply keys_sorted_set).
  rewrite map_find_set. destruct (decide (k = k')) as [->|Hne].
  - split; [intros [= ->]; by left|]. intros [[= ->]|[_ ?]]; done.
  - split; [intros ?; right; split; [done|congruence]|].
    intros [[= -> ->]|[? _]]; done.
Qed.

(** ** The loop that filters out identical graphs *)

Lemma Graph_eq_representation g h :
  Graph_eq g h = true → representation g = representation h.
Proof. by intros [? _]%Graph_eq_spec. Qed.

Lemma unique_step_None m x :
  map_find (getRepresentation x) m = None →
  unique_step m x = map_set (representation x) [x] m.
Proof.
  intros Hf. unfold unique_step. rewrite Hf.
  rewrite map_find_set, decide_True by done. simpl.
  apply map_set_set.
Qed.

Lemma unique_inv_nil : unique_inv [] [].
Proof.
  split.
  - constructor.
  - intros k b u []%elem_of_nil.
  - intros k b []%elem_of_nil.
  - intros g []%elem_of_nil.
Qed.

Lemma unique_inv_step seen m x :
  unique_inv seen m →
  Graph_eq x x = true →
  (∀ u, u ∈ seen → Graph_eq u x = false → Graph_eq x u = false) →
  unique_inv (seen ++ [x]) (unique_step m x).
Proof.
  intros [Hs Hrep Hnd Hc] Hrefl Hsym.
  pose proof (λ k k' v b', proj1 (elem_of_map_set k k' v b' m Hs)) as Hel.
  destruct (map_find (getRepresentation x) m) as [b|] eqn:Hf.
  - unfold unique_step. rewrite Hf.
    pose proof (proj1 (map_find_elem _ _ _ Hs) Hf) as Hb.
    destruct (existsb (λ u, Graph_eq u x) b) eqn:Hex; simpl.
    + (* an equal graph is retained already *)
      apply existsb_exists in Hex as (u & Hu%list_elem_of_In & Hux).
      split; [done| | |].
      * intros k b' u' Hk Hu'. destruct (Hrep k b' u' Hk Hu') as [? ?].
        split; [done|]. apply elem_of_app. by left.
      * done.
      * intros g [Hg| ->%list_elem_of_singleton]%elem_of_app; [by apply Hc|].
        by exists b, u.
    + (* a new representative joins the bucket *)
      assert (∀ u, u ∈ b → Graph_eq u x = false) as Hnone.
      { intros u Hu. destruct (Graph_eq u x) eqn:Hux; [|done].
        assert (existsb (λ u, Graph_eq u x) b = true); [|congruence].
        apply existsb_exists. exists u. by rewrite <- list_elem_of_In. }
      split.
      * by apply keys_sorted_set.
      * intros k b' u' [[= -> ->]|[Hk Hne]]%Hel Hu'.
        -- apply elem_of_app in Hu' as [Hu'| ->%list_elem_of_singleton].
           ++ destruct (Hrep _ _ _ Hb Hu'). split; [done|].
              apply elem_of_app. by left.
           ++ split; [done|]. apply elem_of_app. right. by left.
        -- destruct (Hrep k b' u' Hk Hu'). split; [done|].
           apply elem_of_app. by left.
      * intros k b' [[= -> ->]|[Hk Hne]]%Hel; [|by apply (Hnd k)].
        destruct (Hnd _ _ Hb) as [Hndb Heqb]. split.
        -- apply NoDup_app. split_and!; [done| |apply NoDup_singleton].
           intros u Hu ->%list_elem_of_singleton.
           rewrite (Hnone x Hu) in Hrefl. done.
        -- intros u u' [Hu| ->%list_elem_of_singleton]%elem_of_app
                       [Hu'| ->%list_elem_of_singleton]%elem_of_app Heq.
           ++ by apply Heqb.
           ++ by rewrite (Hnone u Hu) in Heq.
           ++ rewrite (Hsym u') in Heq; [done| |by apply Hnone].
              by destruct (Hrep _ _ _ Hb Hu').
           ++ done.
      * intros g Hg. rewrite map_find_set.
        destruct (decide (getRepresentation x = representation g)) as [Heq|Hne].
        -- apply elem_of_app in Hg as [Hg| ->%list_elem_of_singleton].
           ++ destruct (Hc g Hg) as (b' & u & Hfg & Hu & Hug).
              unfold getRepresentation in Heq. rewrite <- Heq in Hfg.
              unfold getRepresentation in Hf. rewrite Hf in Hfg.
              injection Hfg as <-.
              exists (b ++ [x]), u. split_and!; [done| |done].
              apply elem_of_app. by left.
           ++ exists (b ++ [x]), x. split_and!; [done| |done].
              apply elem_of_app. right. by left.
        -- apply elem_of_app in Hg as [Hg| ->%list_elem_of_singleton]; [|done].
           by apply Hc.
  - rewrite unique_step_None by done.
    assert (∀ b, (representation x, b) ∉ m) as Hfresh.
    { intros b Hb. apply (map_find_elem _ _ _ Hs) in Hb.
      unfold getRepresentation in Hf. congruence. }
    split.
    + by apply keys_sorted_set.
    + intros k b u [[= -> ->]|[Hk Hne]]%Hel Hu.
      * apply list_elem_of_singleton in Hu as ->. split; [done|].
        apply elem_of_app. right. by left.
      * destruct (Hrep k b u Hk Hu). split; [done|]. apply elem_of_app. by left.
    + intros k b [[= -> ->]|[Hk Hne]]%Hel; [|by apply (Hnd k)].
      split; [apply NoDup_singleton|].
      by intros u u' ->%list_elem_of_singleton ->%list_elem_of_singleton.
    + intros g Hg. rewrite map_find_set.
      apply elem_of_app in Hg as [Hg| ->%list_elem_of_singleton].
      * destruct (Hc g Hg) as (b & u & Hfg & Hu & Hug).
        rewrite decide_False; [by exists b, u|].
        intros Heq. rewrite <- Heq in Hfg. unfold getRepresentation in Hf.
        congruence.
      * rewrite decide_True by done. exists [x], x.
        split_and!; [done|by left|done].
Qed.

Lemma unique_inv_fold graphs : ∀ seen m,
  unique_inv seen m →
  (∀ x, x ∈ graphs → Graph_eq x x = true) →
  (∀ u x, u ∈ seen ++ graphs → x ∈ graphs →
          Graph_eq u x = false → Graph_eq x u = false) →
  unique_inv (seen ++ graphs) (fold_left unique_step graphs m).
Proof.
  induction graphs as [|x graphs IH]; intros seen m Hinv Hrefl Hsym.
  - by rewrite app_nil_r.
  - cbn [fold_left]. rewrite (cons_middle x seen graphs), (assoc_L (++)).
    apply IH.
    + apply unique_inv_step; [done|apply Hrefl; by left|].
      intros u Hu. apply Hsym; [|by left]. apply elem_of_app. by left.
    + intros y Hy. apply Hrefl. by right.
    + intros u y Hu Hy. apply Hsym; [|by right].
      by rewrite (cons_middle x seen graphs), (assoc_L (++)).
Qed.

Lemma elem_of_retained m u :
  u ∈ retained m ↔ ∃ k b, (k, b) ∈ m ∧ u ∈ b.
Proof.
  unfold retained. rewrite list_elem_of_bind. split.
  - intros ([k b] & Hu & Hkb). by exists k, b.
  - intros (k & b & Hkb & Hu). by exists (k, b).
Qed.

Lemma retained_NoDup seen m : unique_inv seen m → NoDup (retained m).
Proof.
  intros [Hs Hrep Hnd _]. apply keys_sorted_NoDup in Hs.
  unfold retained. induction m as [|[k b] m IH]; [constructor|].
  rewrite bind_cons. simpl in Hs. apply NoDup_cons in Hs as [Hk Hs].
  apply NoDup_app. split_and!.
  - apply (Hnd k b). by left.
  - intros u Hu ([k' b'] & Hu' & Hkb')%list_elem_of_bind. simpl in *.
    destruct (Hrep k b u ltac:(by left) Hu) as [Hr _].
    destruct (Hrep k' b' u ltac:(by right) Hu') as [Hr' _].
    apply Hk. apply list_elem_of_fmap. exists (k', b').
    split; [simpl; congruence|done].
  - apply IH; [done| |].
    + intros k' b' u Hkb. apply Hrep. by right.
    + intros k' b' Hkb. apply (Hnd k'). by right.
Qed.

(** What the loop leaves: each retained graph was in the list, every graph
    of the list is equal to a retained one, and no two retained graphs are
    equal. *)
Lemma unique_graphs_spec graphs :
  (∀ x, x ∈ graphs → Graph_eq x x = true) →
  (∀ u x, u ∈ graphs → x ∈ graphs →
          Graph_eq u x = false → Graph_eq x u = false) →
  let U := retained (fold_left unique_step graphs []) in
  NoDup U
  ∧ (∀ u, u ∈ U → u ∈ graphs)
  ∧ (∀ g, g ∈ graphs → ∃ u, u ∈ U ∧ Graph_eq u g = true)
  ∧ (∀ u u', u ∈ U → u' ∈ U → Graph_eq u u' = true → u = u').
Proof.
  intros Hrefl Hsym U.
  pose proof (unique_inv_fold graphs [] [] unique_inv_nil Hrefl Hsym) as Hinv.
  rewrite app_nil_l in Hinv. fold U in Hinv.
  split_and!.
  - by eapply retained_NoDup.
  - intros u (k & b & Hkb & Hu)%elem_of_retained.
    by destruct (uq_rep _ _ Hinv k b u Hkb Hu).
  - intros g Hg. destruct (uq_complete _ _ Hinv g Hg) as (b & u & Hf & Hu & Heq).
    exists u. split; [|done]. apply elem_of_retained.
    exists (representation g), b. split; [|done].
    by apply (map_find_elem _ _ _ (uq_sorted _ _ Hinv)).
  - intros u u' (k & b & Hkb & Hu)%elem_of_retained
                (k' & b' & Hkb' & Hu')%elem_of_retained Heq.
    destruct (uq_rep _ _ Hinv k b u Hkb Hu) as [Hr _].
    destruct (uq_rep _ _ Hinv k' b' u' Hkb' Hu') as [Hr' _].
    assert (k = k') as <-.
    { rewrite <- Hr, <- Hr'. by apply Graph_eq_representation. }
    assert (b' = b) as ->.
    { apply (map_find_elem _ _ _ (uq_sorted _ _ Hinv)) in Hkb, Hkb'.
      congruence. }
    by apply (uq_nodup _ _ Hinv k b Hkb).
Qed.

Lemma uniqueEdges_retained graphs :
  uniqueEdges graphs = getEdges <$> retained (fold_left unique_step graphs []).
Proof.
  unfold uniqueEdges.
  rewrite (fold_left_bind _ snd) by done.
  by rewrite fold_left_snoc_fmap.
Qed.

(** ** The phases of [generateEdges] *)

Lemma foldl_option_None {A B} (f : A → B → option A) (l : list B) :
  foldl (λ acc x, acc ← acc; f acc x) None l = None.
Proof. induction l as [|x l IH]; simpl; [done|apply IH]. Qed.

(** The second loop constructs one graph object per adjacency word and
    keeps the connected ones, in order. *)
Lemma connectedGraphs_spec fuel nodes df masks perms trius graphs :
  connectedGraphs fuel nodes trius df masks perms = Some graphs ↔
  ∃ gs, Forall2 (λ a g, Graph_new fuel nodes a df masks perms = Some g) trius gs
        ∧ graphs = filter (λ g, isConnected g = true) gs.
Proof.
  unfold connectedGraphs.
  assert (∀ acc,
    foldl (λ graphs t, graphs ← graphs;
             graph ← Graph_new fuel nodes t df masks perms;
             Some (if isConnected graph then graphs ++ [graph] else graphs))
      (Some acc) trius = Some graphs ↔
    ∃ gs, Forall2 (λ a g, Graph_new fuel nodes a df masks perms = Some g) trius gs
          ∧ graphs = acc ++ filter (λ g, isConnected g = true) gs) as H.
  { induction trius as [|a trius IH]; intros acc; simpl.
    - split.
      + intros [= <-]. exists []. split; [constructor|]. by rewrite app_nil_r.
      + intros (gs & ->%Forall2_nil_inv_l & ->). by rewrite app_nil_r.
    - destruct (Graph_new fuel nodes a df masks perms) as [g|] eqn:Hg; simpl.
      + rewrite IH. split.
        * intros (gs & Hgs & ->). exists (g :: gs). split; [by constructor|].
          rewrite filter_cons. destruct (isConnected g) eqn:Hc.
          -- rewrite decide_True by done. by rewrite <- (assoc_L (++)).
          -- rewrite decide_False by done. done.
        * intros (gs' & Hgs & ->).
          apply Forall2_cons_inv_l in Hgs as (g' & gs & Hg' & Hgs & ->).
          simplify_eq. exists gs. split; [done|].
          rewrite filter_cons. destruct (isConnected g) eqn:Hc.
          -- rewrite decide_True by done. by rewrite <- (assoc_L (++)).
          -- rewrite decide_False by done. done.
      + rewrite foldl_option_None. split; [done|].
        intros (gs' & Hgs & _).
        apply Forall2_cons_inv_l in Hgs as (g' & gs & Hg' & _). congruence. }
  apply H.
Qed.

Lemma map_set_incl {V} (k k' : repr) (v b' : V) m :
  (k', b') ∈ map_set k v m → (k', b') = (k, v) ∨ (k', b') ∈ m.
Proof.
  induction m as [|[k1 w] m IH]; simpl.
  - intros ->%list_elem_of_singleton. by left.
  - destruct (bool_decide (k1 = k)) eqn:Hk1.
    + apply bool_decide_eq_true in Hk1 as ->.
      intros [->|?]%elem_of_cons; [by left|right; by right].
    + destruct (repr_lt k k1).
      * intros [->|?]%elem_of_cons; [by left|by right].
      * intros [->|[->|?]%IH]%elem_of_cons; [right; by left|by left|].
        right. by right.
Qed.

Lemma map_find_incl {V} (k : repr) (b : V) m :
  map_find k m = Some b → (k, b) ∈ m.
Proof.
  induction m as [|[k1 w] m IH]; simpl; [done|].
  destruct (bool_decide (k1 = k)) eqn:Hk1.
  - apply bool_decide_eq_true in Hk1 as ->. intros [= ->]. by left.
  - intros ?%IH. by right.
Qed.

Lemma retained_step m x u :
  u ∈ retained (unique_step m x) → u ∈ retained m ∨ u = x.
Proof.
  rewrite !elem_of_retained. unfold unique_step.
  destruct (map_find (getRepresentation x) m) as [b|] eqn:Hf.
  - destruct (existsb _ b); simpl; [by left|].
    intros (k & b' & [[= -> ->]|Hkb]%map_set_incl & Hu).
    + apply elem_of_app in Hu as [Hu| ->%list_elem_of_singleton]; [|by right].
      left. exists (getRepresentation x), b. split; [|done].
      by apply map_find_incl.
    + left. by exists k, b'.
  - rewrite map_find_set, decide_True by done. simpl.
    intros (k & b' & [[= -> ->]|[[= -> ->]|Hkb]%map_set_incl]%map_set_incl & Hu).
    + apply list_elem_of_singleton in Hu. by right.
    + by apply elem_of_nil in Hu.
    + left. by exists k, b'.
Qed.

Lemma retained_fold graphs : ∀ m u,
  u ∈ retained (fold_left unique_step graphs m) → u ∈ retained m ∨ u ∈ graphs.
Proof.
  induction graphs as [|x graphs IH]; intros m u; cbn [fold_left].
  - by left.
  - intros [[?| ->]%retained_step|?]%IH; [by left|right; by left|right; by right].
Qed.

(** Every edge list [generateEdges] returns is the edge list of a graph
    object of the call that is flagged connected and whose adjacency word
    passed the degree check. *)
Lemma generateEdges_sound fuel nodes maxDegree minDegree out edges :
  (2 ≤ length nodes ≤ 11)%nat →
  generateEdges fuel nodes maxDegree minDegree = Some out →
  edges ∈ out →
  ∃ table a g,
    permutationTable fuel nodes = Some table
    ∧ 0 ≤ a < 2 ^ Z.of_nat (triuSize (length nodes))
    ∧ checkDegrees a (calculateDegreeFilter (length nodes)) (length nodes)
        maxDegree minDegree = true
    ∧ candidate fuel nodes table a g
    ∧ isConnected g = true
    ∧ edges = getEdges g.
Proof.
  intros Hn. unfold generateEdges.
  destruct (candidates fuel _ _ _) as [trius|] eqn:Hc; [|done]. simpl.
  destruct (permutationTable fuel nodes) as [table|] eqn:Ht; [|done]. simpl.
  destruct (connectedGraphs fuel _ _ _ _ _) as [graphs|] eqn:Hg; [|done]. simpl.
  intros [= <-]. rewrite uniqueEdges_retained.
  intros (u & -> & Hu)%list_elem_of_fmap.
  apply candidates_sound in Hc; [|done].
  apply connectedGraphs_spec in Hg as (gs & Hgs & ->).
  apply retained_fold in Hu as [[]%elem_of_nil|Hu].
  apply list_elem_of_filter in Hu as [Hcon Hu].
  apply list_elem_of_lookup in Hu as [i Hi].
  destruct (Forall2_lookup_r _ _ _ _ _ Hgs Hi) as (a & Ha & Hnew).
  rewrite Forall_forall in Hc.
  destruct (Hc a) as [Hr Hd]; [by eapply list_elem_of_lookup_2|].
  by exists table, a, u.
Qed.

(** ** Connectivity of what is returned *)

Lemma joined_adjacent g u v : joined (getEdges g) u v ↔ adjacent g u v.
Proof.
  unfold joined, adjacent. rewrite !elem_of_getEdges. split.
  - intros [[? ?]|[? He]]; [split_and!; (done || lia)|].
    rewrite isEdge_sym in He. split_and!; (done || lia).
  - intros (Hu & Hv & He). destruct (lt_eq_lt_dec u v) as [[?| ->]|?].
    + left. split; [lia|done].
    + by rewrite isEdge_irrefl in He.
    + right. rewrite isEdge_sym. split; [lia|done].
Qed.

Lemma edges_connected_graph g :
  edges_connected (nNodes g) (getEdges g) ↔ connected_graph g.
Proof.
  unfold edges_connected, connected_graph.
  assert (∀ u v, rtc (joined (getEdges g)) u v ↔ rtc (adjacent g) u v) as H.
  { intros u v. split; apply rtc_subrel; intros x y; by apply joined_adjacent. }
  by setoid_rewrite H.
Qed.

Lemma checkConnected_fuel_mono fuel fuel' g g' :
  (fuel ≤ fuel')%nat →
  checkConnected fuel g = Some g' → checkConnected fuel' g = Some g'.
Proof.
  unfold checkConnected. intros Hf.
  destruct (while fuel _ _ _) as [s|] eqn:Hw; [|done].
  by rewrite (while_fuel_mono _ _ _ _ _ _ Hf Hw).
Qed.

(** The flag of a graph object of the call. *)
Lemma candidate_connected fuel colors table a g :
  (2 ≤ length colors ≤ 11)%nat →
  0 ≤ a < 2 ^ Z.of_nat (triuSize (length colors)) →
  candidate fuel colors table a g →
  isConnected g = true ↔ connected_graph g.
Proof.
  intros Hn Ha (b & -> & Hc)%candidate_inv.
  set (g0 := mkGraph (length colors) colors [] false a _ _ table) in *.
  assert (graph_ok g0) as Hg0 by (split; done).
  destruct (checkConnected_spec g0 (fuel `max` length colors) Hg0)
    as (b' & Hc' & Hb'); [unfold g0; simpl; lia|].
  rewrite (checkConnected_fuel_mono fuel (fuel `max` length colors) _ _
             ltac:(lia) Hc) in Hc'.
  injection Hc' as <-. unfold isConnected. simpl. rewrite Hb'.
  unfold connected_graph, adjacent, isEdge. simpl. done.
Qed.

Lemma candidate_exists fuel colors table a :
  (2 ≤ length colors ≤ 11)%nat →
  0 ≤ a < 2 ^ Z.of_nat (triuSize (length colors)) →
  (length colors ≤ fuel)%nat →
  ∃ g, candidate fuel colors table a g.
Proof.
  intros Hn Ha Hf. unfold candidate, Graph_new.
  set (g0 := mkGraph (length colors) colors [] false a _ _ table).
  assert (graph_ok g0) as Hg0 by (split; done).
  destruct (checkConnected_spec g0 fuel Hg0) as (b' & -> & _); [done|].
  simpl. eauto.
Qed.

Local Open Scope Z_scope.

(** ** The next word with the same number of set bits *)

(** The bits of a word split at position [k]. *)
Lemma testbit_split x a k i :
  0 ≤ k → 0 ≤ a < 2 ^ k → 0 ≤ i →
  Z.testbit (x * 2 ^ k + a) i
  = if i <? k then Z.testbit a i else Z.testbit x (i - k).
Proof.
  intros Hk Ha Hi. destruct (Z.ltb_spec i k) as [Hlt|Hge].
  - rewrite <- (Z.mod_pow2_bits_low (x * 2 ^ k + a) k i) by lia.
    f_equal. rewrite Z.add_comm, Z.mod_add by lia. apply Z.mod_small. lia.
  - replace i with (i - k + k) at 1 by lia.
    rewrite <- Z.div_pow2_bits by lia. f_equal.
    rewrite Z.div_add_l, Z.div_small by lia. lia.
Qed.

Lemma testbit_above x k i : 0 ≤ x < 2 ^ k → k ≤ i → Z.testbit x i = false.
Proof.
  intros Hx Hi. destruct (decide (0 ≤ k)) as [Hk|Hk].
  - pose proof (testbit_split 0 x k i Hk Hx ltac:(lia)) as H.
    rewrite Z.mul_0_l, Z.add_0_l in H.
    rewrite H, (proj2 (Z.ltb_ge i k)) by lia.
    apply Z.bits_0.
  - rewrite Z.pow_neg_r in Hx by lia. lia.
Qed.

Lemma testbit_pred_pow2 k i : 0 ≤ k → 0 ≤ i → Z.testbit (2 ^ k - 1) i = (i <? k).
Proof.
  intros Hk Hi. rewrite <- Z.testbit_ones_nonneg by lia.
  f_equal. rewrite Z.ones_equiv. lia.
Qed.

(** The complement within [n] bits. *)
Lemma testbit_complement a n i :
  0 ≤ n → 0 ≤ a < 2 ^ n → 0 ≤ i →
  Z.testbit (2 ^ n - 1 - a) i = (i <? n) && negb (Z.testbit a i).
Proof.
  intros Hn Ha Hi.
  assert (2 ^ n - 1 - a = Z.lnot a mod 2 ^ n) as ->.
  { unfold Z.lnot. apply (Z.mod_unique_pos _ _ (-1)); lia. }
  rewrite Z.testbit_mod_pow2, Z.lnot_spec by lia. done.
Qed.

Lemma not64_sub t : 0 ≤ t < 2 ^ 64 → not64 t = 2 ^ 64 - 1 - t.
Proof.
  intros Ht. unfold not64. apply Z.bits_inj'. intros i Hi.
  rewrite Z.lxor_spec, testbit_complement, testbit_pred_pow2 by lia.
  destruct (Z.ltb_spec i 64) as [Hlt|Hge].
  - by destruct (Z.testbit t i).
  - by rewrite (testbit_above t 64 i) by lia.
Qed.

(** A word and a low part that fits below it do not overlap. *)
Lemma lor_disjoint x a k :
  0 ≤ k → 0 ≤ a < 2 ^ k → Z.lor (x * 2 ^ k) a = x * 2 ^ k + a.
Proof.
  intros Hk Ha. apply Z.bits_inj'. intros i Hi.
  rewrite Z.lor_spec, (testbit_split x a k i) by lia.
  replace (x * 2 ^ k) with (x * 2 ^ k + 0) by lia.
  rewrite (testbit_split x 0 k i) by lia. rewrite Z.bits_0.
  destruct (Z.ltb_spec i k); simpl; [done|].
  rewrite (testbit_above a k i) by lia. apply orb_false_r.
Qed.

(** [v | (v - 1)] fills the zeros below the lowest set bit. *)
Lemma lor_pred q z :
  0 ≤ z →
  Z.lor (q * 2 ^ (z + 1) + 2 ^ z) (q * 2 ^ (z + 1) + 2 ^ z - 1)
  = q * 2 ^ (z + 1) + (2 ^ (z + 1) - 1).
Proof.
  intros Hz.
  assert (0 < 2 ^ z) as Hp by (apply Z.pow_pos_nonneg; lia).
  assert (2 ^ (z + 1) = 2 * 2 ^ z) as Hs by (rewrite Z.pow_add_r; lia).
  apply Z.bits_inj'. intros i Hi. rewrite Z.lor_spec.
  replace (q * 2 ^ (z + 1) + 2 ^ z - 1)
    with (q * 2 ^ (z + 1) + (2 ^ z - 1)) by lia.
  rewrite !testbit_split by lia.
  destruct (Z.ltb_spec i (z + 1)) as [Hlt|Hge]; [|apply orb_diag].
  rewrite !testbit_pred_pow2, Z.pow2_bits_eqb by lia.
  destruct (Z.eqb_spec z i), (Z.ltb_spec i z), (Z.ltb_spec i (z + 1)); simpl; lia || done.
Qed.

(** [x & -x] is the lowest set bit of [x]. *)
Lemma land_neg g K :
  0 ≤ K → 0 ≤ g → (2 * g + 1) * 2 ^ K < 2 ^ 64 →
  Z.land ((2 * g + 1) * 2 ^ K) (2 ^ 64 - (2 * g + 1) * 2 ^ K) = 2 ^ K.
Proof.
  intros HK Hg Hlt.
  assert (0 < 2 ^ K) as Hp by (apply Z.pow_pos_nonneg; lia).
  assert (K < 64) as HK64.
  { destruct (decide (K < 64)); [done|].
    assert (2 ^ 64 ≤ 2 ^ K) by (apply Z.pow_le_mono_r; lia). nia. }
  assert (2 ^ 64 = 2 * 2 ^ (63 - K) * 2 ^ K) as H64.
  { rewrite <- Z.mul_assoc, <- Z.pow_add_r by lia.
    replace 64 with (Z.succ (63 - K + K)) by lia.
    rewrite Z.pow_succ_r; lia. }
  assert (0 < 2 ^ (63 - K)) as Hp' by (apply Z.pow_pos_nonneg; lia).
  assert (g < 2 ^ (63 - K)) as Hgb by nia.
  replace (2 ^ 64 - (2 * g + 1) * 2 ^ K)
    with ((2 * (2 ^ (63 - K) - 1 - g) + 1) * 2 ^ K + 0) by lia.
  replace ((2 * g + 1) * 2 ^ K) with ((2 * g + 1) * 2 ^ K + 0) at 1 by lia.
  apply Z.bits_inj'. intros i Hi.
  rewrite Z.land_spec, !testbit_split, Z.pow2_bits_eqb by lia.
  destruct (Z.ltb_spec i K) as [Hlt'|Hge].
  { rewrite Z.bits_0. by rewrite (proj2 (Z.eqb_neq K i)) by lia. }
  destruct (Z.eqb_spec K i) as [->|Hne].
  { rewrite Z.sub_diag, !Z.testbit_odd_0. done. }
  replace (i - K) with (Z.succ (i - K - 1)) by lia.
  rewrite !Z.testbit_odd_succ by lia.
  rewrite testbit_complement by lia.
  destruct (Z.testbit g (i - K - 1)); simpl; [apply andb_false_r|done].
Qed.

Lemma shiftr_pred_pow2 K s :
  0 ≤ s ≤ K → Z.shiftr (2 ^ K - 1) s = 2 ^ (K - s) - 1.
Proof.
  intros Hs. rewrite Z.shiftr_div_pow2 by lia.
  assert (0 < 2 ^ s) as Hp by (apply Z.pow_pos_nonneg; lia).
  assert (2 ^ K = 2 ^ (K - s) * 2 ^ s) as ->.
  { rewrite <- Z.pow_add_r by lia. f_equal. lia. }
  replace (2 ^ (K - s) * 2 ^ s - 1)
    with ((2 ^ (K - s) - 1) * 2 ^ s + (2 ^ s - 1)) by lia.
  rewrite Z.div_add_l, Z.div_small by lia. lia.
Qed.

Lemma ctzll_double x : 0 < x → ctzll (2 * x) = 1 + ctzll x.
Proof. destruct x as [|p|p]; simpl; intros; done || lia. Qed.

Lemma ctzll_odd x : 0 ≤ x → ctzll (2 * x + 1) = 0.
Proof. destruct x as [|p|p]; simpl; intros; done || lia. Qed.

Lemma ctzll_shift (z : nat) g :
  0 ≤ g → ctzll ((2 * g + 1) * 2 ^ Z.of_nat z) = Z.of_nat z.
Proof.
  intros Hg. induction z as [|z IH].
  - simpl. rewrite Z.mul_1_r. by apply ctzll_odd.
  - rewrite Nat2Z.inj_succ, Z.pow_succ_r by lia.
    assert (0 < 2 ^ Z.of_nat z) by (apply Z.pow_pos_nonneg; lia).
    replace ((2 * g + 1) * (2 * 2 ^ Z.of_nat z))
      with (2 * ((2 * g + 1) * 2 ^ Z.of_nat z)) by lia.
    rewrite ctzll_double by nia. lia.
Qed.

(** The closed form of [nextBitPermutation]: on a word that ends in a block
    of [m] ones followed by [z] zeros, with a zero above the block, the
    block's top bit moves up by one and the rest of the block drops to the
    bottom. *)
Lemma nextBitPermutation_closed h z m :
  0 ≤ h → 0 ≤ z → 1 ≤ m →
  2 * h * 2 ^ (z + m) + (2 ^ m - 1) * 2 ^ z < 2 ^ 63 →
  nextBitPermutation (2 * h * 2 ^ (z + m) + (2 ^ m - 1) * 2 ^ z)
  = (2 * h + 1) * 2 ^ (z + m) + (2 ^ (m - 1) - 1).
Proof.
  intros Hh Hz Hm Hv.
  assert (0 < 2 ^ z) as HA by (apply Z.pow_pos_nonneg; lia).
  assert (0 < 2 ^ (m - 1)) as HB by (apply Z.pow_pos_nonneg; lia).
  assert (2 ^ (z + 1) = 2 * 2 ^ z) as Hz1 by (rewrite Z.pow_add_r; lia).
  assert (2 ^ m = 2 * 2 ^ (m - 1)) as Hm1.
  { replace m with (Z.succ (m - 1)) at 1 by lia. rewrite Z.pow_succ_r; lia. }
  assert (2 ^ (z + m) = 2 * 2 ^ z * 2 ^ (m - 1)) as Hzm.
  { rewrite Z.pow_add_r, Hm1 by lia. lia. }
  assert (2 ^ (m - 1) ≤ 2 ^ (z + m)) as HBK by (apply Z.pow_le_mono_r; lia).
  set (q := (2 * h + 1) * 2 ^ (m - 1) - 1).
  assert (0 ≤ q) as Hq by (unfold q; nia).
  set (v := 2 * h * 2 ^ (z + m) + (2 ^ m - 1) * 2 ^ z) in *.
  assert (v = q * 2 ^ (z + 1) + 2 ^ z) as Hvq by (unfold v, q; nia).
  assert (v = (2 * q + 1) * 2 ^ z) as Hvz by (unfold v, q; nia).
  assert (ctzll v = z) as Hctz.
  { rewrite Hvz, <- (Z2Nat.id z) by lia. apply ctzll_shift. lia. }
  set (X := (2 * h + 1) * 2 ^ (z + m)).
  assert (X = v + 2 ^ z) as HX by (unfold X, v; nia).
  unfold nextBitPermutation. rewrite Hctz.
  rewrite (wrap64_small (v - 1)) by lia.
  assert (Z.lor v (v - 1) = X - 1) as ->.
  { rewrite Hvq at 1 2. rewrite lor_pred by lia. unfold X, q. nia. }
  replace (X - 1 + 1) with X by lia.
  rewrite (wrap64_small X) by lia.
  rewrite not64_sub by lia.
  replace (2 ^ 64 - 1 - (X - 1)) with (2 ^ 64 - X) by lia.
  assert (neg64 (2 ^ 64 - X) = X) as ->.
  { unfold neg64, wrap64. symmetry. apply (Z.mod_unique_pos _ _ (-1)); lia. }
  rewrite Z.land_comm. unfold X at 1 2.
  rewrite land_neg by (fold X; lia).
  rewrite wrap64_small by (split; [lia|fold X in HX; nia]).
  rewrite shiftr_pred_pow2 by lia.
  replace (z + m - (z + 1)) with (m - 1) by lia.
  unfold X. apply lor_disjoint; lia.
Qed.

(** Every positive word ends in a block of ones followed by zeros. *)
Lemma block_form v :
  0 < v →
  ∃ h z m, 0 ≤ h ∧ 0 ≤ z ∧ 1 ≤ m
           ∧ v = 2 * h * 2 ^ (z + m) + (2 ^ m - 1) * 2 ^ z.
Proof.
  destruct v as [|p|p]; [lia| |lia]. intros _.
  induction p as [p IH|p IH|].
  - destruct IH as (h & z & m & Hh & Hz & Hm & Hv).
    assert (0 < 2 ^ z) as HA by (apply Z.pow_pos_nonneg; lia).
    assert (0 < 2 ^ m) as HB by (apply Z.pow_pos_nonneg; lia).
    destruct (decide (z = 0)) as [->|Hz0].
    + exists h, 0, (m + 1). split_and!; [lia..|].
      rewrite Pos2Z.inj_xI, Hv. rewrite !Z.add_0_l, Z.pow_0_r.
      rewrite (Z.pow_add_r 2 m 1) by lia. lia.
    + exists (h * 2 ^ (z + m) + (2 ^ m - 1) * 2 ^ (z - 1)), 0, 1.
      assert (0 < 2 ^ (z - 1)) by (apply Z.pow_pos_nonneg; lia).
      assert (2 ^ z = 2 * 2 ^ (z - 1)) as Hz1.
      { replace z with (Z.succ (z - 1)) at 1 by lia.
        rewrite Z.pow_succ_r; lia. }
      assert (0 < 2 ^ (z + m)) by (apply Z.pow_pos_nonneg; lia).
      split_and!; [nia|lia|lia|].
      rewrite Pos2Z.inj_xI, Hv. change (2 ^ (0 + 1)) with 2.
      change (2 ^ 1) with 2. rewrite Z.pow_0_r. lia.
  - destruct IH as (h & z & m & Hh & Hz & Hm & Hv).
    exists h, (z + 1), m. split_and!; [lia..|].
    rewrite Pos2Z.inj_xO, Hv.
    replace (z + 1 + m) with (Z.succ (z + m)) by lia.
    replace (z + 1) with (Z.succ z) by lia.
    rewrite !Z.pow_succ_r by lia. lia.
  - exists 0, 0, 1. split_and!; [lia..|]. done.
Qed.

Lemma popcountll_split (k : nat) : ∀ x a,
  0 ≤ x → 0 ≤ a < 2 ^ Z.of_nat k →
  popcountll (x * 2 ^ Z.of_nat k + a) = popcountll x + popcountll a.
Proof.
  induction k as [|k IH]; intros x a Hx Ha.
  - assert (a = 0) as -> by (simpl in Ha; lia).
    simpl. by rewrite Z.mul_1_r, !Z.add_0_r.
  - rewrite Nat2Z.inj_succ, Z.pow_succ_r in * by lia.
    assert (0 < 2 ^ Z.of_nat k) by (apply Z.pow_pos_nonneg; lia).
    pose proof (Z.div_mod a 2 ltac:(lia)) as Hdm.
    pose proof (Z.mod_pos_bound a 2 ltac:(lia)) as Hm.
    rewrite (popcountll_div2 (x * _ + a)) by nia.
    rewrite (popcountll_div2 a) by lia.
    replace (x * (2 * 2 ^ Z.of_nat k) + a)
      with (a + (x * 2 ^ Z.of_nat k) * 2) by lia.
    rewrite Z.div_add, Z.mod_add by lia.
    rewrite (Z.add_comm (a / 2)), IH by lia. lia.
Qed.

Lemma popcountll_split' k x a :
  0 ≤ k → 0 ≤ x → 0 ≤ a < 2 ^ k →
  popcountll (x * 2 ^ k + a) = popcountll x + popcountll a.
Proof.
  intros Hk. rewrite <- (Z2Nat.id k) by lia. apply popcountll_split.
Qed.

Lemma popcountll_bound (k : nat) : ∀ a,
  0 ≤ a < 2 ^ Z.of_nat k →
  popcountll a ≤ Z.of_nat k
  ∧ (popcountll a = Z.of_nat k → a = 2 ^ Z.of_nat k - 1).
Proof.
  induction k as [|k IH]; intros a Ha.
  - assert (a = 0) as -> by (simpl in Ha; lia). done.
  - rewrite Nat2Z.inj_succ, Z.pow_succ_r in * by lia.
    pose proof (Z.div_mod a 2 ltac:(lia)) as Hdm.
    pose proof (Z.mod_pos_bound a 2 ltac:(lia)) as Hm.
    rewrite (popcountll_div2 a) by lia.
    destruct (IH (a / 2)) as [H1 H2]; [lia|]. split; [lia|].
    intros Heq. rewrite (H2 ltac:(lia)) in Hdm. lia.
Qed.

Lemma popcountll_pred_pow2 m : 0 ≤ m → popcountll (2 ^ m - 1) = m.
Proof.
  intros Hm. rewrite <- (Z2Nat.id m) by lia.
  induction (Z.to_nat m) as [|k IH]; [done|].
  rewrite Nat2Z.inj_succ, Z.pow_succ_r by lia.
  assert (0 < 2 ^ Z.of_nat k) by (apply Z.pow_pos_nonneg; lia).
  replace (2 * 2 ^ Z.of_nat k - 1) with (2 * (2 ^ Z.of_nat k - 1) + 1) by lia.
  rewrite popcountll_succ_double by lia. lia.
Qed.

Lemma popcountll_pos a : 0 < a → 0 < popcountll a.
Proof.
  destruct a as [|p|p]; [lia| |lia]. intros _. simpl.
  induction p; simpl; lia.
Qed.

(** [nextBitPermutation] gives the smallest larger word with the same number
    of set bits. *)
Lemma nextBitPermutation_next v :
  0 < v < 2 ^ 63 →
  v < nextBitPermutation v
  ∧ popcountll (nextBitPermutation v) = popcountll v
  ∧ ∀ w, v < w < nextBitPermutation v → popcountll w ≠ popcountll v.
Proof.
  intros [Hv0 Hv].
  destruct (block_form v Hv0) as (h & z & m & Hh & Hz & Hm & ->).
  rewrite nextBitPermutation_closed by done.
  assert (0 < 2 ^ z) as HA by (apply Z.pow_pos_nonneg; lia).
  assert (0 < 2 ^ (m - 1)) as HB by (apply Z.pow_pos_nonneg; lia).
  assert (2 ^ m = 2 * 2 ^ (m - 1)) as Hm1.
  { replace m with (Z.succ (m - 1)) at 1 by lia. rewrite Z.pow_succ_r; lia. }
  assert (2 ^ (z + m) = 2 ^ m * 2 ^ z) as Hzm.
  { rewrite Z.pow_add_r by lia. lia. }
  assert (2 ^ (m - 1) ≤ 2 ^ (z + m)) as HBK by (apply Z.pow_le_mono_r; lia).
  assert (popcountll (2 * h * 2 ^ (z + m) + (2 ^ m - 1) * 2 ^ z)
          = popcountll h + m) as Hpv.
  { rewrite popcountll_split' by nia.
    rewrite popcountll_double by lia.
    replace ((2 ^ m - 1) * 2 ^ z) with ((2 ^ m - 1) * 2 ^ z + 0) by lia.
    rewrite popcountll_split' by lia.
    rewrite popcountll_pred_pow2 by lia. simpl. lia. }
  rewrite Hpv. split_and!.
  - nia.
  - rewrite popcountll_split' by lia.
    rewrite popcountll_succ_double, popcountll_pred_pow2 by lia. lia.
  - intros w [Hw1 Hw2].
    destruct (decide (w < (2 * h + 1) * 2 ^ (z + m))) as [Hlt|Hge].
    + set (s := w - 2 * h * 2 ^ (z + m) - (2 ^ m - 1) * 2 ^ z).
      assert (0 < s < 2 ^ z) as Hs by (unfold s; nia).
      replace w with (2 * h * 2 ^ (z + m) + ((2 ^ m - 1) * 2 ^ z + s))
        by (unfold s; lia).
      rewrite popcountll_split' by nia.
      rewrite popcountll_double by lia.
      rewrite popcountll_split' by lia.
      rewrite popcountll_pred_pow2 by lia.
      pose proof (popcountll_pos s ltac:(lia)). lia.
    + set (r := w - (2 * h + 1) * 2 ^ (z + m)).
      assert (0 ≤ r < 2 ^ (m - 1) - 1) as Hr by (unfold r; lia).
      replace w with ((2 * h + 1) * 2 ^ (z + m) + r) by (unfold r; lia).
      rewrite popcountll_split' by lia.
      rewrite popcountll_succ_double by lia.
      destruct (popcountll_bound (Z.to_nat (m - 1)) r) as [H1 H2];
        rewrite ?Z2Nat.id in * by lia; [lia|].
      intros Heq. specialize (H2 ltac:(lia)). lia.
Qed.

Lemma ctzll_nonneg x : 0 ≤ ctzll x.
Proof.
  destruct x as [|p|p]; simpl; try lia. induction p; simpl; lia.
Qed.

Lemma nextBitPermutation_word v : 0 ≤ nextBitPermutation v < 2 ^ 64.
Proof.
  split; [apply nextBitPermutation_nonneg|].
  assert (∀ x, 0 ≤ wrap64 x < 2 ^ 64) as Hw
    by (intros x; apply Z.mod_pos_bound; lia).
  apply bits_bound; [lia|apply nextBitPermutation_nonneg|].
  intros b Hb. unfold nextBitPermutation.
  pose proof (ctzll_nonneg v).
  rewrite Z.lor_spec, Z.shiftr_spec by lia.
  rewrite (testbit_above (wrap64 _) 64 b) by (apply Hw || lia).
  rewrite (testbit_above (wrap64 _) 64) by (apply Hw || lia). done.
Qed.

Local Open Scope Z_scope.

(** ** The enumeration is exact *)

(** A loop whose body decreases a measure while the invariant holds ends
    within as many rounds as the measure says. *)
Lemma while_terminates {S} (P : S → Prop) (mu : S → nat) (cond : S → bool)
    (body : S → S) :
  (∀ s, P s → cond s = true → P (body s) ∧ (mu (body s) < mu s)%nat) →
  ∀ fuel s, P s → (mu s ≤ fuel)%nat → ∃ s', while fuel cond body s = Some s'.
Proof.
  intros Hstep. induction fuel as [|fuel IH]; intros s HP Hmu; simpl.
  - destruct (cond s) eqn:Hc; [|by eexists].
    destruct (Hstep s HP Hc). lia.
  - destruct (cond s) eqn:Hc; [|by eexists].
    destruct (Hstep s HP Hc). apply IH; [done|lia].
Qed.

(** The largest [T]-bit word with [c] set bits has them at the top. *)
Lemma popcountll_max (T : nat) : ∀ a c,
  0 ≤ a < 2 ^ Z.of_nat T → popcountll a = c →
  c ≤ Z.of_nat T ∧ a ≤ (2 ^ c - 1) * 2 ^ (Z.of_nat T - c).
Proof.
  induction T as [|T IH]; intros a c Ha Hc.
  - assert (a = 0) as -> by (simpl in Ha; lia). subst c. simpl. lia.
  - rewrite Nat2Z.inj_succ, Z.pow_succ_r in Ha by lia.
    pose proof (Z.div_mod a 2 ltac:(lia)) as Hdm.
    pose proof (Z.mod_pos_bound a 2 ltac:(lia)) as Hm.
    pose proof (popcountll_nonneg (a / 2)) as Hnn.
    rewrite (popcountll_div2 a) in Hc by lia.
    destruct (IH (a / 2) (c - a mod 2)) as [H1 H2]; [lia|lia|].
    rewrite Nat2Z.inj_succ. split; [lia|].
    destruct (decide (a mod 2 = 0)) as [H0|H0].
    + rewrite H0, Z.sub_0_r in *.
      replace (Z.succ (Z.of_nat T) - c) with (Z.succ (Z.of_nat T - c)) by lia.
      rewrite Z.pow_succ_r by lia. nia.
    + assert (a mod 2 = 1) as H1' by lia. rewrite H1' in *.
      assert (0 < 2 ^ (c - 1)) by (apply Z.pow_pos_nonneg; lia).
      assert (0 < 2 ^ (Z.succ (Z.of_nat T) - c))
        by (apply Z.pow_pos_nonneg; lia).
      assert (2 ^ c = 2 * 2 ^ (c - 1)) as Hc1.
      { replace c with (Z.succ (c - 1)) at 1 by lia.
        rewrite Z.pow_succ_r; lia. }
      replace (Z.of_nat T - (c - 1)) with (Z.succ (Z.of_nat T) - c) in H2
        by lia.
      nia.
Qed.

(** One shell of the enumeration: with enough fuel the loop ends, and it
    appends, without repetition, exactly the [T]-bit words with [i] set bits
    that pass the degree check. *)
Lemma shell_exact fuel df n maxDegree minDegree T trius i :
  1 ≤ i ≤ T → T ≤ 55 → 2 ^ T ≤ Z.of_nat fuel →
  ∃ new,
    shell fuel df n maxDegree minDegree T trius i = Some (trius ++ new)
    ∧ NoDup new
    ∧ ∀ a, a ∈ new ↔
           0 ≤ a < 2 ^ T ∧ popcountll a = i
           ∧ checkDegrees a df n maxDegree minDegree = true.
Proof.
  intros Hi HT Hfuel. unfold shell.
  destruct (shell_bounds T i ltac:(lia) HT) as [-> ->].
  set (e := (2 ^ i - 1) * 2 ^ (T - i)).
  assert (0 < 2 ^ i) as Hpi by (apply Z.pow_pos_nonneg; lia).
  assert (0 < 2 ^ (T - i)) as Hpt by (apply Z.pow_pos_nonneg; lia).
  assert (2 ^ T = 2 ^ i * 2 ^ (T - i)) as HTi.
  { rewrite <- Z.pow_add_r by lia. f_equal. lia. }
  assert (2 ^ T ≤ 2 ^ 55) as HT55 by (apply Z.pow_le_mono_r; lia).
  assert (2 ^ i - 1 ≤ e < 2 ^ T) as He by (unfold e; nia).
  set (cond := λ s : triu * list triu, s.1 <=? e).
  set (body := λ s : triu * list triu,
         (nextBitPermutation s.1,
          if checkDegrees s.1 df n maxDegree minDegree
          then s.2 ++ [s.1] else s.2)).
  set (P := λ s : triu * list triu,
         0 < s.1 ∧ popcountll s.1 = i
         ∧ ∃ new, s.2 = trius ++ new ∧ NoDup new
             ∧ ∀ a, a ∈ new ↔
                    0 ≤ a < s.1 ∧ a ≤ e ∧ popcountll a = i
                    ∧ checkDegrees a df n maxDegree minDegree = true).
  set (mu := λ s : triu * list triu, Z.to_nat (e + 1 - s.1)).
  assert (∀ s, P s → cond s = true →
               P (body s) ∧ (mu (body s) < mu s)%nat) as Hstep.
  { intros [v acc] HP Hc.
    unfold cond, body, mu, P in *. cbn [fst snd] in *.
    destruct HP as (Hv0 & Hpc & new & -> & Hnd & Hnew).
    apply Z.leb_le in Hc.
    destruct (nextBitPermutation_next v ltac:(lia)) as (Hlt & Hpc' & Hmin).
    split; [|lia]. split_and!; [lia|congruence|].
    destruct (checkDegrees v df n maxDegree minDegree) eqn:Hcd.
    - exists (new ++ [v]). split_and!.
      + by rewrite app_assoc.
      + apply NoDup_app. split_and!; [done| |apply NoDup_singleton].
        intros a Ha ->%list_elem_of_singleton. apply Hnew in Ha. lia.
      + intros a. rewrite elem_of_app, list_elem_of_singleton, Hnew. split.
        * intros [(? & ? & ? & ?)| ->]; split_and!; done || lia.
        * intros (Ha1 & Ha2 & Ha3 & Ha4).
          destruct (decide (a < v)); [left; split_and!; done || lia|].
          destruct (decide (a = v)); [by right|].
          destruct (Hmin a); [lia|congruence].
    - exists new. split_and!; [done..|].
      intros a. rewrite Hnew. split.
      + intros (? & ? & ? & ?). split_and!; done || lia.
      + intros (Ha1 & Ha2 & Ha3 & Ha4).
        destruct (decide (a < v)); [split_and!; done || lia|].
        destruct (decide (a = v)); [congruence|].
        destruct (Hmin a); [lia|congruence]. }
  assert (P (2 ^ i - 1, trius)) as HP0.
  { unfold P. cbn [fst snd].
    assert (2 ≤ 2 ^ i).
    { change 2 with (2 ^ 1) at 1. apply Z.pow_le_mono_r; lia. }
    split_and!; [lia|apply popcountll_pred_pow2; lia|].
    exists []. split_and!; [by rewrite app_nil_r|constructor|].
    intros a. split; [by intros ?%elem_of_nil|].
    intros (Ha1 & _ & Ha3 & _).
    destruct (popcountll_bound (Z.to_nat i) a) as [_ H2];
      rewrite ?Z2Nat.id in * by lia; [lia|].
    specialize (H2 Ha3). lia. }
  destruct (while_terminates P mu cond body Hstep fuel _ HP0) as [s Hw].
  { unfold mu. cbn [fst]. lia. }
  rewrite Hw. simpl.
  destruct (while_inv P cond body fuel (λ s HP Hc, proj1 (Hstep s HP Hc))
              _ _ HP0 Hw) as [(Hv0 & Hpc & new & Hacc & Hnd & Hnew) Hc].
  unfold cond in Hc. apply Z.leb_gt in Hc.
  exists new. split_and!; [by rewrite Hacc|done|].
  intros a. rewrite Hnew. split.
  - intros (? & ? & ? & ?). split_and!; done || lia.
  - intros (Ha1 & Ha2 & Ha3).
    destruct (popcountll_max (Z.to_nat T) a i) as [_ Hmax];
      rewrite ?Z2Nat.id in * by lia; [lia|done|].
    fold e in Hmax. split_and!; done || lia.
Qed.

Lemma shells_exact fuel df n maxDegree minDegree T (counts : list Z) :
  T ≤ 55 → 2 ^ T ≤ Z.of_nat fuel →
  Forall (λ i, 1 ≤ i ≤ T) counts → NoDup counts →
  ∀ acc, ∃ new,
    foldl (λ trius i,
             trius ← trius;
             shell fuel df n maxDegree minDegree T trius i)
          (Some acc) counts = Some (acc ++ new)
    ∧ NoDup new
    ∧ ∀ a, a ∈ new ↔
           0 ≤ a < 2 ^ T ∧ popcountll a ∈ counts
           ∧ checkDegrees a df n maxDegree minDegree = true.
Proof.
  intros HT Hfuel Hall Hnd.
  induction Hall as [|i counts Hi _ IH]; intros acc.
  - exists []. split_and!; [by rewrite app_nil_r|constructor|].
    intros a. split; [by intros ?%elem_of_nil|].
    by intros (_ & ?%elem_of_nil & _).
  - apply NoDup_cons in Hnd as [Hni Hnd].
    destruct (shell_exact fuel df n maxDegree minDegree T acc i Hi HT Hfuel)
      as (new1 & Hs & Hnd1 & Hnew1).
    destruct (IH Hnd (acc ++ new1)) as (new2 & Hf & Hnd2 & Hnew2).
    exists (new1 ++ new2). simpl. rewrite Hs. simpl. split_and!.
    + by rewrite Hf, app_assoc.
    + apply NoDup_app. split_and!; [done| |done].
      intros a (_ & Hp1 & _)%Hnew1 (_ & Hp2 & _)%Hnew2. congruence.
    + intros a. rewrite elem_of_app, Hnew1, Hnew2, elem_of_cons. split.
      * intros [(? & ? & ?)|(? & ? & ?)]; split_and!; auto; lia.
      * intros (? & [?|?] & ?); [left|right]; split_and!; auto; lia.
Qed.

Lemma checkDegrees_spec a df n maxDegree minDegree :
  checkDegrees a df n maxDegree minDegree = true ↔
  ∀ v, (v < n)%nat →
       minDegree ≤ popcountll (Z.land a (df !!! v)) ≤ maxDegree.
Proof.
  unfold checkDegrees. rewrite forallb_forall. split.
  - intros H v Hv.
    specialize (H v ltac:(apply list_elem_of_In, elem_of_seq; lia)).
    apply negb_true_iff, orb_false_iff in H as [H1%Z.ltb_ge H2%Z.ltb_ge].
    lia.
  - intros H v Hv%list_elem_of_In%elem_of_seq.
    apply negb_true_iff, orb_false_iff.
    rewrite !Z.ltb_ge. specialize (H v ltac:(lia)). lia.
Qed.

(** The enumeration phase, with the edge-count bound as the code computes
    it: with fuel [2^T] it ends, and the candidate list holds, once each,
    exactly the [T]-bit words whose number of set bits lies between [n - 1]
    and that bound and that pass the degree check. *)
Lemma candidates_spec fuel n maxDegree minDegree :
  (2 ≤ n ≤ 11)%nat → 2 ^ Z.of_nat (triuSize n) ≤ Z.of_nat fuel →
  ∃ trius,
    candidates fuel n maxDegree minDegree = Some trius
    ∧ NoDup trius
    ∧ ∀ a, a ∈ trius ↔
           0 ≤ a < 2 ^ Z.of_nat (triuSize n)
           ∧ Z.of_nat n - 1 ≤ popcountll a
             ≤ Z.min (wrap32 (Z.of_nat n * maxDegree) / 2)
                     (Z.of_nat (triuSize n))
           ∧ checkDegrees a (calculateDegreeFilter n) n maxDegree minDegree
             = true.
Proof.
  intros Hn Hfuel. unfold candidates. rewrite triuSize_wrap by done.
  pose proof (triuSize_le n Hn) as HT.
  rewrite (wrap32_small (Z.of_nat n - 1)) by lia.
  set (tmax := Z.min _ _).
  destruct (shells_exact fuel (calculateDegreeFilter n) n maxDegree minDegree
              (Z.of_nat (triuSize n))
              (seqZ (Z.of_nat n - 1) (tmax - (Z.of_nat n - 1) + 1)))
    with (acc := @nil triu) as (new & Hf & Hnd & Hnew).
  - lia.
  - done.
  - apply Forall_forall. intros i Hi%elem_of_seqZ. unfold tmax in Hi. lia.
  - apply NoDup_seqZ.
  - exists new. split_and!; [done..|].
    intros a. rewrite Hnew, elem_of_seqZ. fold tmax.
    split; intros (? & ? & ?); split_and!; done || lia.
Qed.

Local Open Scope nat_scope.

(** ** Counting edges *)

(** The degrees of a simple graph add up to twice the number of edges. *)
Lemma incidence_sum n edges :
  simple_graph n edges →
  sum_list_with (λ v, incidence v edges) (seq 0 n) = 2 * length edges.
Proof.
  intros [_ Hin]. induction edges as [|[i j] edges IH].
  - induction (seq 0 n) as [|x l IHl]; [done|].
    cbn [sum_list_with]. by rewrite IHl.
  - assert (i < j < n) as Hij by (apply Hin; left).
    specialize (IH (λ i j H, Hin i j (list_elem_of_further _ _ _ H))).
    cbn [length]. rewrite Nat.mul_succ_r, <- IH.
    assert (∀ l,
      sum_list_with (λ v, incidence v ((i, j) :: edges)) l
      = sum_list_with (λ v, incidence v edges) l
        + length (filter (λ v, v = i ∨ v = j) l)) as Hsum.
    { intros l. induction l as [|x l IHl]; [done|].
      cbn [sum_list_with]. rewrite IHl, filter_cons.
      unfold incidence at 1. rewrite filter_cons. cbn [fst snd].
      destruct (decide (i = x ∨ j = x)), (decide (x = i ∨ x = j));
        cbn [length]; unfold incidence; lia. }
    rewrite Hsum. f_equal.
    assert (filter (λ v, v = i ∨ v = j) (seq 0 n) ≡ₚ [i; j]) as ->; [|done].
    apply NoDup_Permutation.
    + apply NoDup_filter, NoDup_seq.
    + apply NoDup_cons. split; [|apply NoDup_singleton].
      rewrite list_elem_of_singleton. lia.
    + intros x. rewrite list_elem_of_filter, elem_of_seq, elem_of_cons,
        list_elem_of_singleton. lia.
Qed.

Lemma edges_upper_bound n minDegree maxDegree edges :
  simple_graph n edges → degree_bounded n minDegree maxDegree edges →
  (Z.of_nat (length edges) ≤ Z.of_nat n * maxDegree / 2)%Z.
Proof.
  intros Hs Hb. apply Z.div_le_lower_bound; [lia|].
  pose proof (incidence_sum n edges Hs) as Hsum.
  assert (∀ l, Forall (λ v, v < n) l →
    (Z.of_nat (sum_list_with (λ v, incidence v edges) l)
     ≤ Z.of_nat (length l) * maxDegree)%Z) as Hle.
  { intros l. induction 1 as [|x l Hx _ IHl]; [simpl; lia|].
    cbn [sum_list_with length]. specialize (Hb x Hx). lia. }
  specialize (Hle (seq 0 n)). rewrite length_seq, Hsum in Hle.
  rewrite Nat2Z.inj_mul in Hle. apply Hle.
  apply Forall_forall. intros x Hx%elem_of_seq. lia.
Qed.

Lemma remove_dups_NoDup {A} `{!EqDecision A} (l : list A) :
  NoDup l → remove_dups l = l.
Proof.
  induction 1 as [|x l Hx _ IH]; [done|].
  simpl. destruct (decide_rel _ _ _); [done|]. by rewrite IH.
Qed.

(** A labelling of the nodes that is constant along the edges uses at least
    [n - |E|] labels. *)
Lemma components_bound n (edges : list (nat * nat)) :
  ∃ c : nat → nat,
    (∀ x y, joined edges x y → c x = c y)
    ∧ n - length edges ≤ length (remove_dups (c <$> seq 0 n)).
Proof.
  induction edges as [|[u v] edges (c & Hc & Hlen)].
  - exists id. split.
    + intros x y [H|H]; by apply elem_of_nil in H.
    + rewrite list_fmap_id, remove_dups_NoDup by apply NoDup_seq.
      rewrite length_seq. simpl. lia.
  - exists (λ x, if decide (c x = c v) then c u else c x). split.
    + assert (∀ x y, (x, y) ∈ (u, v) :: edges →
        (if decide (c x = c v) then c u else c x)
        = (if decide (c y = c v) then c u else c y)) as H.
      { intros x y [[= -> ->]|Hin]%elem_of_cons.
        - destruct (decide (c v = c v)); [|done]. by destruct (decide _).
        - rewrite (Hc x y) by (by left). done. }
      intros x y [Hxy|Hyx]; [by apply H|symmetry; by apply H].
    + cbn [length].
      set (L := remove_dups (c <$> seq 0 n)) in *.
      set (L' := remove_dups _).
      assert (filter (λ w, w ≠ c v) L ⊆+ L') as Hsub.
      { apply NoDup_submseteq; [apply NoDup_filter, NoDup_remove_dups|].
        intros w [Hw HwL]%list_elem_of_filter.
        apply elem_of_remove_dups, list_elem_of_fmap in HwL as (x & -> & Hx).
        apply elem_of_remove_dups, list_elem_of_fmap. exists x.
        by rewrite decide_False. }
      apply submseteq_length in Hsub.
      assert (length L ≤ S (length (filter (λ w, w ≠ c v) L))) as Hf.
      { assert (NoDup L) as Hnd by apply NoDup_remove_dups.
        clear -Hnd. induction Hnd as [|x l Hx Hnd IH]; [simpl; lia|].
        rewrite filter_cons. destruct (decide (x ≠ c v)) as [|Heq].
        - simpl. lia.
        - assert (x = c v) as -> by (by destruct (decide (x = c v))).
          rewrite (proj2 (length_filter_all (λ w, w ≠ c v) l)); [simpl; lia|].
          intros y Hy ->. done. }
      lia.
Qed.

(** A connected graph on [n] nodes has at least [n - 1] edges. *)
Lemma edges_lower_bound n edges :
  edges_connected n edges → n - 1 ≤ length edges.
Proof.
  intros Hconn. destruct (components_bound n edges) as (c & Hc & Hlen).
  assert (∀ x y, rtc (joined edges) x y → c x = c y) as Hrtc.
  { induction 1 as [|x y z Hxy _ IH]; [done|]. rewrite <- IH. by apply Hc. }
  assert (∀ w, w ∈ remove_dups (c <$> seq 0 n) → w = c 0) as Hall.
  { intros w (x & -> & Hx%elem_of_seq)%elem_of_remove_dups%list_elem_of_fmap.
    symmetry. apply Hrtc, Hconn; lia. }
  assert (length (remove_dups (c <$> seq 0 n)) ≤ 1) as Hone.
  { pose proof (NoDup_remove_dups (c <$> seq 0 n)) as Hnd.
    destruct (remove_dups (c <$> seq 0 n)) as [|a [|b l]]; simpl; [lia..|].
    apply NoDup_cons in Hnd as [Hnd _]. exfalso. apply Hnd.
    rewrite (Hall a), (Hall b); [left|right; left|left]. }
  lia.
Qed.

(** ** Encoding an edge list *)

Section Encode.
Context (n : nat) (Hn : 2 ≤ n ≤ 11).
Context (edges : list (nat * nat)) (Hs : simple_graph n edges).

Lemma encode_positions :
  Forall (λ p, (0 ≤ p < Z.of_nat (triuSize n))%Z)
         ((λ e, bitpos n e.1 e.2) <$> edges).
Proof using Hn Hs.
  apply Forall_fmap, Forall_forall. intros [i j] Hin. simpl.
  apply bitpos_range; [done|]. by apply Hs.
Qed.

Lemma encode_testbit i j :
  i < j < n →
  Z.testbit (encode n edges) (bitpos n i j) = bool_decide ((i, j) ∈ edges).
Proof using Hn Hs.
  intros Hij. unfold encode.
  pose proof (bitpos_range n Hn i j Hij) as Hr.
  rewrite bitmask_testbit; [| |lia].
  - apply bool_decide_ext. rewrite list_elem_of_fmap. split.
    + intros ([i' j'] & Heq & Hin). simpl in Heq.
      assert (i' < j' < n) as Hij' by (by apply Hs).
      unfold bitpos in Heq.
      assert (upperTriuIndex i j n = upperTriuIndex i' j' n) as Hu by lia.
      apply (upperTriuIndex_inj n Hn) in Hu; [|done..].
      by simplify_eq.
    + intros Hin. by exists (i, j).
  - eapply Forall_impl; [apply encode_positions|]. simpl. lia.
Qed.

Lemma encode_range : (0 ≤ encode n edges < 2 ^ Z.of_nat (triuSize n))%Z.
Proof using Hn Hs.
  pose proof encode_positions as Hpos.
  assert (Forall (λ p, (0 ≤ p)%Z) ((λ e, bitpos n e.1 e.2) <$> edges)) as H0.
  { eapply Forall_impl; [done|]. simpl. lia. }
  split; [by apply bitmask_nonneg|].
  apply bits_bound; [lia|by apply bitmask_nonneg|].
  intros b Hb. unfold encode. rewrite bitmask_testbit by (done || lia).
  apply bool_decide_eq_false. intros Hin.
  rewrite Forall_forall in Hpos. specialize (Hpos b Hin). lia.
Qed.

(** The graph object of the encoded word has the given edges. *)
Lemma encode_getEdges g :
  graph_ok g → nNodes g = n → adjacencyTriu g = encode n edges →
  getEdges g ≡ₚ edges.
Proof using Hn Hs.
  intros Hg Hng Ha. apply NoDup_Permutation.
  - apply NoDup_getEdges.
  - apply Hs.
  - intros [i j]. rewrite elem_of_getEdges, Hng. split.
    + intros [Hij He]. rewrite isEdge_testbit in He by (done || lia).
      rewrite Ha, Hng, encode_testbit in He by done.
      by apply bool_decide_eq_true in He.
    + intros Hin. assert (i < j < n) as Hij by (by apply Hs).
      split; [done|]. rewrite isEdge_testbit by (done || lia).
      rewrite Ha, Hng, encode_testbit by done.
      by apply bool_decide_eq_true.
Qed.

End Encode.

Lemma incidence_Permutation v edges edges' :
  edges ≡ₚ edges' → incidence v edges = incidence v edges'.
Proof. intros H. unfold incidence. by rewrite H. Qed.

Lemma edges_connected_Permutation n edges edges' :
  edges ≡ₚ edges' → edges_connected n edges → edges_connected n edges'.
Proof.
  intros H Hc u v Hu Hv. eapply rtc_subrel; [|by apply Hc].
  intros x y. unfold joined. by rewrite !H.
Qed.

(** Isomorphism of graph objects is isomorphism of their edge lists. *)
Lemma isomorphic_edges colors g h :
  nNodes g = length colors → nNodes h = length colors →
  isomorphic colors g h ↔ edges_isomorphic colors (getEdges g) (getEdges h).
Proof.
  intros Hng Hnh. split.
  - intros (p & Hp & Hm). exists p. split; [done|].
    by apply (relabel_edges colors).
  - intros (p & Hp & Hperm). exists p. split; [done|].
    assert (∀ i j, i < j < length colors →
      isEdge g i j = isEdge h (p !!! i) (p !!! j)) as Hlt.
    { intros i j Hij.
      pose proof (color_perm_lt colors p i Hp ltac:(lia)) as Hpi.
      pose proof (color_perm_lt colors p j Hp ltac:(lia)) as Hpj.
      assert (p !!! i ≠ p !!! j) as Hne.
      { intros Heq. apply (color_perm_inj colors p i j Hp) in Heq; lia. }
      assert (isEdge h (p !!! i) (p !!! j) = true
              ↔ relabel p (i, j) ∈ getEdges h) as Hh.
      { unfold relabel. cbn [fst snd]. rewrite elem_of_getEdges, Hnh.
        destruct (Nat.max_spec (p !!! i) (p !!! j)) as [[? ->]|[? ->]],
                 (Nat.min_spec (p !!! i) (p !!! j)) as [[? ->]|[? ->]];
          try lia.
        - split; [intros ?; split; [lia|done]|tauto].
        - rewrite (isEdge_sym h (p !!! j)).
          split; [intros ?; split; [lia|done]|tauto]. }
      apply eq_true_iff_eq. rewrite Hh, <- Hperm, list_elem_of_fmap. split.
      - intros He. exists (i, j). split; [done|].
        apply elem_of_getEdges. rewrite Hng. done.
      - intros ([i' j'] & Heq & [Hij' He]%elem_of_getEdges).
        rewrite Hng in Hij'.
        apply (relabel_inj colors p Hp) in Heq;
          [|by apply elem_of_pairs..].
        by simplify_eq. }
    intros i j Hi Hj.
    destruct (lt_eq_lt_dec i j) as [[Hij| ->]|Hji].
    + apply Hlt. lia.
    + by rewrite !isEdge_irrefl.
    + rewrite (isEdge_sym g), (isEdge_sym h). apply Hlt. lia.
Qed.

Local Open Scope Z_scope.

(** ** The result of [generateEdges] *)

Lemma fuel_nodes n fuel :
  (2 ≤ n ≤ 11)%nat → 2 ^ Z.of_nat (triuSize n) ≤ Z.of_nat fuel →
  (n ≤ fuel)%nat.
Proof.
  intros Hn.
  assert (Forall (λ m, 2 ^ Z.of_nat (triuSize m) ≤ Z.of_nat fuel
                       → (m ≤ fuel)%nat) (seq 2 10)) as H.
  { unfold triuSize. repeat constructor; simpl; lia. }
  rewrite Forall_forall in H. apply H, elem_of_seq. lia.
Qed.

Lemma Forall2_build {A B} (R : A → B → Prop) (l : list A) :
  (∀ a, a ∈ l → ∃ b, R a b) → ∃ k, Forall2 R l k.
Proof.
  induction l as [|a l IH]; intros H.
  - exists []. constructor.
  - destruct (H a ltac:(left)) as [b Hb].
    destruct IH as [k Hk]; [intros a' Ha'; apply H; by right|].
    exists (b :: k). by constructor.
Qed.

(** A graph object of the call has the edge list of a simple graph whose
    degrees are the population counts under the degree filter. *)
Lemma candidate_edges fuel colors table a g :
  (2 ≤ length colors ≤ 11)%nat →
  0 ≤ a < 2 ^ Z.of_nat (triuSize (length colors)) →
  candidate fuel colors table a g →
  simple_graph (length colors) (getEdges g)
  ∧ popcountll a = Z.of_nat (length (getEdges g))
  ∧ ∀ v, (v < length colors)%nat →
      popcountll (Z.land a (calculateDegreeFilter (length colors) !!! v))
      = Z.of_nat (incidence v (getEdges g)).
Proof.
  intros Hn Ha Hg.
  destruct (candidate_ok _ _ _ _ _ Hn Ha Hg) as [Hgo [Hng _ _]].
  destruct (candidate_fields _ _ _ _ _ Hg) as (_ & _ & Hag & Hdf & _).
  split_and!.
  - split; [apply NoDup_getEdges|].
    intros i j [Hij _]%elem_of_getEdges. by rewrite <- Hng.
  - rewrite <- Hag. by apply popcountll_edges.
  - intros v Hv. rewrite <- Hag, <- Hdf.
    rewrite popcountll_degreeFilter, incidence_getEdges by (done || lia).
    done.
Qed.

Lemma Forall2_elem_r {A B} (R : A → B → Prop) l k b :
  Forall2 R l k → b ∈ k → ∃ a, a ∈ l ∧ R a b.
Proof.
  induction 1 as [|a' b' l k HR _ IH]; [by intros ?%elem_of_nil|].
  intros [->|Hb]%elem_of_cons.
  - exists a'. split; [left|done].
  - destruct (IH Hb) as (a & Ha & HRa). exists a. split; [by right|done].
Qed.

Lemma Forall2_elem_l {A B} (R : A → B → Prop) l k a :
  Forall2 R l k → a ∈ l → ∃ b, b ∈ k ∧ R a b.
Proof.
  induction 1 as [|a' b' l k HR _ IH]; [by intros ?%elem_of_nil|].
  intros [->|Ha]%elem_of_cons.
  - exists b'. split; [left|done].
  - destruct (IH Ha) as (b & Hb & HRb). exists b. split; [by right|done].
Qed.

(** The connected graph objects of a call: with enough fuel the first two
    loops end, and they leave the graph objects of exactly the words of the
    candidate list whose graph is connected. *)
Lemma connectedGraphs_exact fuel colors table trius :
  (2 ≤ length colors ≤ 11)%nat → (length colors ≤ fuel)%nat →
  (∀ a, a ∈ trius → 0 ≤ a < 2 ^ Z.of_nat (triuSize (length colors))) →
  ∃ graphs,
    connectedGraphs fuel colors trius (calculateDegreeFilter (length colors))
      (adjTriuMasksOf (length colors)) table = Some graphs
    ∧ ∀ g, g ∈ graphs ↔
           ∃ a, a ∈ trius ∧ candidate fuel colors table a g
                ∧ isConnected g = true.
Proof.
  intros Hn Hfuel Hr.
  destruct (Forall2_build (candidate fuel colors table) trius) as [gs Hgs].
  { intros a Ha. apply candidate_exists; auto. }
  exists (filter (λ g, isConnected g = true) gs). split.
  - apply connectedGraphs_spec. by exists gs.
  - intros g. rewrite list_elem_of_filter. split.
    + intros [Hc Hg]. destruct (Forall2_elem_r _ _ _ _ Hgs Hg) as (a & ? & ?).
      by exists a.
    + intros (a & Ha & Hg & Hc). split; [done|].
      destruct (Forall2_elem_l _ _ _ _ Hgs Ha) as (g' & Hg' & Hcand).
      unfold candidate in *. congruence.
Qed.

Local Open Scope nat_scope.

(** ** The adjacency matrix *)

Lemma set2_spec m (a : list (list Z)) i j v :
  square m a → i < m → j < m →
  square m (set2 a i j v)
  ∧ ∀ x y, x < m → y < m →
      (set2 a i j v !!! x) !!! y
      = if decide ((i, j) = (x, y)) then v else (a !!! x) !!! y.
Proof.
  intros [Hl Hr] Hi Hj. unfold set2. split.
  - split; [by rewrite length_insert|]. intros x Hx.
    destruct (decide (i = x)) as [->|Hne].
    + rewrite list_lookup_total_insert_eq by lia.
      rewrite length_insert. by apply Hr.
    + rewrite list_lookup_total_insert_ne by done. by apply Hr.
  - intros x y Hx Hy. destruct (decide (i = x)) as [->|Hne].
    + rewrite list_lookup_total_insert_eq by lia.
      destruct (decide (j = y)) as [->|Hne'].
      * rewrite list_lookup_total_insert_eq by (rewrite Hr; lia).
        by rewrite decide_True.
      * rewrite list_lookup_total_insert_ne by done.
        rewrite decide_False by congruence. done.
    + rewrite list_lookup_total_insert_ne by done.
      rewrite decide_False by congruence. done.
Qed.

(** The matrix after the pairs [L] have been visited. *)
Lemma adjacency_fold g m (L : list (nat * nat)) :
  (∀ e, e ∈ L → e.1 < m ∧ e.2 < m) →
  ∀ a0, square m a0 →
  let a := fold_left
             (λ matrix e, if isEdge g e.1 e.2
                          then set2 (set2 matrix e.1 e.2 1) e.2 e.1 1
                          else matrix) L a0 in
  square m a
  ∧ ∀ x y, x < m → y < m →
      (a !!! x) !!! y
      = if decide (((x, y) ∈ L ∨ (y, x) ∈ L) ∧ isEdge g x y = true)
        then 1%Z else (a0 !!! x) !!! y.
Proof.
  induction L as [|[i j] L IH]; intros HL a0 Hsq; cbn [fold_left].
  - split; [done|]. intros x y _ _. rewrite decide_False; [done|].
    intros [[H|H] _]; by apply elem_of_nil in H.
  - destruct (HL (i, j) ltac:(left)) as [Hi Hj]. cbn [fst snd] in *.
    assert (∀ e, e ∈ L → e.1 < m ∧ e.2 < m) as HL'
      by (intros e He; apply HL; by right).
    set (a1 := if isEdge g i j then set2 (set2 a0 i j 1) j i 1 else a0).
    assert (square m a1
      ∧ ∀ x y, x < m → y < m →
          (a1 !!! x) !!! y
          = if decide (((i, j) = (x, y) ∨ (i, j) = (y, x))
                       ∧ isEdge g i j = true)
            then 1%Z else (a0 !!! x) !!! y) as [Hsq1 Ha1].
    { unfold a1. destruct (isEdge g i j) eqn:He.
      - destruct (set2_spec m a0 i j 1 Hsq Hi Hj) as [Hs1 H1].
        destruct (set2_spec m _ j i 1 Hs1 Hj Hi) as [Hs2 H2].
        split; [done|]. intros x y Hx Hy. rewrite H2, H1 by done.
        destruct (decide ((j, i) = (x, y))) as [E1|E1].
        { rewrite decide_True; [done|]. split; [right; by simplify_eq|done]. }
        destruct (decide ((i, j) = (x, y))) as [E2|E2].
        { rewrite decide_True; [done|]. split; [by left|done]. }
        rewrite decide_False; [done|].
        intros [[?|?] _]; simplify_eq.
      - split; [done|]. intros x y _ _. rewrite decide_False; [done|].
        intros [_ ?]. done. }
    destruct (IH HL' a1 Hsq1) as [Hsq' Ha]. split; [done|].
    intros x y Hx Hy. rewrite Ha, Ha1 by done.
    destruct (decide (((x, y) ∈ L ∨ (y, x) ∈ L) ∧ isEdge g x y = true))
      as [[HinL He]|Hn].
    + rewrite decide_True; [done|]. split; [|done].
      destruct HinL; [left|right]; by right.
    + destruct (decide (((i, j) = (x, y) ∨ (i, j) = (y, x))
                        ∧ isEdge g i j = true)) as [[Heq He]|Hn'].
      * rewrite decide_True; [done|]. split.
        -- destruct Heq as [<-|<-]; [left|right]; left.
        -- destruct Heq as [Heq|Heq]; simplify_eq; [done|].
           by rewrite isEdge_sym.
      * rewrite decide_False; [done|].
        intros [[Hin|Hin] He]; apply elem_of_cons in Hin as [Heq|Hin].
        -- apply Hn'. split; [by left|]. by simplify_eq.
        -- apply Hn. auto.
        -- apply Hn'. split; [by right|]. simplify_eq. by rewrite isEdge_sym.
        -- apply Hn. auto.
Qed.

Lemma getAdjacencyMatrix_pairs g :
  getAdjacencyMatrix g
  = fold_left
      (λ matrix e, if isEdge g e.1 e.2
                   then set2 (set2 matrix e.1 e.2 1) e.2 e.1 1
                   else matrix)
      (pairs (nNodes g))
      (replicate (nNodes g) (replicate (nNodes g) 0%Z)).
Proof.
  unfold getAdjacencyMatrix, pairs. rewrite fold_left_bind_flat.
  apply fold_left_ext_elem. intros acc i _. by rewrite fold_left_fmap.
Qed.

(** The entries of the adjacency matrix. *)
Lemma getAdjacencyMatrix_entries g :
  square (nNodes g) (getAdjacencyMatrix g)
  ∧ ∀ i j, i < nNodes g → j < nNodes g →
      (getAdjacencyMatrix g !!! i) !!! j = if isEdge g i j then 1%Z else 0%Z.
Proof.
  rewrite getAdjacencyMatrix_pairs.
  destruct (adjacency_fold g (nNodes g) (pairs (nNodes g))) with
    (a0 := replicate (nNodes g) (replicate (nNodes g) 0%Z)) as [Hsq Ha].
  - intros [i j] Hij%elem_of_pairs. simpl. lia.
  - apply square_replicate.
  - split; [done|]. intros i j Hi Hj. rewrite Ha by done.
    rewrite !lookup_total_replicate_2 by done.
    destruct (isEdge g i j) eqn:He.
    + rewrite decide_True; [done|]. split; [|done].
      rewrite !elem_of_pairs.
      destruct (decide (i = j)) as [->|]; [|lia].
      by rewrite isEdge_irrefl in He.
    + rewrite decide_False; [done|]. by intros [_ ?].
Qed.

Local Open Scope Z_scope.

(** ** The tables of a call *)

Section FilterTables.
Context (n : nat) (Hn : (2 ≤ n ≤ 11)%nat).

Lemma incident_positions k :
  (k < n)%nat →
  Forall (λ p, 0 ≤ p < Z.of_nat (triuSize n))
         ((λ p, bitpos n p.1 p.2) <$> incident n k).
Proof using Hn.
  intros Hk. apply Forall_fmap, Forall_forall.
  intros [u v] [Hp%elem_of_pairs _]%elem_of_incident; [|done].
  by apply bitpos_range.
Qed.

Lemma degreeFilter_range k :
  (k < n)%nat →
  0 ≤ calculateDegreeFilter n !!! k < 2 ^ Z.of_nat (triuSize n).
Proof using Hn.
  intros Hk. rewrite degreeFilter_lookup by done.
  pose proof (incident_positions k Hk) as Hpos.
  assert (Forall (λ p, 0 ≤ p) ((λ p, bitpos n p.1 p.2) <$> incident n k))
    as H0 by (eapply Forall_impl; [done|]; simpl; lia).
  split; [by apply bitmask_nonneg|].
  apply bits_bound; [lia|by apply bitmask_nonneg|].
  intros b Hb. rewrite bitmask_testbit by (done || lia).
  apply bool_decide_eq_false. intros Hin.
  rewrite Forall_forall in Hpos. specialize (Hpos b Hin). lia.
Qed.

Lemma length_incident k : (k < n)%nat → length (incident n k) = (n - 1)%nat.
Proof.
  intros Hk. unfold incident.
  rewrite length_app, !length_fmap, !length_seq. lia.
Qed.

Lemma popcountll_degreeFilter_full k :
  (k < n)%nat →
  popcountll (calculateDegreeFilter n !!! k) = Z.of_nat n - 1.
Proof using Hn.
  intros Hk. rewrite degreeFilter_lookup by done.
  set (ps := (λ p, bitpos n p.1 p.2) <$> incident n k).
  pose proof (incident_positions k Hk) as Hpos. fold ps in Hpos.
  pose proof (triuSize_le n Hn) as HT.
  assert (Forall (λ p, 0 ≤ p) ps) as H0
    by (eapply Forall_impl; [done|]; simpl; lia).
  rewrite <- (Z.land_diag (bitmask ps)).
  rewrite popcountll_land_bitmask.
  - rewrite (proj2 (length_filter_all _ ps)).
    + unfold ps. rewrite length_fmap, length_incident by done. lia.
    + intros b Hb. rewrite bitmask_testbit.
      * by apply bool_decide_eq_true.
      * done.
      * rewrite Forall_forall in H0. by apply H0.
  - by apply bitmask_nonneg.
  - by apply NoDup_bitpos_incident.
  - eapply Forall_impl; [apply Hpos|]. simpl. lia.
Qed.

(** Two degree filters share exactly the bit of the pair of their
    nodes. *)
Lemma degreeFilter_land u v :
  (u < n)%nat → (v < n)%nat → u ≠ v →
  Z.land (calculateDegreeFilter n !!! u) (calculateDegreeFilter n !!! v)
  = adjTriuMasksOf n !!! upperTriuIndex u v n.
Proof using Hn.
  intros Hu Hv Huv.
  assert (∀ i j, (i < j < n)%nat →
    Z.land (calculateDegreeFilter n !!! i) (calculateDegreeFilter n !!! j)
    = 2 ^ bitpos n i j) as Hlt.
  { intros i j Hij. rewrite !degreeFilter_lookup by lia.
    pose proof (bitpos_range n Hn i j Hij) as Hr.
    apply Z.bits_inj'. intros b Hb.
    rewrite Z.land_spec, Z.pow2_bits_eqb by lia.
    rewrite !bitmask_testbit
      by (done || (eapply Forall_impl; [apply incident_positions; lia|];
                   simpl; lia)).
    destruct (Z.eqb_spec (bitpos n i j) b) as [<-|Hne].
    - assert (∀ k, k = i ∨ k = j →
        bitpos n i j ∈ (λ p, bitpos n p.1 p.2) <$> incident n k) as Hin.
      { intros k Hk. apply list_elem_of_fmap. exists (i, j).
        split; [done|]. apply elem_of_incident; [lia|].
        split; [by apply elem_of_pairs|]. simpl. lia. }
      pose proof (Hin i ltac:(by left)) as Hi.
      pose proof (Hin j ltac:(by right)) as Hj.
      apply (bool_decide_eq_true_2 _) in Hi, Hj. by rewrite Hi, Hj.
    - apply andb_false_iff.
      destruct (decide (b ∈ (λ p, bitpos n p.1 p.2) <$> incident n i))
        as [Hi|Hi]; [|left; by apply bool_decide_eq_false].
      right. apply bool_decide_eq_false. intros Hj.
      apply list_elem_of_fmap in Hi as ([a1 b1] & -> & Hi).
      apply list_elem_of_fmap in Hj as ([a2 b2] & Heq & Hj).
      apply elem_of_incident in Hi as [Hp1%elem_of_pairs Hi]; [|lia].
      apply elem_of_incident in Hj as [Hp2%elem_of_pairs Hj]; [|lia].
      cbn [fst snd] in *. unfold bitpos in Heq, Hne.
      assert (upperTriuIndex a1 b1 n = upperTriuIndex a2 b2 n) as He by lia.
      apply (upperTriuIndex_inj n Hn) in He; [|done..]. simplify_eq.
      assert (a2 = i ∧ b2 = j) as [-> ->] by lia. done. }
  destruct (decide (u < v)%nat).
  - rewrite adjTriuMasks_lookup by (done || lia). apply Hlt. lia.
  - rewrite upperTriuIndex_sym, adjTriuMasks_lookup by (done || lia).
    rewrite Z.land_comm. apply Hlt. lia.
Qed.

End FilterTables.

(** The degrees of an adjacency word add up to twice its number of set
    bits. *)
Lemma popcountll_handshake g :
  graph_ok g →
  foldr Z.add 0
    ((λ v, popcountll (Z.land (adjacencyTriu g) (degreeFilter g !!! v)))
       <$> seq 0 (nNodes g))
  = 2 * popcountll (adjacencyTriu g).
Proof.
  intros Hg. rewrite popcountll_edges by done.
  assert (simple_graph (nNodes g) (getEdges g)) as Hs.
  { split; [apply NoDup_getEdges|]. by intros i j [? _]%elem_of_getEdges. }
  rewrite <- (Nat2Z.inj_mul 2), <- (incidence_sum _ _ Hs).
  assert (∀ l, Forall (λ v, (v < nNodes g)%nat) l →
    foldr Z.add 0
      ((λ v, popcountll (Z.land (adjacencyTriu g) (degreeFilter g !!! v)))
         <$> l)
    = Z.of_nat (sum_list_with (λ v, incidence v (getEdges g)) l)) as H.
  { induction 1 as [|v l Hv _ IH]; [done|].
    rewrite fmap_cons. cbn [foldr sum_list_with]. rewrite IH.
    rewrite popcountll_degreeFilter, incidence_getEdges by done. lia. }
  apply H, Forall_forall. intros v Hv%elem_of_seq. lia.
Qed.

Ltac closed_nat k :=
  lazymatch k with
  | O => idtac
  | Datatypes.S ?k' => closed_nat k'
  | _ => fail
  end.

Ltac eval_numerals :=
  repeat match goal with
         | |- context [Z.of_nat ?k] =>
             closed_nat k;
             let c := eval vm_compute in (Z.of_nat k) in
             change (Z.of_nat k) with c
         | |- context [?a / 2] =>
             lazymatch a with context [Z.of_nat _] => fail | _ => idtac end;
             let c := eval vm_compute in (a / 2) in
             change (a / 2) with c
         end.

(** The index grows along the rows of the upper triangle. *)
Lemma idx_order (n i j i' j' : nat) :
  (n ≤ 11)%nat → (i < j < n)%nat → (i' < j' < n)%nat →
  idx (Z.of_nat i) (Z.of_nat j) (Z.of_nat n)
  < idx (Z.of_nat i') (Z.of_nat j') (Z.of_nat n)
  ↔ (i < i')%nat ∨ (i = i' ∧ (j < j')%nat).
Proof.
  intros Hn Hij Hij'. unfold idx.
  do 10 (destruct i as [|i];
         [do 10 (destruct i' as [|i']; [eval_numerals; lia|]); lia|]).
  lia.
Qed.

Local Open Scope Z_scope.

(** ** The degree check *)

(** No node has more than [n - 1] neighbours. *)
Lemma popcountll_filter_le n a v :
  (2 ≤ n ≤ 11)%nat → 0 ≤ a → (v < n)%nat →
  0 ≤ popcountll (Z.land a (calculateDegreeFilter n !!! v)) ≤ Z.of_nat n - 1.
Proof.
  intros Hn Ha Hv. split; [apply popcountll_nonneg|].
  rewrite degreeFilter_lookup by done.
  pose proof (incident_positions n Hn v Hv) as Hpos.
  pose proof (triuSize_le n Hn) as HT.
  rewrite popcountll_land_bitmask.
  - pose proof (length_filter (λ p, Z.testbit a p = true)
                  ((λ p, bitpos n p.1 p.2) <$> incident n v)) as Hle.
    rewrite length_fmap, length_incident in Hle by done. lia.
  - done.
  - by apply NoDup_bitpos_incident.
  - eapply Forall_impl; [apply Hpos|]. simpl. lia.
Qed.

(** ** The edge list *)

Lemma StronglySorted_seq k m : StronglySorted lt (seq k m).
Proof.
  revert k. induction m as [|m IH]; intros k; simpl; constructor.
  - apply IH.
  - apply Forall_forall. intros x Hx%elem_of_seq. lia.
Qed.

Lemma StronglySorted_filter {A} (R : relation A) (P : A → Prop)
    `{!∀ x, Decision (P x)} (l : list A) :
  StronglySorted R l → StronglySorted R (filter P l).
Proof.
  induction 1 as [|x l Hl IH Hx]; [constructor|].
  rewrite filter_cons. destruct (decide (P x)); [|done].
  constructor; [done|]. rewrite Forall_forall in *.
  intros y [_ Hy]%list_elem_of_filter. by apply Hx.
Qed.

Lemma pairs_sorted n : StronglySorted pair_lt (pairs n).
Proof.
  unfold pairs.
  assert (∀ l : list nat, StronglySorted lt l →
    StronglySorted pair_lt
      (l ≫= λ i, (λ j, (i, j)) <$> seq (i + 1) (n - (i + 1)))) as H.
  { induction 1 as [|x l Hl IH Hx]; [constructor|].
    rewrite bind_cons. apply StronglySorted_app_2; [| |done].
    - intros [i j] [i' j'] (? & ? & _)%list_elem_of_fmap
                           (y & (? & ? & _)%list_elem_of_fmap & Hy)%list_elem_of_bind.
      simplify_eq. left. simpl. rewrite Forall_forall in Hx. by apply Hx.
    - apply (StronglySorted_fmap _ lt); [|apply StronglySorted_seq].
      intros j j' Hj. right. simpl. lia. }
  apply H, StronglySorted_seq.
Qed.

Lemma getEdges_sorted g : StronglySorted pair_lt (getEdges g).
Proof. rewrite getEdges_filter. apply StronglySorted_filter, pairs_sorted. Qed.

Lemma getEdges_simple g : simple_graph (nNodes g) (getEdges g).
Proof.
  split; [apply NoDup_getEdges|]. by intros i j [? _]%elem_of_getEdges.
Qed.

(** The edge list determines the adjacency word. *)
Lemma encode_getEdges_word g :
  graph_ok g → encode (nNodes g) (getEdges g) = adjacencyTriu g.
Proof.
  intros Hg. pose proof Hg as [Hn _ _ Ha].
  pose proof (getEdges_simple g) as Hs.
  pose proof (encode_range _ Hn _ Hs) as He.
  apply Z.bits_inj'. intros b Hb.
  destruct (decide (b < Z.of_nat (triuSize (nNodes g)))) as [Hlt|Hge].
  - destruct (upperTriuIndex_surj _ Hn
                (Z.to_nat (Z.of_nat (triuSize (nNodes g)) - 1 - b)))
      as (i & j & Hij & Hc); [lia|].
    assert (b = bitpos (nNodes g) i j) as -> by (unfold bitpos; lia).
    rewrite (encode_testbit _ Hn _ Hs) by done.
    rewrite <- isEdge_testbit by (done || lia).
    destruct (isEdge g i j) eqn:Hedge.
    + apply bool_decide_eq_true. by apply elem_of_getEdges.
    + apply bool_decide_eq_false. intros [_ ?]%elem_of_getEdges. congruence.
  - rewrite !(testbit_above _ (Z.of_nat (triuSize (nNodes g)))) by (done || lia).
    done.
Qed.

(** A sorted edge list is the edge list of its adjacency word. *)
Lemma getEdges_encode g edges :
  graph_ok g → simple_graph (nNodes g) edges →
  StronglySorted pair_lt edges →
  adjacencyTriu g = encode (nNodes g) edges → getEdges g = edges.
Proof.
  intros Hg Hs Hsort Ha. pose proof Hg as [Hn _ _ _].
  apply (StronglySorted_unique_strong pair_lt).
  - intros [i j] [i' j'] _ _. unfold pair_lt. simpl. intros H1 H2.
    f_equal; lia.
  - apply getEdges_sorted.
  - done.
  - by apply (encode_getEdges (nNodes g)).
Qed.

Local Open Scope Z_scope.

(** ** The graphs behind the result *)

(** When the edge-count range is empty no word is enumerated. *)
Lemma candidates_empty fuel n maxDegree minDegree :
  (2 ≤ n ≤ 11)%nat →
  Z.min (wrap32 (Z.of_nat n * maxDegree) / 2) (Z.of_nat (triuSize n))
  < Z.of_nat n - 1 →
  candidates fuel n maxDegree minDegree = Some [].
Proof.
  intros Hn Hlt. unfold candidates. rewrite triuSize_wrap by done.
  rewrite (wrap32_small (Z.of_nat n - 1)) by lia.
  unfold seqZ. rewrite Z2Nat.nonpos by lia. done.
Qed.

(** The graph objects whose edge lists [generateEdges] returns: with fuel
    [2^T] the call returns the edge lists of a duplicate-free list of
    connected graph objects of the call; each comes from a word of the
    candidate list, every connected graph object of a word of the candidate
    list is equal to one of them, and no two of them are equal. *)
Lemma generateEdges_retained fuel colors maxDegree minDegree :
  valid_coloring colors → (2 ≤ length colors ≤ 11)%nat →
  2 ^ Z.of_nat (triuSize (length colors)) ≤ Z.of_nat fuel →
  ∃ trius table U,
    candidates fuel (length colors) maxDegree minDegree = Some trius
    ∧ permutationTable fuel colors = Some table
    ∧ (∀ p, p ∈ table ↔ color_perm colors p)
    ∧ generateEdges fuel colors maxDegree minDegree = Some (getEdges <$> U)
    ∧ NoDup U
    ∧ (∀ u, u ∈ U →
         ∃ a, a ∈ trius ∧ candidate fuel colors table a u
              ∧ connected_graph u)
    ∧ (∀ a g, a ∈ trius → candidate fuel colors table a g →
         connected_graph g →
         ∃ u, u ∈ U ∧ isomorphic colors u g)
    ∧ (∀ u u', u ∈ U → u' ∈ U → isomorphic colors u u' → u = u').
Proof.
  intros Hv Hn Hfuel.
  pose proof (fuel_nodes _ fuel Hn Hfuel) as Hfn.
  destruct (candidates_spec fuel (length colors) maxDegree minDegree Hn Hfuel)
    as (trius & Hcand & _ & Htrius).
  destruct (permutationTable_members colors fuel Hfn) as (table & Htab & Hmem).
  destruct (connectedGraphs_exact fuel colors table trius Hn Hfn)
    as (graphs & Hconn & Hgraphs).
  { intros a Ha. by apply Htrius. }
  assert (∀ g, g ∈ graphs →
    ∃ a, a ∈ trius ∧ (0 ≤ a < 2 ^ Z.of_nat (triuSize (length colors)))
         ∧ candidate fuel colors table a g
         ∧ connected_graph g) as Hgr.
  { intros g (a & Ha & Hg & Hc)%Hgraphs.
    pose proof (proj1 (Htrius a) Ha) as (Hr & _).
    exists a. split; [done|]. split; [done|]. split; [done|].
    by apply (candidate_connected fuel colors table a g Hn Hr). }
  assert (∀ g h, g ∈ graphs → h ∈ graphs →
    Graph_eq g h = true ↔ isomorphic colors g h) as Heq.
  { intros g h (a & _ & Ha & Hg & _)%Hgr (a' & _ & Ha' & Hh & _)%Hgr.
    by apply (Graph_eq_isomorphic fuel fuel colors table a a'). }
  destruct (unique_graphs_spec graphs) as (HndU & HU & HUc & HUu).
  { intros x Hx. apply Heq; [done..|]. apply isomorphic_refl. }
  { intros u x Hu Hx Hf. apply not_true_is_false. intros Ht.
    apply Heq, isomorphic_sym, Heq in Ht; [|done..]. congruence. }
  set (U := retained (fold_left unique_step graphs [])) in *.
  exists trius, table, U. split_and!; [done..| |done| | |].
  - unfold generateEdges. rewrite Hcand. simpl.
    rewrite Htab. simpl. rewrite Hconn. simpl.
    by rewrite uniqueEdges_retained.
  - intros u Hu%HU. destruct (Hgr u Hu) as (a & ? & _ & ? & ?). by exists a.
  - intros a g Ha Hg Hc.
    pose proof (proj1 (Htrius a) Ha) as (Hr & _).
    assert (g ∈ graphs) as Hin.
    { apply Hgraphs. exists a. split_and!; [done..|].
      by apply (candidate_connected fuel colors table a g Hn Hr). }
    destruct (HUc g Hin) as (u & Hu & Hug). exists u. split; [done|].
    apply Heq; [by apply HU|done..].
  - intros u u' Hu Hu' Hiso. apply HUu; [done..|].
    apply Heq; [by apply HU..|done].
Qed.

(** Graphs with the same edges below [n] have the same edge list. *)
Lemma getEdges_ext g h :
  nNodes g = nNodes h →
  (∀ i j, (i < j < nNodes g)%nat → isEdge g i j = isEdge h i j) →
  getEdges g = getEdges h.
Proof.
  intros Hn He. rewrite !getEdges_filter, <- Hn.
  apply filter_ext_elem. intros [i j] Hij%elem_of_pairs. simpl.
  by rewrite He.
Qed.

Lemma getEdges_eq_isEdge g h i j :
  nNodes g = nNodes h → getEdges g = getEdges h →
  (i < nNodes g)%nat → (j < nNodes g)%nat → isEdge g i j = isEdge h i j.
Proof.
  intros Hn He Hi Hj.
  assert (∀ x y, (x < y < nNodes g)%nat → isEdge g x y = isEdge h x y) as Hlt.
  { intros x y Hxy. apply eq_true_iff_eq.
    pose proof (elem_of_getEdges g x y) as Hg.
    pose proof (elem_of_getEdges h x y) as Hh.
    rewrite He in Hg. rewrite <- Hn in Hh. tauto. }
  destruct (lt_eq_lt_dec i j) as [[Hij| ->]|Hji].
  - apply Hlt. lia.
  - by rewrite !isEdge_irrefl.
  - rewrite (isEdge_sym g), (isEdge_sym h). apply Hlt. lia.
Qed.

(** With pairwise different colors only the identity preserves the
    colors. *)
Lemma color_perm_distinct colors p i :
  NoDup colors → color_perm colors p → (i < length colors)%nat → p !!! i = i.
Proof.
  intros Hnd Hp Hi. pose proof (color_perm_lt colors p i Hp Hi) as Hpi.
  destruct Hp as [_ Hc]. specialize (Hc i Hi).
  apply (NoDup_lookup colors (p !!! i) i (colors !!! i) Hnd).
  - rewrite <- Hc. by apply list_lookup_lookup_total_lt.
  - by apply list_lookup_lookup_total_lt.
Qed.

Local Open Scope Z_scope.

(** ** The conversion loop, element by element *)

Lemma convertNodes_app l1 l2 : ∀ i nodes,
  convertNodes (l1 ++ l2) i nodes
  = match convertNodes l1 i nodes with
    | inl e => inl e
    | inr nodes' => convertNodes l2 (i + length l1) nodes'
    end.
Proof.
  induction l1 as [|pyNode l1 IH]; intros i nodes.
  - simpl. by rewrite Nat.add_0_r.
  - rewrite <- app_comm_cons. cbn [convertNodes length].
    destruct pyNode as [z| | |]; [|done..].
    destruct (PyLong_AsLong z <? 0); [done|].
    destruct ((i =? 0)%nat && negb (PyLong_AsLong z =? 0)); [done|].
    destruct ((0 <? i)%nat && _); [done|].
    rewrite IH. by replace (Datatypes.S i + length l1)%nat
                    with (i + Datatypes.S (length l1))%nat by lia.
Qed.

(** After a valid prefix the loop is at the next element with the prefix as
    its vector. *)
Lemma convertNodes_prefix zs rest :
  run_ok zs → Z.of_nat (length zs) < 2 ^ 31 →
  convertNodes ((PyLong <$> zs) ++ rest) 0 []
  = convertNodes rest (length zs) zs.
Proof.
  intros Hok Hlen. rewrite convertNodes_app, length_fmap.
  assert (run_ok []) as Hnil by (split; intros; by simplify_list_eq).
  destruct (convertNodes_spec zs [] Hnil) as [[_ Heq]|[Hbad _]];
    [simpl; lia| |done].
  simpl in Heq. by rewrite Heq.
Qed.

(** ** Argument parsing *)

Local Open Scope nat_scope.

(** A dictionary that has every key of a duplicate-free list is at least as
    large as the list. *)
Lemma size_ge_keys (ks : list string) : ∀ kwds : gmap string PyObject,
  NoDup ks → (∀ k, k ∈ ks → is_Some (kwds !! k)) → length ks ≤ size kwds.
Proof.
  induction ks as [|k ks IH]; intros kwds Hnd Hin; [simpl; lia|].
  apply NoDup_cons in Hnd as [Hk Hnd].
  destruct (Hin k) as [v Hv]; [by left|].
  rewrite <- (insert_delete_id kwds k v Hv).
  rewrite map_size_insert_None by apply lookup_delete_eq.
  specialize (IH (delete k kwds) Hnd). simpl.
  enough (length ks ≤ size (delete k kwds)) by lia.
  apply IH. intros k' Hk'.
  rewrite lookup_delete_ne by (intros ->; done).
  apply Hin. by right.
Qed.

(** Parsing succeeds only on exactly three arguments, positional and
    keyword ones together. *)
Lemma parse_arity args kwds :
  is_Some (PyArg_ParseTupleAndKeywords args kwds) →
  length args + size kwds = 3.
Proof.
  unfold PyArg_ParseTupleAndKeywords. simpl length at 1.
  destruct (Nat.ltb_spec 3 (length args + size kwds)) as [Hgt|Hle];
    [by intros [? ?]|].
  intros [r Hr].
  enough (3 - length args ≤ size kwds) by lia.
  assert (∀ i, i < 3 → is_Some (current_arg args kwds i)) as Hall.
  { intros i Hi.
    destruct (current_arg args kwds 0) as [a0|] eqn:H0; [|done].
    destruct (current_arg args kwds 1) as [a1|] eqn:H1;
      [|by destruct a0].
    destruct (current_arg args kwds 2) as [a2|] eqn:H2;
      [|simpl in Hr; by destruct (convert_I a1)].
    destruct i as [|[|[|i]]]; [by eexists..|lia]. }
  assert (∀ i, length args ≤ i < 3 → is_Some (kwds !! (kwlist !!! i)))
    as Hkw.
  { intros i Hi. specialize (Hall i ltac:(lia)). unfold current_arg in Hall.
    by rewrite (proj2 (Nat.ltb_ge i (length args))) in Hall by lia. }
  destruct (length args) as [|[|[|n]]].
  - apply (size_ge_keys kwlist).
    + apply (bool_decide_unpack _). by vm_compute.
    + intros k Hk. unfold kwlist in Hk.
      apply elem_of_cons in Hk as [->|Hk]; [apply (Hkw 0); lia|].
      apply elem_of_cons in Hk as [->|Hk]; [apply (Hkw 1); lia|].
      apply list_elem_of_singleton in Hk as ->. apply (Hkw 2); lia.
  - apply (size_ge_keys (drop 1 kwlist)).
    + apply (bool_decide_unpack _). by vm_compute.
    + intros k Hk. unfold kwlist in Hk. simpl in Hk.
      apply elem_of_cons in Hk as [->|Hk]; [apply (Hkw 1); lia|].
      apply list_elem_of_singleton in Hk as ->. apply (Hkw 2); lia.
  - apply (size_ge_keys (drop 2 kwlist)).
    + apply (bool_decide_unpack _). by vm_compute.
    + intros k Hk. unfold kwlist in Hk. simpl in Hk.
      apply list_elem_of_singleton in Hk as ->. apply (Hkw 2); lia.
  - lia.
Qed.

Local Open Scope nat_scope.

(** ** The layout of the representation *)

Lemma filter_lt_succ {A} (col : A → nat) m (l : list A) :
  filter (λ v, col v < S m) l
  ≡ₚ filter (λ v, col v < m) l ++ filter (λ v, col v = m) l.
Proof.
  induction l as [|x l IH]; [done|]. rewrite !filter_cons.
  destruct (decide (col x < S m)), (decide (col x < m)), (decide (col x = m));
    try lia.
  - by rewrite IH.
  - rewrite IH. apply Permutation_middle.
  - done.
Qed.

(** The color classes partition the nodes. *)
Lemma classes_Permutation {A} (col : A → nat) m (l : list A) :
  (∀ v, v ∈ l → col v < m) →
  (c ← seq 0 m; filter (λ v, col v = c) l) ≡ₚ l.
Proof.
  intros Hm.
  assert (∀ k, (c ← seq 0 k; filter (λ v, col v = c) l)
               ≡ₚ filter (λ v, col v < k) l) as H.
  { induction k as [|k IH].
    - simpl. rewrite filter_none; [done|]. intros; lia.
    - rewrite seq_S, bind_app, IH. simpl. rewrite app_nil_r.
      by rewrite filter_lt_succ. }
  rewrite H.
  assert (filter (λ v, col v < m) l = l) as ->; [|done].
  clear H. induction l as [|x l IH]; [done|].
  rewrite filter_cons, decide_True by (apply Hm; left).
  f_equal. apply IH. intros v Hv. apply Hm. by right.
Qed.

Lemma bind_Permutation_ext {A B} (f g : A → list B) (l : list A) :
  (∀ x, x ∈ l → f x ≡ₚ g x) → l ≫= f ≡ₚ l ≫= g.
Proof.
  induction l as [|x l IH]; intros H; [done|].
  rewrite !bind_cons. rewrite (H x) by left.
  apply Permutation_app_head, IH. intros y Hy. apply H. by right.
Qed.

Lemma sum_Permutation (l k : list Z) :
  l ≡ₚ k → foldr Z.add 0%Z l = foldr Z.add 0%Z k.
Proof. induction 1; simpl; lia. Qed.

Lemma sum_app (l k : list Z) :
  foldr Z.add 0%Z (l ++ k) = (foldr Z.add 0%Z l + foldr Z.add 0%Z k)%Z.
Proof. induction l as [|x l IH]; simpl; lia. Qed.

(** The number of color pairs [a <= b < m]. *)
Lemma length_color_pairs {B} (f : nat → nat → B) m :
  length (a ← seq 0 m; f a <$> seq a (m - a)) = m * (m + 1) / 2.
Proof.
  assert (∀ k, k ≤ m →
    2 * length (a ← seq 0 k; f a <$> seq a (m - a)) = k * (2 * m + 1 - k))
    as H.
  { induction k as [|k IH]; intros Hk; [done|].
    rewrite seq_S, bind_app, length_app. simpl.
    rewrite app_nil_r, length_fmap, length_seq. nia. }
  specialize (H m ltac:(lia)).
  apply Nat.div_unique_exact; [lia|]. nia.
Qed.

(** Every element falls under exactly one key. *)
Lemma sum_by_key {A K} `{!EqDecision K} (f : A → K) (keys : list K)
    (l : list A) :
  NoDup keys → (∀ x, x ∈ l → f x ∈ keys) →
  foldr Z.add 0%Z
    ((λ k, Z.of_nat (length (filter (λ x, f x = k) l))) <$> keys)
  = Z.of_nat (length l).
Proof.
  intros Hnd. induction l as [|x l IH]; intros Hin.
  - clear Hnd Hin. induction keys as [|k keys IHk]; [done|].
    rewrite fmap_cons. cbn [foldr]. by rewrite IHk.
  - specialize (IH (λ y Hy, Hin y (list_elem_of_further _ _ _ Hy))).
    assert (∀ ks, NoDup ks →
      foldr Z.add 0%Z
        ((λ k, Z.of_nat (length (filter (λ y, f y = k) (x :: l)))) <$> ks)
      = (foldr Z.add 0%Z
           ((λ k, Z.of_nat (length (filter (λ y, f y = k) l))) <$> ks)
         + if decide (f x ∈ ks) then 1 else 0)%Z) as H.
    { intros ks. induction 1 as [|k ks Hk Hks IHk]; [done|].
      rewrite !fmap_cons. cbn [foldr]. rewrite IHk, filter_cons.
      destruct (decide (f x = k)) as [<-|Hne].
      - rewrite (decide_False (P := f x ∈ ks)) by done.
        rewrite (decide_True (P := f x ∈ f x :: ks)) by left.
        cbn [length]. lia.
      - destruct (decide (f x ∈ ks)) as [Hin'|Hin'].
        + rewrite (decide_True (P := f x ∈ k :: ks)) by (by right). lia.
        + rewrite (decide_False (P := f x ∈ k :: ks)); [lia|].
          intros [?|?]%elem_of_cons; [congruence|done]. }
    rewrite H, IH by done.
    rewrite decide_True by (apply Hin; left). cbn [length]. lia.
Qed.

Lemma fmap_bind_out {A B C} (f : B → C) (g : A → list B) (l : list A) :
  f <$> (l ≫= g) = l ≫= (λ x, f <$> g x).
Proof.
  induction l as [|x l IH]; [done|]. by rewrite !bind_cons, fmap_app, IH.
Qed.

(** The color pairs [a <= b < m], in the order of the representation. *)
Lemma elem_of_color_pairs m x y :
  (x, y) ∈ (a ← seq 0 m; (λ b, (a, b)) <$> seq a (m - a)) ↔ x ≤ y < m.
Proof.
  rewrite list_elem_of_bind. split.
  - intros (a & (b & ? & Hb%elem_of_seq)%list_elem_of_fmap & Ha%elem_of_seq).
    simplify_eq. lia.
  - intros Hxy. exists x. split.
    + apply list_elem_of_fmap. exists y. split; [done|]. apply elem_of_seq. lia.
    + apply elem_of_seq. lia.
Qed.

Lemma NoDup_color_pairs m :
  NoDup (a ← seq 0 m; (λ b, (a, b)) <$> seq a (m - a)).
Proof.
  apply NoDup_bind.
  - intros a a' [x y] _ _ (b & ? & _)%list_elem_of_fmap
                          (b' & ? & _)%list_elem_of_fmap. congruence.
  - intros a _. apply NoDup_fmap_2; [|apply NoDup_seq].
    intros ???. by simplify_eq.
  - apply NoDup_seq.
Qed.

Lemma bind_ext_eq {A B} (f g : A → list B) (l : list A) :
  (∀ x, f x = g x) → l ≫= f = l ≫= g.
Proof.
  intros H. induction l as [|x l IH]; [done|]. by rewrite !bind_cons, IH, H.
Qed.

Local Open Scope nat_scope.

(** C4 (permutation table).  For every color sequence, and so for every
    valid coloring, the table [generateEdges] builds with
    [generatePermutations] is produced (the recursion ends within
    [length nodes] levels), has each entry once, holds exactly the
    permutations of the node indices that map every index to an index of
    the same color, and its size is the product over the colors of the
    factorial of the number of nodes of that color. *)
Theorem generatePermutations_table (nodes : list nat) (fuel : nat) :
  length nodes ≤ fuel →
  ∃ table, permutationTable fuel nodes = Some table
           ∧ NoDup table
           ∧ (∀ p, p ∈ table ↔ color_perm nodes p)
           ∧ length table = factorial_product nodes.
Proof.
  intros Hf. unfold permutationTable.
  set (imap := fold_left _ (seq 0 (length nodes)) ∅).
  destruct (generatePermutations_spec nodes fuel 0
              (mkPermGen [] (replicate (length nodes) 0) imap))
    as (st' & Hg & _ & _ & _ & L & Hout & Hnd & Hlen & HL).
  - lia.
  - lia.
  - simpl. by rewrite length_replicate.
  - apply pools_ok_init.
  - rewrite Hg. simpl. simpl in Hout. rewrite Hout. exists L.
    split_and!; [done|done| |].
    + intros p. rewrite HL. apply completes_color_perm.
    + rewrite Hlen, drop_0. apply choices_factorial_product.
Qed.

Lemma generatePermutations_table_witness :
  ∃ table, permutationTable 3 [0; 0; 1] = Some table
           ∧ NoDup table
           ∧ (∀ p, p ∈ table ↔ color_perm [0; 0; 1] p)
           ∧ length table = factorial_product [0; 0; 1].
Proof. apply (generatePermutations_table [0; 0; 1] 3). simpl. lia. Defined.

(** C10 (group structure of the table).  The table contains the identity
    permutation and, with each permutation, its inverse; so on the graph
    objects of one call [operator==] is reflexive and symmetric. *)
Theorem permutation_table_group (nodes : list nat) (fuel : nat) :
  length nodes ≤ fuel →
  ∃ table, permutationTable fuel nodes = Some table
    ∧ seq 0 (length nodes) ∈ table
    ∧ (∀ p, p ∈ table →
         perm_inv p ∈ table
         ∧ ∀ v, v < length nodes →
                p !!! (perm_inv p !!! v) = v ∧ perm_inv p !!! (p !!! v) = v)
    ∧ (∀ g, in_context nodes table g → Graph_eq g g = true)
    ∧ (∀ g h, in_context nodes table g → in_context nodes table h →
              Graph_eq g h = true → Graph_eq h g = true).
Proof.
  intros Hf.
  destruct (permutationTable_members nodes fuel Hf) as (table & Ht & Htab).
  exists table. split_and!; [done| | | |].
  - apply Htab, color_perm_id.
  - intros p Hp%Htab. split; [by apply Htab, color_perm_inv|].
    intros v Hv. split; [by apply (perm_inv_r nodes)|by apply (perm_inv_l nodes)].
  - intros g Hg. apply Graph_eq_spec. split; [done|].
    apply (perm_matches_isomorphic nodes table); [done..|].
    apply isomorphic_refl.
  - intros g h Hg Hh [Hr Hm]%Graph_eq_spec. apply Graph_eq_spec.
    split; [done|].
    apply (perm_matches_isomorphic nodes table); [done..|].
    apply isomorphic_sym.
    by apply (perm_matches_isomorphic nodes table g h).
Qed.

Lemma permutation_table_group_witness :
  ∃ table, permutationTable 2 [0; 0] = Some table
    ∧ seq 0 2 ∈ table
    ∧ (∀ p, p ∈ table →
         perm_inv p ∈ table
         ∧ ∀ v, v < 2 →
                p !!! (perm_inv p !!! v) = v ∧ perm_inv p !!! (p !!! v) = v)
    ∧ (∀ g, in_context [0; 0] table g → Graph_eq g g = true)
    ∧ (∀ g h, in_context [0; 0] table g → in_context [0; 0] table h →
              Graph_eq g h = true → Graph_eq h g = true).
Proof. apply (permutation_table_group [0; 0] 2). simpl. lia. Defined.

Local Open Scope nat_scope.




Local Open Scope Z_scope.

Lemma graph3_ok a : 0 ≤ a < 8 → graph_ok (graph3 a).
Proof. intros Ha. split; simpl; (done || lia). Qed.

(** C2, as the code has it (bit positions).  For [2 <= n <= 11] and a pair
    [i < j < n], the index [upperTriuIndex i j n] is
    [idx(i,j) = i*n - (i^2+3i)/2 + j - 1] with no wrap-around, and the edge
    [(i,j)] is the bit at position [n(n-1)/2 - 1 - idx(i,j)] counted from the
    least significant bit: [idx] counts from the top of the
    [n(n-1)/2]-bit field.  [isEdge] reads exactly that bit, and the degree
    filter of a node [k] has exactly the bits at these positions of the pairs
    that contain [k]. *)
Theorem bit_position (g : Graph) (i j : nat) :
  graph_ok g → (i < j < nNodes g)%nat →
  let n := nNodes g in
  let T := Z.of_nat (triuSize n) in
  Z.of_nat (upperTriuIndex i j n) = idx (Z.of_nat i) (Z.of_nat j) (Z.of_nat n)
  ∧ 0 ≤ T - 1 - idx (Z.of_nat i) (Z.of_nat j) (Z.of_nat n) < T
  ∧ isEdge g i j
    = Z.testbit (adjacencyTriu g)
        (T - 1 - idx (Z.of_nat i) (Z.of_nat j) (Z.of_nat n))
  ∧ ∀ k b, (k < n)%nat → 0 ≤ b →
      Z.testbit (degreeFilter g !!! k) b = true ↔
      ∃ u v, (u < v < n)%nat ∧ (u = k ∨ v = k)
             ∧ b = T - 1 - idx (Z.of_nat u) (Z.of_nat v) (Z.of_nat n).
Proof.
  intros Hg Hij. cbv zeta. pose proof Hg as [Hn Hm Hf Ha].
  pose proof (upperTriuIndex_idx _ Hn i j Hij) as Hidx.
  pose proof (bitpos_range _ Hn i j Hij) as Hr.
  unfold bitpos in Hr. rewrite Hidx in Hr.
  split_and!; [exact Hidx|exact (proj1 Hr)|exact (proj2 Hr)| |].
  - rewrite isEdge_testbit by (done || lia). unfold bitpos.
    by rewrite Hidx.
  - intros k b Hk Hb. rewrite Hf.
    rewrite degreeFilter_lookup by done.
    rewrite bitmask_testbit; [|
      apply Forall_fmap, Forall_forall;
      intros [u v] [Hp%elem_of_pairs _]%elem_of_incident; [|done];
      pose proof (bitpos_range _ Hn u v Hp); simpl; lia | done].
    rewrite bool_decide_eq_true, list_elem_of_fmap. split.
    + intros ([u v] & -> & [Hp%elem_of_pairs Hk']%elem_of_incident); [|done].
      exists u, v. simpl in Hk'. split_and!; [lia|lia|lia|].
      unfold bitpos. simpl.
      by rewrite (upperTriuIndex_idx _ Hn u v Hp).
    + intros (u & v & Hp & Hk' & ->). exists (u, v). split.
      * unfold bitpos. simpl.
        by rewrite (upperTriuIndex_idx _ Hn u v Hp).
      * apply elem_of_incident; [done|]. split; [by apply elem_of_pairs|].
        simpl. lia.
Qed.

Lemma bit_position_witness :
  isEdge (graph3 5) 0 2 = Z.testbit 5 (3 - 1 - idx 0 2 3).
Proof.
  apply (bit_position (graph3 5) 0 2).
  - apply graph3_ok. lia.
  - simpl. lia.
Defined.

(** C2, as the design document words it, fails: on three nodes the word [1]
    has bit [idx(0,1) = 0] set, yet [isEdge] finds no edge [(0,1)] in it (it
    reads bit 2), and the degree filter of node 0 does not have bit 0. *)
Lemma bit_position_counterexample :
  graph_ok (graph3 1)
  ∧ idx 0 1 3 = 0
  ∧ Z.testbit (adjacencyTriu (graph3 1)) (idx 0 1 3) = true
  ∧ isEdge (graph3 1) 0 1 = false
  ∧ Z.testbit (degreeFilter (graph3 1) !!! 0%nat) (idx 0 1 3) = false.
Proof. split; [apply graph3_ok; lia|]. by vm_compute. Qed.

(** C6 (connectivity).  For a graph object of the call the construction
    ends within [n] rounds of the traversal, and its flag is true exactly
    when every node is reached from node 0 along edges, which is exactly
    when the graph is connected.  The loop that constructs the graph
    objects hands on to the deduplication only objects whose flag is true,
    each constructed from a word of the candidate list; so every edge list
    [generateEdges] returns is the edge list of a graph whose flag is true,
    and it describes a connected graph. *)
Theorem connectivity_filter (fuel : nat) (colors : list nat)
    (maxDegree minDegree : Z) :
  (2 ≤ length colors ≤ 11)%nat →
  (∀ table a, 0 ≤ a < 2 ^ Z.of_nat (triuSize (length colors)) →
     ((length colors ≤ fuel)%nat → ∃ g, candidate fuel colors table a g)
     ∧ ∀ g, candidate fuel colors table a g →
         (isConnected g = true ↔
          ∀ v, (v < length colors)%nat → rtc (adjacent g) 0%nat v)
         ∧ (isConnected g = true ↔ connected_graph g))
  ∧ (∀ trius df masks table graphs,
       connectedGraphs fuel colors trius df masks table = Some graphs →
       ∀ g, g ∈ graphs →
            isConnected g = true
            ∧ ∃ a, a ∈ trius ∧ Graph_new fuel colors a df masks table = Some g)
  ∧ ∀ out edges,
      generateEdges fuel colors maxDegree minDegree = Some out →
      edges ∈ out → edges_connected (length colors) edges.
Proof.
  intros Hn. split; [|split].
  - intros table a Ha. split; [by apply candidate_exists|].
    intros g Hg. pose proof (candidate_connected _ _ _ _ _ Hn Ha Hg) as Hc.
    split; [|done]. rewrite Hc.
    destruct (candidate_fields _ _ _ _ _ Hg) as (Hng & _).
    rewrite connected_from_0 by lia. by rewrite Hng.
  - intros trius df masks table graphs (gs & Hgs & ->)%connectedGraphs_spec g.
    intros [Hc Hg]%list_elem_of_filter. split; [done|].
    clear Hc. induction Hgs as [|a g' trius gs Ha _ IH].
    + by apply elem_of_nil in Hg.
    + apply elem_of_cons in Hg as [->|Hg].
      * exists a. split; [left|done].
      * destruct (IH Hg) as (a' & Ha' & Hg'). exists a'. split; [by right|done].
  - intros out edges Hout Hin.
    destruct (generateEdges_sound _ _ _ _ _ _ Hn Hout Hin)
      as (table & a & g & _ & Ha & _ & Hg & Hc & ->).
    destruct (candidate_fields _ _ _ _ _ Hg) as (Hng & _).
    rewrite <- Hng. apply edges_connected_graph.
    by apply (candidate_connected _ _ _ _ _ Hn Ha Hg).
Qed.

Lemma connectivity_filter_witness :
  edges_connected 3 [(0, 2); (1, 2)]%nat.
Proof.
  apply (proj2 (proj2 (connectivity_filter 10 [0; 0; 0]%nat 2 0
                         ltac:(simpl; lia)))
           [[(0, 2); (1, 2)]; [(0, 1); (0, 2); (1, 2)]]%nat).
  - by vm_compute.
  - apply list_elem_of_here.
Defined.

(** C7 (degree filter).  For [2 <= n <= 11], a node [v < n] and an adjacency
    word of the [n(n-1)/2]-bit space, the population count of the word under
    the degree filter of [v] is the degree of [v]: the number of nodes [u]
    with an edge [{v,u}], which is the number of pairs of the edge list that
    contain [v].  In particular this holds for every edge list
    [generateEdges] returns, where the count also lies within the degree
    bounds. *)
Theorem degree_filter_popcount (n v : nat) :
  (2 ≤ n ≤ 11)%nat → (v < n)%nat →
  (∀ g, graph_ok g → nNodes g = n →
     popcountll (Z.land (adjacencyTriu g) (degreeFilter g !!! v))
     = Z.of_nat (degree g v)
     ∧ degree g v = incidence v (getEdges g))
  ∧ ∀ fuel colors maxDegree minDegree out edges,
      length colors = n →
      generateEdges fuel colors maxDegree minDegree = Some out →
      edges ∈ out →
      ∃ g, graph_ok g ∧ nNodes g = n ∧ edges = getEdges g
           ∧ popcountll (Z.land (adjacencyTriu g) (degreeFilter g !!! v))
             = Z.of_nat (incidence v edges)
           ∧ minDegree ≤ Z.of_nat (incidence v edges) ≤ maxDegree.
Proof.
  intros Hn Hv.
  assert (∀ g, graph_ok g → nNodes g = n →
     popcountll (Z.land (adjacencyTriu g) (degreeFilter g !!! v))
     = Z.of_nat (degree g v)
     ∧ degree g v = incidence v (getEdges g)) as Hdeg.
  { intros g Hg Hng. subst n.
    rewrite popcountll_degreeFilter, degree_incident, incidence_getEdges by done.
    done. }
  split; [done|].
  intros fuel colors maxDegree minDegree out edges Hlen Hout Hin. subst n.
  destruct (generateEdges_sound _ _ _ _ _ _ Hn Hout Hin)
    as (table & a & g & _ & Ha & Hcd & Hg & _ & ->).
  destruct (candidate_ok _ _ _ _ _ Hn Ha Hg) as [Hgo [Hng _ _]].
  destruct (candidate_fields _ _ _ _ _ Hg) as (_ & _ & Hag & Hdf & _).
  destruct (Hdeg g Hgo Hng) as [Hp Hi].
  exists g. split; [done|]. split; [done|]. split; [done|].
  split; [by rewrite Hp, Hi|].
  rewrite <- Hi, <- Hp, Hag, Hdf.
  unfold checkDegrees in Hcd. rewrite forallb_forall in Hcd.
  specialize (Hcd v ltac:(apply list_elem_of_In, elem_of_seq; lia)).
  apply negb_true_iff, orb_false_iff in Hcd as [H1%Z.ltb_ge H2%Z.ltb_ge].
  lia.
Qed.

Lemma degree_filter_popcount_witness :
  popcountll (Z.land (adjacencyTriu (graph3 5)) (degreeFilter (graph3 5) !!! 2%nat))
  = Z.of_nat (degree (graph3 5) 2).
Proof.
  apply (degree_filter_popcount 3 2); [lia|lia| |done].
  apply graph3_ok. lia.
Defined.

Local Open Scope Z_scope.

(** C3 at four nodes with [maxDegree = 2^30] and [minDegree = 0].  The
    product [nNodes * maxDegree] is [2^32], which is 0 in [unsigned int], so
    [totalMaxEdges] is 0, no number of edges is enumerated and the list of
    candidates is empty, with any amount of fuel.  Yet the word [56] (the
    star with centre 0) is a 6-bit value with 3 bits set, 3 lies in
    [[n-1, min(n*maxDegree/2, n(n-1)/2)]] = [[3, 6]], and it passes the
    degree check. *)
Theorem candidates_overflow (fuel : nat) :
  wrap32 (4 * 2 ^ 30) = 0
  ∧ candidates fuel 4 (2 ^ 30) 0 = Some []
  ∧ 0 ≤ 56 < 2 ^ Z.of_nat (triuSize 4)
  ∧ popcountll 56 = 3
  ∧ 4 - 1 ≤ 3 ≤ Z.min (4 * 2 ^ 30 / 2) (4 * (4 - 1) / 2)
  ∧ checkDegrees 56 (calculateDegreeFilter 4) 4 (2 ^ 30) 0 = true.
Proof.
  split; [reflexivity|]. split.
  - unfold candidates.
    replace (seqZ _ _) with (@nil Z) by (by vm_compute).
    reflexivity.
  - by vm_compute.
Qed.

(** C1 at [nodes = [0,0,0,0]], [maxDegree = 2^30], [minDegree = 0].  Once
    the permutation table is built (fuel 4 is enough) [generateEdges] returns
    no edge list at all: the candidate list is empty because
    [nNodes * maxDegree] wraps to 0.  With [maxDegree = 3], a bound that
    admits the same graphs on four nodes, it returns six edge lists; and the
    star with centre 0 (the word [56]) is a graph object of the call that is
    flagged connected and passes the degree check with [maxDegree = 2^30],
    so its class has no representative in the output. *)
Theorem generateEdges_overflow (fuel : nat) :
  (4 ≤ fuel)%nat →
  generateEdges fuel [0; 0; 0; 0]%nat (2 ^ 30) 0 = Some []
  ∧ length <$> generateEdges 32 [0; 0; 0; 0]%nat 3 0 = Some 6%nat
  ∧ checkDegrees 56 (calculateDegreeFilter 4) 4 (2 ^ 30) 0 = true
  ∧ (g ← Graph_new 32 [0; 0; 0; 0]%nat 56 (calculateDegreeFilter 4)
           (adjTriuMasksOf 4) [];
     Some (isConnected g, getEdges g))
    = Some (true, [(0, 1); (0, 2); (0, 3)]%nat).
Proof.
  intros Hf. split; [|by vm_compute].
  unfold generateEdges.
  change (length [0; 0; 0; 0]%nat) with 4%nat.
  assert (candidates fuel 4 (2 ^ 30) 0 = Some []) as ->.
  { unfold candidates.
    replace (seqZ _ _) with (@nil Z) by (by vm_compute).
    reflexivity. }
  destruct (permutationTable_members [0; 0; 0; 0]%nat fuel Hf)
    as (table & -> & _).
  reflexivity.
Qed.

Lemma generateEdges_overflow_witness :
  generateEdges 4 [0; 0; 0; 0]%nat (2 ^ 30) 0 = Some [].
Proof. apply (generateEdges_overflow 4). lia. Defined.

Local Open Scope Z_scope.

(** X1 (the advance step, the second half of C3).  On a word [v] with
    [0 < v < 2^63], [nextBitPermutation] gives a larger 64-bit word with the
    same number of set bits, and no word strictly between the two has that
    number of set bits.  The shell of [i] edges in a [T]-bit space
    ([1 <= i <= T <= 55]) starts at [2^i - 1], which has [i] set bits, and
    its end value [(2^i - 1) * 2^(T - i)] bounds every [T]-bit word with [i]
    set bits. *)
Theorem nextBitPermutation_smallest_larger (v : triu) (T i : Z) :
  0 < v < 2 ^ 63 → 1 ≤ i ≤ T → T ≤ 55 →
  (v < nextBitPermutation v < 2 ^ 64
   ∧ popcountll (nextBitPermutation v) = popcountll v
   ∧ ∀ w, v < w < nextBitPermutation v → popcountll w ≠ popcountll v)
  ∧ (wrap64 (shl64 1 i - 1) = 2 ^ i - 1
     ∧ popcountll (2 ^ i - 1) = i
     ∧ shl64 (wrap64 (shl64 1 i - 1)) (wrap32 (T - i))
       = (2 ^ i - 1) * 2 ^ (T - i)
     ∧ ∀ a, 0 ≤ a < 2 ^ T → popcountll a = i →
            a ≤ (2 ^ i - 1) * 2 ^ (T - i)).
Proof.
  intros Hv Hi HT. split.
  - destruct (nextBitPermutation_next v Hv) as (Hlt & Hpc & Hmin).
    split_and!; [done|apply nextBitPermutation_word|done..].
  - destruct (shell_bounds T i ltac:(lia) HT) as [Hs He].
    split_and!; [done|apply popcountll_pred_pow2; lia|done|].
    intros a Ha Hpc.
    destruct (popcountll_max (Z.to_nat T) a i) as [_ Hmax];
      rewrite ?Z2Nat.id in * by lia; done.
Qed.

Lemma nextBitPermutation_smallest_larger_witness :
  5 < nextBitPermutation 5 < 2 ^ 64
  ∧ popcountll (nextBitPermutation 5) = popcountll 5
  ∧ ∀ w, 5 < w < nextBitPermutation 5 → popcountll w ≠ popcountll 5.
Proof.
  apply (nextBitPermutation_smallest_larger 5 3 2); lia.
Defined.

(** X2 (the candidate list, the first half of C3 without the overflow).  For
    [2 <= n <= 11] and degree bounds whose product [n * maxDegree] fits 32
    bits, the enumeration phase ends once it has fuel [2^(n(n-1)/2)], and
    the candidate list holds, once each, exactly the [n(n-1)/2]-bit words
    whose number of set bits lies in [[n-1, min(n*maxDegree/2, n(n-1)/2)]]
    and in which the population count under every node's degree filter lies
    in [[minDegree, maxDegree]]. *)
Theorem candidates_exact (fuel n : nat) (maxDegree minDegree : Z) :
  (2 ≤ n ≤ 11)%nat →
  0 ≤ Z.of_nat n * maxDegree < 2 ^ 32 →
  2 ^ Z.of_nat (triuSize n) ≤ Z.of_nat fuel →
  ∃ trius,
    candidates fuel n maxDegree minDegree = Some trius
    ∧ NoDup trius
    ∧ ∀ a, a ∈ trius ↔
           0 ≤ a < 2 ^ Z.of_nat (triuSize n)
           ∧ Z.of_nat n - 1 ≤ popcountll a
             ≤ Z.min (Z.of_nat n * maxDegree / 2) (Z.of_nat n * (Z.of_nat n - 1) / 2)
           ∧ ∀ v, (v < n)%nat →
               minDegree
               ≤ popcountll (Z.land a (calculateDegreeFilter n !!! v))
               ≤ maxDegree.
Proof.
  intros Hn Hov Hfuel.
  destruct (candidates_spec fuel n maxDegree minDegree Hn Hfuel)
    as (trius & Hcand & Hnd & Htrius).
  rewrite wrap32_small in Htrius by done.
  assert (Z.of_nat n * (Z.of_nat n - 1) / 2 = Z.of_nat (triuSize n)) as ->.
  { unfold triuSize. rewrite Nat2Z.inj_div, Nat2Z.inj_mul, Nat2Z.inj_sub by lia.
    done. }
  exists trius. split_and!; [done..|].
  intros a. rewrite Htrius, checkDegrees_spec. done.
Qed.

Lemma candidates_exact_witness :
  ∃ trius,
    candidates 8 3 2 0 = Some trius
    ∧ NoDup trius
    ∧ ∀ a, a ∈ trius ↔
           0 ≤ a < 2 ^ Z.of_nat (triuSize 3)
           ∧ Z.of_nat 3 - 1 ≤ popcountll a
             ≤ Z.min (Z.of_nat 3 * 2 / 2) (Z.of_nat 3 * (Z.of_nat 3 - 1) / 2)
           ∧ ∀ v, (v < 3)%nat →
               0 ≤ popcountll (Z.land a (calculateDegreeFilter 3 !!! v)) ≤ 2.
Proof.
  apply (candidates_exact 8 3 2 0); [lia|lia|].
  change (2 ^ 3 ≤ 8). lia.
Defined.

Local Open Scope Z_scope.

(** X3 (the result of [generateEdges], C1 without the overflow).  For a
    valid coloring of [2 <= n <= 11] nodes and degree bounds whose product
    [n * maxDegree] fits 32 bits, [generateEdges] returns once it has fuel
    [2^(n(n-1)/2)]; every edge list it returns is a connected simple graph
    within the degree bounds; every connected simple graph within the degree
    bounds is related to a returned edge list by a color-preserving
    permutation of the node indices; and no two entries of the result are
    related by such a permutation. *)
Theorem generateEdges_classes fuel colors maxDegree minDegree :
  valid_coloring colors → (2 ≤ length colors ≤ 11)%nat →
  0 ≤ Z.of_nat (length colors) * maxDegree < 2 ^ 32 →
  2 ^ Z.of_nat (triuSize (length colors)) ≤ Z.of_nat fuel →
  ∃ out,
    generateEdges fuel colors maxDegree minDegree = Some out
    ∧ (∀ edges, edges ∈ out →
         simple_graph (length colors) edges
         ∧ edges_connected (length colors) edges
         ∧ degree_bounded (length colors) minDegree maxDegree edges)
    ∧ (∀ edges,
         simple_graph (length colors) edges →
         edges_connected (length colors) edges →
         degree_bounded (length colors) minDegree maxDegree edges →
         ∃ edges', edges' ∈ out ∧ edges_isomorphic colors edges edges')
    ∧ (∀ i j edges edges',
         out !! i = Some edges → out !! j = Some edges' →
         edges_isomorphic colors edges edges' → i = j).
Proof.
  intros Hv Hn Hov Hfuel.
  pose proof (fuel_nodes (length colors) fuel Hn Hfuel) as Hfn.
  destruct (candidates_spec fuel (length colors) maxDegree minDegree Hn Hfuel)
    as (trius & Hcand & _ & Htrius).
  rewrite wrap32_small in Htrius by done.
  destruct (permutationTable_members colors fuel Hfn) as (table & Htab & Hmem).
  destruct (connectedGraphs_exact fuel colors table trius Hn Hfn)
    as (graphs & Hconn & Hgraphs).
  { intros a Ha. by apply Htrius. }
  assert (∀ g, g ∈ graphs →
    ∃ a, (0 ≤ a < 2 ^ Z.of_nat (triuSize (length colors)))
         ∧ checkDegrees a (calculateDegreeFilter (length colors)) (length colors) maxDegree minDegree = true
         ∧ candidate fuel colors table a g
         ∧ connected_graph g) as Hgr.
  { intros g (a & (Ha & _ & Hcd)%Htrius & Hg & Hc)%Hgraphs.
    exists a. split; [done|]. split; [done|]. split; [done|].
    by apply (candidate_connected fuel colors table a g Hn Ha). }
  assert (∀ g h, g ∈ graphs → h ∈ graphs →
    Graph_eq g h = true ↔ isomorphic colors g h) as Heq.
  { intros g h (a & Ha & _ & Hg & _)%Hgr (a' & Ha' & _ & Hh & _)%Hgr.
    by apply (Graph_eq_isomorphic fuel fuel colors table a a'). }
  destruct (unique_graphs_spec graphs) as (HndU & HU & HUc & HUu).
  { intros x Hx. apply Heq; [done..|]. apply isomorphic_refl. }
  { intros u x Hu Hx Hf. apply not_true_is_false. intros Ht.
    apply Heq, isomorphic_sym, Heq in Ht; [|done..]. congruence. }
  set (U := retained (fold_left unique_step graphs [])) in *.
  exists (getEdges <$> U). split_and!.
  - unfold generateEdges. rewrite Hcand. simpl.
    rewrite Htab. simpl. rewrite Hconn. simpl.
    by rewrite uniqueEdges_retained.
  - intros edges (u & -> & Hu%HU)%list_elem_of_fmap.
    destruct (Hgr u Hu) as (a & Ha & Hcd & Hg & Hc).
    destruct (candidate_edges fuel colors table a u Hn Ha Hg)
      as (Hs & _ & Hdeg).
    destruct (candidate_fields _ _ _ _ _ Hg) as (Hng & _).
    split_and!; [done| |].
    + rewrite <- Hng. by apply edges_connected_graph.
    + intros v Hv'. rewrite <- Hdeg by done.
      by apply (proj1 (checkDegrees_spec _ _ _ _ _) Hcd).
  - intros edges Hs Hc Hb.
    pose proof (encode_range (length colors) Hn edges Hs) as Ha.
    destruct (candidate_exists fuel colors table (encode (length colors) edges) Hn Ha Hfn)
      as [g Hg].
    destruct (candidate_ok _ _ _ _ _ Hn Ha Hg) as [Hgo [Hng _ _]].
    destruct (candidate_fields _ _ _ _ _ Hg) as (_ & _ & Hag & _).
    pose proof (encode_getEdges (length colors) Hn edges Hs g Hgo Hng Hag) as Hperm.
    destruct (candidate_edges fuel colors table _ g Hn Ha Hg)
      as (_ & Hpc & Hdeg).
    assert (g ∈ graphs) as Hin.
    { apply Hgraphs. exists (encode (length colors) edges). split_and!; [|done|].
      - apply Htrius. split; [done|]. split; [split|].
        + rewrite Hpc, Hperm.
          pose proof (edges_lower_bound (length colors) edges Hc). lia.
        + apply Z.min_glb.
          * rewrite Hpc, Hperm. by eapply edges_upper_bound.
          * by destruct (popcountll_max (triuSize (length colors)) (encode (length colors) edges) _ Ha eq_refl).
        + apply checkDegrees_spec. intros v Hv'.
          rewrite Hdeg, (incidence_Permutation v _ _ Hperm) by done.
          by apply Hb.
      - apply (candidate_connected fuel colors table _ g Hn Ha Hg).
        apply edges_connected_graph. rewrite Hng.
        by apply (edges_connected_Permutation (length colors) edges). }
    destruct (HUc g Hin) as (u & Hu & Hug).
    exists (getEdges u). split; [apply list_elem_of_fmap; by exists u|].
    apply Heq, isomorphic_sym in Hug; [|by apply HU|done].
    destruct (Hgr u (HU u Hu)) as (au & _ & _ & Hcu & _).
    destruct (candidate_fields _ _ _ _ _ Hcu) as (Hnu & _).
    apply (isomorphic_edges colors g u Hng Hnu) in Hug as (p & Hp & Hpp).
    exists p. split; [done|]. by rewrite <- Hperm.
  - intros i j edges edges' Hi Hj Hiso.
    rewrite list_lookup_fmap in Hi, Hj.
    destruct (U !! i) as [u|] eqn:Hui; [|done].
    destruct (U !! j) as [u'|] eqn:Huj; [|done].
    simpl in Hi, Hj. simplify_eq.
    assert (u ∈ U) as Hu by (by eapply list_elem_of_lookup_2).
    assert (u' ∈ U) as Hu' by (by eapply list_elem_of_lookup_2).
    destruct (Hgr u (HU u Hu)) as (au & _ & _ & Hcu & _).
    destruct (Hgr u' (HU u' Hu')) as (au' & _ & _ & Hcu' & _).
    destruct (candidate_fields _ _ _ _ _ Hcu) as (Hnu & _).
    destruct (candidate_fields _ _ _ _ _ Hcu') as (Hnu' & _).
    apply (isomorphic_edges colors u u' Hnu Hnu'), Heq in Hiso;
      [|by apply HU..].
    assert (u = u') as <- by (by apply HUu).
    by apply (NoDup_lookup U i j u).
Qed.

Lemma generateEdges_classes_witness :
  ∃ out,
    generateEdges 8 [0; 0; 0]%nat 2 0 = Some out
    ∧ (∀ edges, edges ∈ out →
         simple_graph 3 edges ∧ edges_connected 3 edges
         ∧ degree_bounded 3 0 2 edges)
    ∧ (∀ edges,
         simple_graph 3 edges → edges_connected 3 edges →
         degree_bounded 3 0 2 edges →
         ∃ edges', edges' ∈ out ∧ edges_isomorphic [0; 0; 0]%nat edges edges')
    ∧ (∀ i j edges edges',
         out !! i = Some edges → out !! j = Some edges' →
         edges_isomorphic [0; 0; 0]%nat edges edges' → i = j).
Proof.
  apply (generateEdges_classes 8 [0; 0; 0]%nat 2 0).
  - split; [done|].
    intros [|[|[|i]]] a b; simpl; intros; simplify_eq; lia.
  - simpl. lia.
  - simpl. lia.
  - change (2 ^ 3 ≤ 8). lia.
Defined.

Local Open Scope nat_scope.

(** X4 (the adjacency matrix).  For a graph object with the tables of its
    call, [getAdjacencyMatrix] returns an [n] by [n] matrix whose entry
    [(i, j)] is 1 when [isEdge i j] and 0 otherwise: the bit of the pair
    [{i, j}] off the diagonal.  So the matrix is symmetric with a zero
    diagonal, its entries above the diagonal that are 1 are exactly the
    pairs [getEdges] returns, and the number of ones in row [v] is the
    degree of [v]. *)
Theorem getAdjacencyMatrix_spec (g : Graph) :
  graph_ok g →
  length (getAdjacencyMatrix g) = nNodes g
  ∧ (∀ i, i < nNodes g → length (getAdjacencyMatrix g !!! i) = nNodes g)
  ∧ (∀ i j, i < nNodes g → j < nNodes g →
       (getAdjacencyMatrix g !!! i) !!! j
       = (if isEdge g i j then 1 else 0)%Z
       ∧ (getAdjacencyMatrix g !!! i) !!! j
         = (getAdjacencyMatrix g !!! j) !!! i
       ∧ (getAdjacencyMatrix g !!! i) !!! i = 0%Z
       ∧ (i ≠ j →
          (getAdjacencyMatrix g !!! i) !!! j
          = Z.b2z (Z.testbit (adjacencyTriu g) (bitpos (nNodes g) i j))))
  ∧ (∀ i j, (i, j) ∈ getEdges g ↔
            i < j < nNodes g ∧ (getAdjacencyMatrix g !!! i) !!! j = 1%Z)
  ∧ (∀ v, v < nNodes g →
       length (filter (λ x, x = 1%Z) (getAdjacencyMatrix g !!! v))
       = degree g v).
Proof.
  intros Hg. destruct (getAdjacencyMatrix_entries g) as [[Hl Hr] He].
  split; [done|]. split; [done|]. split_and!.
  - intros i j Hi Hj. split_and!.
    + by apply He.
    + rewrite !He by done. by rewrite isEdge_sym.
    + rewrite He by done. by rewrite isEdge_irrefl.
    + intros Hne. rewrite He by done.
      rewrite isEdge_testbit by done. by destruct (Z.testbit _ _).
  - intros i j. rewrite elem_of_getEdges. split.
    + intros [Hij Hedge]. split; [done|]. rewrite He by lia. by rewrite Hedge.
    + intros [Hij H1]. split; [done|]. rewrite He in H1 by lia.
      by destruct (isEdge g i j).
  - intros v Hv. unfold degree.
    assert (getAdjacencyMatrix g !!! v
            = (λ j, if isEdge g v j then 1 else 0)%Z <$> seq 0 (nNodes g))
      as ->.
    { apply list_eq. intros j. rewrite list_lookup_fmap.
      destruct (decide (j < nNodes g)) as [Hj|Hj].
      - rewrite lookup_seq_lt by done. simpl.
        rewrite <- He by done. apply list_lookup_lookup_total_lt.
        rewrite Hr; done.
      - rewrite lookup_seq_ge by lia. apply lookup_ge_None. rewrite Hr; lia. }
    rewrite filter_fmap', length_fmap. f_equal.
    apply filter_ext_elem. intros j _. simpl.
    destruct (isEdge g v j); split; done.
Qed.

Lemma getAdjacencyMatrix_spec_witness :
  getAdjacencyMatrix (graph3 5%Z) = [[0; 1; 0]; [1; 0; 1]; [0; 1; 0]]%Z
  ∧ length (getAdjacencyMatrix (graph3 5%Z)) = nNodes (graph3 5%Z).
Proof.
  split; [by vm_compute|].
  apply (getAdjacencyMatrix_spec (graph3 5%Z)).
  split; simpl; (done || lia).
Defined.

Local Open Scope nat_scope.

(** X5 (the pair index).  [upperTriuIndex] does not depend on the order of
    its two nodes, and for [2 <= n <= 11] it numbers the pairs [i < j < n]
    row by row: it maps them one-to-one onto [0 .. n(n-1)/2 - 1], and a
    pair comes before another exactly when its index is smaller. *)
Theorem upperTriuIndex_bijection (n : nat) :
  2 ≤ n ≤ 11 →
  (∀ i j, upperTriuIndex i j n = upperTriuIndex j i n)
  ∧ (∀ i j, i < j < n → upperTriuIndex i j n < n * (n - 1) / 2)
  ∧ (∀ i j i' j', i < j < n → i' < j' < n →
       upperTriuIndex i j n = upperTriuIndex i' j' n → i = i' ∧ j = j')
  ∧ (∀ c, c < n * (n - 1) / 2 →
       ∃ i j, i < j < n ∧ upperTriuIndex i j n = c)
  ∧ (∀ i j i' j', i < j < n → i' < j' < n →
       upperTriuIndex i j n < upperTriuIndex i' j' n
       ↔ i < i' ∨ (i = i' ∧ j < j'))
  ∧ (∀ c i j, pairs n !! c = Some (i, j)
              ↔ i < j < n ∧ upperTriuIndex i j n = c).
Proof.
  intros Hn. fold (triuSize n).
  destruct (tables_parts n Hn) as (Hseq & _).
  split_and!.
  - intros i j. apply upperTriuIndex_sym.
  - intros i j. by apply upperTriuIndex_lt.
  - intros i j i' j' Hij Hij' Heq.
    apply (upperTriuIndex_inj n Hn) in Heq; [|done..]. by simplify_eq.
  - intros c. by apply upperTriuIndex_surj.
  - intros i j i' j' Hij Hij'.
    rewrite <- (idx_order n i j i' j') by (done || lia).
    rewrite <- !(upperTriuIndex_idx n Hn) by done. lia.
  - intros c i j. split.
    + intros Hc.
      assert ((i, j) ∈ pairs n) as Hin%elem_of_pairs
        by (by eapply list_elem_of_lookup_2).
      split; [done|].
      assert (((λ p, upperTriuIndex p.1 p.2 n) <$> pairs n) !! c
              = Some (upperTriuIndex i j n)) as Hl
        by (by rewrite list_lookup_fmap, Hc).
      rewrite Hseq in Hl. apply lookup_seq in Hl. lia.
    + intros [Hij <-].
      pose proof (upperTriuIndex_lt n Hn i j Hij) as Hlt.
      assert (is_Some (pairs n !! upperTriuIndex i j n)) as [[i' j'] Hl].
      { apply lookup_lt_is_Some.
        rewrite <- (length_fmap (λ p, upperTriuIndex p.1 p.2 n)), Hseq.
        by rewrite length_seq. }
      assert ((i', j') ∈ pairs n) as Hin%elem_of_pairs
        by (by eapply list_elem_of_lookup_2).
      assert (((λ p, upperTriuIndex p.1 p.2 n) <$> pairs n)
                !! upperTriuIndex i j n
              = Some (upperTriuIndex i' j' n)) as Hl'
        by (by rewrite list_lookup_fmap, Hl).
      rewrite Hseq in Hl'. apply lookup_seq in Hl' as [Heq _].
      simpl in Heq. symmetry in Heq.
      apply (upperTriuIndex_inj n Hn) in Heq; [|done..]. by simplify_eq.
Qed.

Lemma upperTriuIndex_bijection_witness :
  upperTriuIndex 1 3 4 < 4 * (4 - 1) / 2
  ∧ upperTriuIndex 1 3 4 = 4
  ∧ upperTriuIndex 3 1 4 = upperTriuIndex 1 3 4.
Proof.
  destruct (upperTriuIndex_bijection 4 ltac:(lia)) as (Hsym & Hlt & _).
  split_and!; [apply Hlt; lia|by vm_compute|apply Hsym].
Defined.

(** X6 (the mask tables).  For [2 <= n <= 11] the table of edge masks has
    [n(n-1)/2] entries, entry [c] being the single bit
    [n(n-1)/2 - 1 - c]; the table of degree filters has [n] entries, each
    an [n(n-1)/2]-bit word with [n - 1] bits set; the filters of two
    different nodes have exactly one bit in common, the edge mask of their
    pair; and under the filters the population counts of an adjacency word
    add up to twice its own population count. *)
Theorem mask_tables (n : nat) :
  2 ≤ n ≤ 11 →
  length (adjTriuMasksOf n) = n * (n - 1) / 2
  ∧ length (calculateDegreeFilter n) = n
  ∧ (∀ c, c < n * (n - 1) / 2 →
       adjTriuMasksOf n !!! c
       = (2 ^ (Z.of_nat (n * (n - 1) / 2) - 1 - Z.of_nat c))%Z)
  ∧ (∀ v, v < n →
       (0 ≤ calculateDegreeFilter n !!! v < 2 ^ Z.of_nat (n * (n - 1) / 2))%Z
       ∧ popcountll (calculateDegreeFilter n !!! v) = (Z.of_nat n - 1)%Z)
  ∧ (∀ u v, u < n → v < n → u ≠ v →
       Z.land (calculateDegreeFilter n !!! u) (calculateDegreeFilter n !!! v)
       = adjTriuMasksOf n !!! upperTriuIndex u v n)
  ∧ (∀ a, (0 ≤ a < 2 ^ Z.of_nat (n * (n - 1) / 2))%Z →
       foldr Z.add 0%Z
         ((λ v, popcountll (Z.land a (calculateDegreeFilter n !!! v)))
            <$> seq 0 n)
       = (2 * popcountll a)%Z).
Proof.
  intros Hn. fold (triuSize n).
  destruct (tables_parts n Hn) as (_ & _ & Hm & Hf).
  split_and!.
  - by rewrite Hm, length_fmap, length_seq.
  - by rewrite Hf, length_fmap, length_seq.
  - intros c Hc. by apply adjTriuMasks_lookup_count.
  - intros v Hv. split.
    + by apply degreeFilter_range.
    + by apply popcountll_degreeFilter_full.
  - intros u v Hu Hv Huv. by apply degreeFilter_land.
  - intros a Ha.
    apply (popcountll_handshake
             (mkGraph n [] [] false a (calculateDegreeFilter n)
                (adjTriuMasksOf n) [])).
    split; done.
Qed.

Lemma mask_tables_witness :
  length (adjTriuMasksOf 4) = 4 * (4 - 1) / 2
  ∧ length (calculateDegreeFilter 4) = 4
  ∧ Z.land (calculateDegreeFilter 4 !!! 1) (calculateDegreeFilter 4 !!! 3)
    = adjTriuMasksOf 4 !!! upperTriuIndex 1 3 4.
Proof.
  destruct (mask_tables 4 ltac:(lia)) as (Hm & Hf & _ & _ & Hland & _).
  split_and!; [apply Hm|apply Hf|apply Hland; lia].
Defined.

Local Open Scope Z_scope.

(** X7 (the degree check).  With the degree filters of [2 <= n <= 11]
    nodes, [checkDegrees] accepts a word exactly when the population count
    under every node's filter lies within the bounds.  Each of these counts
    is at most [n - 1]; so acceptance survives a widening of the bounds,
    bounds with [minDegree <= 0] and [n - 1 <= maxDegree] accept every
    word, and bounds with [maxDegree < minDegree] or [n - 1 < minDegree]
    accept none. *)
Theorem checkDegrees_bounds (n : nat) (a maxDegree minDegree : Z) :
  (2 ≤ n ≤ 11)%nat → 0 ≤ a < 2 ^ 64 →
  (checkDegrees a (calculateDegreeFilter n) n maxDegree minDegree = true
   ↔ ∀ v, (v < n)%nat →
          minDegree
          ≤ popcountll (Z.land a (calculateDegreeFilter n !!! v))
          ≤ maxDegree)
  ∧ (∀ v, (v < n)%nat →
       0 ≤ popcountll (Z.land a (calculateDegreeFilter n !!! v))
       ≤ Z.of_nat n - 1)
  ∧ (∀ maxDegree' minDegree',
       minDegree' ≤ minDegree → maxDegree ≤ maxDegree' →
       checkDegrees a (calculateDegreeFilter n) n maxDegree minDegree = true →
       checkDegrees a (calculateDegreeFilter n) n maxDegree' minDegree'
       = true)
  ∧ (minDegree ≤ 0 → Z.of_nat n - 1 ≤ maxDegree →
     checkDegrees a (calculateDegreeFilter n) n maxDegree minDegree = true)
  ∧ (maxDegree < minDegree ∨ Z.of_nat n - 1 < minDegree →
     checkDegrees a (calculateDegreeFilter n) n maxDegree minDegree = false).
Proof.
  intros Hn Ha.
  assert (∀ v, (v < n)%nat →
       0 ≤ popcountll (Z.land a (calculateDegreeFilter n !!! v))
       ≤ Z.of_nat n - 1) as Hle.
  { intros v Hv. apply popcountll_filter_le; done || lia. }
  split; [apply checkDegrees_spec|]. split; [done|]. split_and!.
  - intros maxDegree' minDegree' Hmin Hmax. rewrite !checkDegrees_spec.
    intros H v Hv. specialize (H v Hv). lia.
  - intros Hmin Hmax. apply checkDegrees_spec.
    intros v Hv. specialize (Hle v Hv). lia.
  - intros Hbad. apply not_true_is_false. rewrite checkDegrees_spec.
    intros H. specialize (H 0%nat ltac:(lia)).
    specialize (Hle 0%nat ltac:(lia)). lia.
Qed.

Lemma checkDegrees_bounds_witness :
  checkDegrees 5 (calculateDegreeFilter 3) 3 2 0 = true
  ∧ checkDegrees 5 (calculateDegreeFilter 3) 3 1 2 = false.
Proof.
  destruct (checkDegrees_bounds 3 5 2 0 ltac:(lia) ltac:(lia))
    as (_ & _ & _ & Hall & _).
  destruct (checkDegrees_bounds 3 5 1 2 ltac:(lia) ltac:(lia))
    as (_ & _ & _ & _ & Hnone).
  split; [apply Hall; lia|apply Hnone; lia].
Defined.

(** X8 (the edge list and the adjacency word).  For a graph object with
    the tables of its call, [getEdges] lists the pairs [i < j < n] whose bit
    is set, in row-major order and without repetition, as many as the word
    has set bits.  The list determines the word: or-ing the bits of the
    listed pairs gives the word back, two graph objects on [n] nodes with
    the same edge list have the same word, and a sorted list of pairs is the
    edge list of the word made of its bits. *)
Theorem getEdges_roundtrip (g : Graph) :
  graph_ok g →
  StronglySorted pair_lt (getEdges g)
  ∧ NoDup (getEdges g)
  ∧ (∀ i j, (i, j) ∈ getEdges g ↔
            (i < j < nNodes g)%nat
            ∧ Z.testbit (adjacencyTriu g) (bitpos (nNodes g) i j) = true)
  ∧ Z.of_nat (length (getEdges g)) = popcountll (adjacencyTriu g)
  ∧ encode (nNodes g) (getEdges g) = adjacencyTriu g
  ∧ (∀ h, graph_ok h → nNodes h = nNodes g →
          getEdges h = getEdges g → adjacencyTriu h = adjacencyTriu g)
  ∧ (∀ edges, simple_graph (nNodes g) edges →
              StronglySorted pair_lt edges →
              adjacencyTriu g = encode (nNodes g) edges →
              getEdges g = edges).
Proof.
  intros Hg. split_and!.
  - apply getEdges_sorted.
  - apply NoDup_getEdges.
  - intros i j. rewrite elem_of_getEdges. split.
    + intros [Hij He]. split; [done|].
      by rewrite <- isEdge_testbit by (done || lia).
    + intros [Hij He]. split; [done|].
      by rewrite isEdge_testbit by (done || lia).
  - by rewrite popcountll_edges.
  - by apply encode_getEdges_word.
  - intros h Hh Hn He.
    rewrite <- (encode_getEdges_word g Hg), <- (encode_getEdges_word h Hh).
    by rewrite Hn, He.
  - intros edges Hs Hsort Ha. by apply getEdges_encode.
Qed.

Lemma getEdges_roundtrip_witness :
  getEdges (graph3 5) = [(0, 1); (1, 2)]%nat
  ∧ encode 3 (getEdges (graph3 5)) = 5.
Proof.
  split; [by vm_compute|].
  apply (getEdges_roundtrip (graph3 5)).
  split; simpl; (done || lia).
Defined.

(** X9 ([operator==] decides isomorphism).  On the graph objects of one
    call, with a valid coloring of [2 <= n <= 11] nodes and the permutation
    table of the call, [operator==] returns true exactly when a
    color-preserving permutation of the node indices maps the edge list of
    the first onto the edge list of the second.  So it is transitive, it
    holds between graph objects with the same edge list, and graph objects
    it holds between have the same representation. *)
Theorem operator_eq_isomorphism (fuel : nat) (colors : list nat)
    (table : list (list nat)) (a b c : triu) (g h k : Graph) :
  valid_coloring colors → (2 ≤ length colors ≤ 11)%nat →
  (length colors ≤ fuel)%nat →
  permutationTable fuel colors = Some table →
  0 ≤ a < 2 ^ Z.of_nat (triuSize (length colors)) →
  0 ≤ b < 2 ^ Z.of_nat (triuSize (length colors)) →
  0 ≤ c < 2 ^ Z.of_nat (triuSize (length colors)) →
  candidate fuel colors table a g →
  candidate fuel colors table b h →
  candidate fuel colors table c k →
  (Graph_eq g h = true
   ↔ edges_isomorphic colors (getEdges g) (getEdges h))
  ∧ (Graph_eq g h = true → representation g = representation h)
  ∧ (Graph_eq g h = true → Graph_eq h k = true → Graph_eq g k = true)
  ∧ (getEdges g = getEdges h → Graph_eq g h = true).
Proof.
  intros Hv Hn Hf Htab Ha Hb Hc Hg Hh Hk.
  destruct (permutationTable_members colors fuel Hf) as (table' & Htab' & Hmem).
  assert (table' = table) as -> by congruence.
  destruct (candidate_fields _ _ _ _ _ Hg) as (Hng & _).
  destruct (candidate_fields _ _ _ _ _ Hh) as (Hnh & _).
  pose proof (Graph_eq_isomorphic fuel fuel colors table a b g h
                Hv Hn Hmem Ha Hb Hg Hh) as Hgh.
  pose proof (Graph_eq_isomorphic fuel fuel colors table b c h k
                Hv Hn Hmem Hb Hc Hh Hk) as Hhk.
  pose proof (Graph_eq_isomorphic fuel fuel colors table a c g k
                Hv Hn Hmem Ha Hc Hg Hk) as Hgk.
  split_and!.
  - rewrite Hgh. by apply isomorphic_edges.
  - apply Graph_eq_representation.
  - rewrite Hgh, Hhk, Hgk. apply isomorphic_trans.
  - intros He. apply Hgh. exists (seq 0 (length colors)).
    split; [apply color_perm_id|]. intros i j Hi Hj.
    rewrite !lookup_total_seq_lt by done.
    apply getEdges_eq_isEdge; congruence || lia.
Qed.

Lemma operator_eq_isomorphism_witness :
  Graph_eq
    (mkGraph 3 [0; 0; 1]%nat [1; 0; 1; 1; 0; 1; 0] false 2
       (calculateDegreeFilter 3) (adjTriuMasksOf 3)
       [[0; 1; 2]; [1; 0; 2]]%nat)
    (mkGraph 3 [0; 0; 1]%nat [1; 0; 1; 1; 0; 1; 0] false 1
       (calculateDegreeFilter 3) (adjTriuMasksOf 3)
       [[0; 1; 2]; [1; 0; 2]]%nat) = true
  ↔ edges_isomorphic [0; 0; 1]%nat
      (getEdges
         (mkGraph 3 [0; 0; 1]%nat [1; 0; 1; 1; 0; 1; 0] false 2
            (calculateDegreeFilter 3) (adjTriuMasksOf 3)
            [[0; 1; 2]; [1; 0; 2]]%nat))
      (getEdges
         (mkGraph 3 [0; 0; 1]%nat [1; 0; 1; 1; 0; 1; 0] false 1
            (calculateDegreeFilter 3) (adjTriuMasksOf 3)
            [[0; 1; 2]; [1; 0; 2]]%nat)).
Proof.
  apply (operator_eq_isomorphism 3 [0; 0; 1]%nat [[0; 1; 2]; [1; 0; 2]]%nat
           2 1 1 _ _
           (mkGraph 3 [0; 0; 1]%nat [1; 0; 1; 1; 0; 1; 0] false 1
              (calculateDegreeFilter 3) (adjTriuMasksOf 3)
              [[0; 1; 2]; [1; 0; 2]]%nat)).
  - split; [done|].
    intros [|[|[|i]]] x y; simpl; intros; simplify_eq; lia.
  - simpl. lia.
  - simpl. lia.
  - by vm_compute.
  - change (0 ≤ 2 < 8). lia.
  - change (0 ≤ 1 < 8). lia.
  - change (0 ≤ 1 < 8). lia.
  - by vm_compute.
  - by vm_compute.
  - by vm_compute.
Defined.

Local Open Scope Z_scope.

(** X12 (an empty range of edge counts).  When the upper edge count the
    code computes, [min(nNodes * maxDegree / 2, n(n-1)/2)] with the product
    taken in 32 bits, is below [n - 1], no word is enumerated and
    [generateEdges] returns the empty list as soon as the permutation table
    is built (fuel [n]).  That is the case for [maxDegree = 0], and for
    [maxDegree = 1] with three or more nodes. *)
Theorem generateEdges_empty_range (fuel : nat) (colors : list nat)
    (maxDegree minDegree : Z) :
  (2 ≤ length colors ≤ 11)%nat → (length colors ≤ fuel)%nat →
  (Z.min (wrap32 (Z.of_nat (length colors) * maxDegree) / 2)
         (Z.of_nat (length colors) * (Z.of_nat (length colors) - 1) / 2)
   < Z.of_nat (length colors) - 1 →
   generateEdges fuel colors maxDegree minDegree = Some [])
  ∧ (maxDegree = 0 →
     generateEdges fuel colors maxDegree minDegree = Some [])
  ∧ (maxDegree = 1 → (3 ≤ length colors)%nat →
     generateEdges fuel colors maxDegree minDegree = Some []).
Proof.
  intros Hn Hf.
  assert (Z.of_nat (length colors) * (Z.of_nat (length colors) - 1) / 2
          = Z.of_nat (triuSize (length colors))) as ->.
  { unfold triuSize.
    rewrite Nat2Z.inj_div, Nat2Z.inj_mul, Nat2Z.inj_sub by lia. done. }
  assert (Z.min (wrap32 (Z.of_nat (length colors) * maxDegree) / 2)
                (Z.of_nat (triuSize (length colors)))
          < Z.of_nat (length colors) - 1 →
          generateEdges fuel colors maxDegree minDegree = Some []) as Hempty.
  { intros Hlt. unfold generateEdges.
    rewrite (candidates_empty fuel _ maxDegree minDegree Hn Hlt). simpl.
    destruct (permutationTable_members colors fuel Hf) as (table & -> & _).
    done. }
  split; [done|]. split.
  - intros ->. apply Hempty. rewrite Z.mul_0_r.
    change (wrap32 0 / 2) with 0. lia.
  - intros -> H3. apply Hempty. rewrite Z.mul_1_r, wrap32_small by lia.
    assert (Z.of_nat (length colors) / 2 < Z.of_nat (length colors) - 1);
      [|lia].
    apply Z.div_lt_upper_bound; lia.
Qed.

Lemma generateEdges_empty_range_witness :
  generateEdges 3 [0; 0; 1]%nat 1 0 = Some [].
Proof.
  destruct (generateEdges_empty_range 3 [0; 0; 1]%nat 1 0)
    as (_ & _ & H); [simpl; lia..|].
  apply H; [done|simpl; lia].
Defined.

(** X13 (pairwise different colors).  For a valid coloring of
    [2 <= n <= 11] nodes with no color twice and degree bounds whose product
    [n * maxDegree] fits 32 bits, only the identity preserves the colors,
    and the result of [generateEdges] (with fuel [2^(n(n-1)/2)]) is, without
    repetition, exactly the row-major sorted edge lists of the connected
    simple graphs on [n] nodes within the degree bounds. *)
Theorem generateEdges_distinct_colors (fuel : nat) (colors : list nat)
    (maxDegree minDegree : Z) :
  valid_coloring colors → NoDup colors →
  (2 ≤ length colors ≤ 11)%nat →
  0 ≤ Z.of_nat (length colors) * maxDegree < 2 ^ 32 →
  2 ^ Z.of_nat (triuSize (length colors)) ≤ Z.of_nat fuel →
  ∃ out,
    generateEdges fuel colors maxDegree minDegree = Some out
    ∧ NoDup out
    ∧ ∀ edges, edges ∈ out ↔
        simple_graph (length colors) edges
        ∧ StronglySorted pair_lt edges
        ∧ edges_connected (length colors) edges
        ∧ degree_bounded (length colors) minDegree maxDegree edges.
Proof.
  intros Hv Hnd Hn Hov Hfuel.
  pose proof (fuel_nodes _ fuel Hn Hfuel) as Hfn.
  destruct (generateEdges_retained fuel colors maxDegree minDegree Hv Hn Hfuel)
    as (trius & table & U & Hcand & Htab & Hmem & Hout & HndU & HU & HUc & HUu).
  destruct (candidates_spec fuel (length colors) maxDegree minDegree Hn Hfuel)
    as (trius' & Hcand' & _ & Htrius).
  assert (trius' = trius) as -> by congruence.
  rewrite wrap32_small in Htrius by done.
  assert (∀ u g, nNodes u = length colors → nNodes g = length colors →
    isomorphic colors u g → getEdges u = getEdges g) as Hid.
  { intros u g Hnu Hng (p & Hp & Hm). apply getEdges_ext; [congruence|].
    intros i j Hij. rewrite Hnu in Hij. rewrite Hm by lia.
    by rewrite !(color_perm_distinct colors p) by (done || lia). }
  assert (∀ u, u ∈ U →
    ∃ a, (0 ≤ a < 2 ^ Z.of_nat (triuSize (length colors)))
         ∧ checkDegrees a (calculateDegreeFilter (length colors))
             (length colors) maxDegree minDegree = true
         ∧ candidate fuel colors table a u ∧ connected_graph u
         ∧ nNodes u = length colors) as HU'.
  { intros u (a & Ha & Hg & Hc)%HU.
    pose proof (proj1 (Htrius a) Ha) as (Hr & _ & Hcd).
    destruct (candidate_fields _ _ _ _ _ Hg) as (Hnu & _).
    by exists a. }
  exists (getEdges <$> U). split; [done|]. split.
  - apply NoDup_fmap_2_strong; [|done].
    intros u u' Hu Hu' He. apply HUu; [done..|].
    destruct (HU' u Hu) as (_ & _ & _ & _ & _ & Hnu).
    destruct (HU' u' Hu') as (_ & _ & _ & _ & _ & Hnu').
    exists (seq 0 (length colors)). split; [apply color_perm_id|].
    intros i j Hi Hj. rewrite !lookup_total_seq_lt by done.
    apply getEdges_eq_isEdge; congruence || lia.
  - intros edges. split.
    + intros (u & -> & Hu)%list_elem_of_fmap.
      destruct (HU' u Hu) as (a & Ha & Hcd & Hg & Hc & Hnu).
      destruct (candidate_edges fuel colors table a u Hn Ha Hg)
        as (Hs & _ & Hdeg).
      split_and!; [done|apply getEdges_sorted| |].
      * rewrite <- Hnu. by apply edges_connected_graph.
      * intros v Hv'. rewrite <- Hdeg by done.
        by apply (proj1 (checkDegrees_spec _ _ _ _ _) Hcd).
    + intros (Hs & Hsort & Hc & Hb).
      pose proof (encode_range _ Hn edges Hs) as Ha.
      destruct (candidate_exists fuel colors table (encode (length colors) edges)
                  Hn Ha Hfn) as [g Hg].
      destruct (candidate_ok _ _ _ _ _ Hn Ha Hg) as [Hgo [Hng _ _]].
      destruct (candidate_fields _ _ _ _ _ Hg) as (_ & _ & Hag & _).
      assert (getEdges g = edges) as He.
      { apply getEdges_encode; [done|by rewrite Hng|done|by rewrite Hng]. }
      destruct (candidate_edges fuel colors table _ g Hn Ha Hg)
        as (_ & Hpc & Hdeg).
      rewrite He in Hpc, Hdeg.
      assert (connected_graph g) as Hcg.
      { apply edges_connected_graph. by rewrite Hng, He. }
      destruct (HUc (encode (length colors) edges) g) as (u & Hu & Hiso);
        [|done..|].
      { apply Htrius. split; [done|]. split; [split|].
        - rewrite Hpc.
          pose proof (edges_lower_bound _ edges Hc). lia.
        - apply Z.min_glb.
          + rewrite Hpc. by eapply edges_upper_bound.
          + by destruct (popcountll_max (triuSize (length colors))
                           (encode (length colors) edges) _ Ha eq_refl).
        - apply checkDegrees_spec. intros v Hv'. rewrite Hdeg by done.
          by apply Hb. }
      destruct (HU' u Hu) as (_ & _ & _ & _ & _ & Hnu).
      apply list_elem_of_fmap. exists u. split; [|done].
      rewrite <- He. symmetry. by apply Hid.
Qed.

Lemma generateEdges_distinct_colors_witness :
  ∃ out,
    generateEdges 8 [0; 1; 2]%nat 2 1 = Some out
    ∧ NoDup out
    ∧ ∀ edges, edges ∈ out ↔
        simple_graph 3 edges
        ∧ StronglySorted pair_lt edges
        ∧ edges_connected 3 edges
        ∧ degree_bounded 3 1 2 edges.
Proof.
  apply (generateEdges_distinct_colors 8 [0; 1; 2]%nat 2 1).
  - split; [done|].
    intros [|[|[|i]]] x y; simpl; intros; simplify_eq; lia.
  - apply (bool_decide_unpack _). by vm_compute.
  - simpl. lia.
  - simpl. lia.
  - change (2 ^ 3 ≤ 8). lia.
Defined.

Local Open Scope nat_scope.

(** X10 (backtracking).  A call of [generatePermutations] at position
    [k <= n], entered with a buffer of length [n] and an index map whose
    pools are duplicate free, hold indices of their own color and have as
    many of them as there are positions of that color from [k] on, returns
    within [n - k] levels of recursion.  It leaves the index map as it found
    it and the buffer unchanged below [k], and it only appends to the
    output: the new entries are, once each, the permutations that agree with
    the buffer below [k] and fill the positions from [k] on with different
    indices taken from the pool of the position's color.  When the map has
    no pool for the color at position [k < n], the call throws (no
    result), whatever the fuel. *)
Theorem generatePermutations_backtracks (nodes : list nat) (fuel k : nat)
    (st : PermGen) :
  k ≤ length nodes → length nodes - k ≤ fuel →
  length (currentPermutation st) = length nodes →
  pools_ok nodes k (indexMap st) →
  (∃ st' L,
     generatePermutations fuel nodes k st = Some st'
     ∧ indexMap st' = indexMap st
     ∧ length (currentPermutation st') = length nodes
     ∧ take k (currentPermutation st') = take k (currentPermutation st)
     ∧ out_permutations st' = out_permutations st ++ L
     ∧ NoDup L
     ∧ length L = choices (drop k nodes)
     ∧ ∀ p, p ∈ L ↔
         length p = length nodes
         ∧ take k p = take k (currentPermutation st)
         ∧ NoDup (drop k p)
         ∧ ∀ j, k ≤ j < length nodes →
                p !!! j ∈ pool (indexMap st) (nodes !!! j))
  ∧ ∀ fuel' (st0 : PermGen),
      k < length nodes → indexMap st0 !! (nodes !!! k) = None →
      generatePermutations fuel' nodes k st0 = None.
Proof.
  intros Hk Hf Hlen Hpools. split.
  - destruct (generatePermutations_spec nodes fuel k st Hk Hf Hlen Hpools)
      as (st' & Hg & Hm & Hl & Ht & L & Hout & Hnd & HL & Hmem).
    exists st', L. split_and!; done.
  - intros fuel' st0 Hlt Hnone.
    destruct fuel' as [|fuel']; simpl;
      rewrite (proj2 (Nat.eqb_neq k (length nodes))) by lia; [done|].
    destruct (length nodes) as [|n]; simpl; by rewrite Hnone.
Qed.

Lemma generatePermutations_backtracks_witness :
  ∃ st' L,
    generatePermutations 3 [0; 0; 1] 0
      (mkPermGen [] [0; 0; 0] {[ 0 := [0; 1]; 1 := [2] ]}) = Some st'
    ∧ indexMap st' = {[ 0 := [0; 1]; 1 := [2] ]}
    ∧ out_permutations st' = [] ++ L
    ∧ length L = choices [0; 0; 1].
Proof.
  destruct (generatePermutations_backtracks [0; 0; 1] 3 0
              (mkPermGen [] [0; 0; 0] {[ 0 := [0; 1]; 1 := [2] ]}))
    as [(st' & L & Hg & Hm & _ & _ & Hout & _ & HL & _) _].
  - simpl. lia.
  - simpl. lia.
  - done.
  - assert ({[ 0 := [0; 1]; 1 := [2] ]}
            = fold_left
                (λ (indexMap : gmap nat (list nat)) i,
                   <[[0; 0; 1] !!! i
                     := default [] (indexMap !! ([0; 0; 1] !!! i)) ++ [i]]>
                     indexMap)
                (seq 0 (length [0; 0; 1])) ∅) as ->.
    { apply map_eq. intros i. by vm_compute. }
    apply pools_ok_init.
  - exists st', L. split_and!; done.
Defined.

Local Open Scope Z_scope.

(** X11 (which error the binding reports).  The checks run in a fixed
    order.  Argument parsing comes first: a call that has not exactly three
    arguments (positional and keyword ones together), or whose
    [max_degree] or [min_degree] has no integer value, gives the
    "Expected a tuple of integers ..." [TypeError], also when the first
    argument is not a tuple; the degrees may as well be given by keyword.
    Parsing keeps the low 32 bits of each degree, and the later checks see
    only these.  After parsing, a first argument that is not a tuple gives
    the "must be a tuple" [TypeError] whatever the degrees are; then the
    truncated degree bounds are checked, before the tuple is looked at.
    With truncated degree bounds that pass and a tuple of at most 11
    elements, the elements are checked from the left and the first
    offending one decides: after a valid run of integers [zs], an element
    that is not an [int] gives the "must be integers" [TypeError]; an
    integer that is negative or does not fit a [long] gives the
    "non-negative" error; a first element other than 0 gives the "first
    node value" error; and a later element that is neither its predecessor
    nor its predecessor plus one gives the "strictly increasing" error.
    What follows the offending element is not looked at, and the
    enumeration [enum] is not called. *)
Theorem generatePyEdges_first_error
    (enum : list nat → Z → Z → option (list (list (nat * nat))))
    (zs : list Z) (item : PyObject) (rest : list PyObject)
    (maxDegree minDegree : Z) :
  0 ≤ truncated minDegree ≤ truncated maxDegree →
  run_ok zs → (length zs + 1 + length rest ≤ 11)%nat →
  ((∀ z, item ≠ PyLong z) →
   generatePyEdges_with enum
     [PyTuple ((PyLong <$> zs) ++ item :: rest);
      PyLong maxDegree; PyLong minDegree] ∅
   = Some (inl err_not_int))
  ∧ (∀ z, item = PyLong z → z < 0 ∨ 2 ^ 63 ≤ z →
     generatePyEdges_with enum
       [PyTuple ((PyLong <$> zs) ++ item :: rest);
        PyLong maxDegree; PyLong minDegree] ∅
     = Some (inl err_negative))
  ∧ (∀ z, item = PyLong z → 0 < z < 2 ^ 63 → zs = [] →
     generatePyEdges_with enum
       [PyTuple ((PyLong <$> zs) ++ item :: rest);
        PyLong maxDegree; PyLong minDegree] ∅
     = Some (inl err_first))
  ∧ (∀ z y, item = PyLong z → 0 ≤ z < 2 ^ 63 → last zs = Some y →
     z ≠ y → z ≠ y + 1 →
     generatePyEdges_with enum
       [PyTuple ((PyLong <$> zs) ++ item :: rest);
        PyLong maxDegree; PyLong minDegree] ∅
     = Some (inl err_increasing))
  ∧ (∀ args kwds, (length args + size kwds ≠ 3)%nat →
     generatePyEdges_with enum args kwds = Some (inl err_parse))
  ∧ (∀ o a b, convert_I a = None ∨ convert_I b = None →
     generatePyEdges_with enum [o; a; b] ∅ = Some (inl err_parse))
  ∧ (∀ o a b,
     generatePyEdges_with enum [o]
       {[ "max_degree"%string := a; "min_degree"%string := b ]}
     = generatePyEdges_with enum [o; a; b] ∅)
  ∧ (∀ o a b, (∀ items, o ≠ PyTuple items) →
     generatePyEdges_with enum [o; PyLong a; PyLong b] ∅
     = Some (inl err_not_tuple))
  ∧ (∀ items a b,
       (truncated a < truncated b →
        generatePyEdges_with enum [PyTuple items; PyLong a; PyLong b] ∅
        = Some (inl err_degree_order))
       ∧ (truncated b ≤ truncated a → truncated b < 0 →
          generatePyEdges_with enum [PyTuple items; PyLong a; PyLong b] ∅
          = Some (inl err_min_degree))).
Proof.
  intros Hmin Hok Hlen.
  pose proof (truncated_range maxDegree) as Hmax.
  assert (generatePyEdges_with enum
            [PyTuple ((PyLong <$> zs) ++ item :: rest);
             PyLong maxDegree; PyLong minDegree] ∅
          = match convertNodes (item :: rest) (length zs) zs with
            | inl e => Some (inl e)
            | inr nodes =>
                if 1 <? Z.of_nat (length zs + 1 + length rest)%nat
                then edges ← enum (Z.to_nat <$> nodes) (truncated maxDegree)
                               (truncated minDegree);
                     Some (inr edges)
                else Some (inr [[]])
            end) as Hrun.
  { rewrite generatePyEdges_positional. unfold generatePyEdges_parsed.
    rewrite (proj2 (Z.ltb_ge (truncated maxDegree) (truncated minDegree)))
      by lia.
    rewrite (proj2 (Z.ltb_ge (truncated minDegree) 0)) by lia.
    assert (length ((PyLong <$> zs) ++ item :: rest)
            = (length zs + 1 + length rest)%nat) as Hl.
    { rewrite length_app, length_fmap. simpl. lia. }
    rewrite Hl, !wrap32_small by lia.
    rewrite (proj2 (Z.eqb_neq _ 0)) by lia.
    rewrite (proj2 (Z.ltb_ge 11 _)) by lia.
    rewrite Nat2Z.id, <- Hl, firstn_all, Hl.
    rewrite convertNodes_prefix by (done || lia). done. }
  split; [|split; [|split; [|split; [|split; [|split; [|split; [|split]]]]]]].
  - intros Hni. rewrite Hrun. cbn [convertNodes].
    destruct item as [z| | |]; [by destruct (Hni z)|done..].
  - intros z -> Hz. rewrite Hrun. cbn [convertNodes]. unfold PyLong_AsLong.
    destruct ((- 2 ^ 63 <=? z) && (z <? 2 ^ 63)) eqn:Hfit.
    + apply andb_true_iff in Hfit as [_ Hlt%Z.ltb_lt].
      by rewrite (proj2 (Z.ltb_lt z 0)) by lia.
    + done.
  - intros z -> Hz ->. rewrite Hrun. cbn [convertNodes length].
    unfold PyLong_AsLong.
    replace ((- 2 ^ 63 <=? z) && (z <? 2 ^ 63)) with true
      by (symmetry; apply andb_true_iff; rewrite Z.leb_le, Z.ltb_lt; lia).
    rewrite (proj2 (Z.ltb_ge z 0)) by lia.
    by rewrite (proj2 (Z.eqb_neq z 0)) by lia.
  - intros z y -> Hz Hlast Hne Hne'. rewrite Hrun. cbn [convertNodes].
    unfold PyLong_AsLong.
    replace ((- 2 ^ 63 <=? z) && (z <? 2 ^ 63)) with true
      by (symmetry; apply andb_true_iff; rewrite Z.leb_le, Z.ltb_lt; lia).
    rewrite (proj2 (Z.ltb_ge z 0)) by lia.
    rewrite last_lookup in Hlast.
    pose proof (lookup_lt_Some _ _ _ Hlast) as Hi.
    pose proof (run_ok_bound _ _ _ Hok Hlast) as Hy.
    replace (Nat.pred (length zs)) with (length zs - 1)%nat in Hlast by lia.
    rewrite (list_lookup_total_correct _ _ _ Hlast).
    rewrite (proj2 (Nat.eqb_neq (length zs) 0)) by lia.
    rewrite (proj2 (Nat.ltb_lt 0 (length zs))) by lia.
    rewrite (wrap32_small (y + 1)) by lia.
    rewrite (proj2 (Z.eqb_neq z y)), (proj2 (Z.eqb_neq z (y + 1))) by done.
    done.
  - intros args kwds Hn. unfold generatePyEdges_with.
    destruct (PyArg_ParseTupleAndKeywords args kwds) as [r|] eqn:Hr; [|done].
    destruct Hn. apply parse_arity. by eexists.
  - intros o a b Hab. unfold generatePyEdges_with.
    assert (PyArg_ParseTupleAndKeywords [o; a; b] ∅ = None) as ->; [|done].
    unfold PyArg_ParseTupleAndKeywords, current_arg. simpl.
    destruct Hab as [-> | ->]; [done|]. by destruct (convert_I a).
  - intros o a b. unfold generatePyEdges_with.
    assert (PyArg_ParseTupleAndKeywords [o]
              {[ "max_degree"%string := a; "min_degree"%string := b ]}
            = PyArg_ParseTupleAndKeywords [o; a; b] ∅) as ->; [|done].
    unfold PyArg_ParseTupleAndKeywords, current_arg.
    rewrite map_size_insert_None by by rewrite lookup_singleton_ne.
    rewrite map_size_singleton, map_size_empty.
    change (length kwlist <? length [o] + 2)%nat with false.
    change (length kwlist <? length [o; a; b] + 0)%nat with false.
    change (1 <? length [o])%nat with false.
    change (2 <? length [o])%nat with false.
    change (kwlist !!! 1%nat) with "max_degree"%string.
    change (kwlist !!! 2%nat) with "min_degree"%string.
    rewrite lookup_insert_eq, lookup_insert_ne by done.
    by rewrite lookup_singleton_eq.
  - intros o a b Hnt. rewrite generatePyEdges_positional.
    destruct o as [z|items|z|]; [done|by destruct (Hnt items)|done..].
  - intros items a b. rewrite generatePyEdges_positional.
    unfold generatePyEdges_parsed. split.
    + intros Hlt. by rewrite (proj2 (Z.ltb_lt _ _) Hlt).
    + intros Hle Hneg.
      rewrite (proj2 (Z.ltb_ge (truncated a) (truncated b))) by lia.
      by rewrite (proj2 (Z.ltb_lt _ _) Hneg).
Qed.

Lemma generatePyEdges_first_error_witness :
  generatePyEdges 100
    [PyTuple [PyLong 0; PyLong 1; PyOther; PyLong (-5)]; PyLong 3; PyLong 1] ∅
  = Some (inl err_not_int)
  ∧ generatePyEdges 100
      [PyTuple [PyLong 0; PyLong 1; PyLong 3; PyOther]; PyLong 3; PyLong 1] ∅
    = Some (inl err_increasing).
Proof.
  assert (run_ok [0; 1]) as Hok.
  { split; [intros a; simpl; intros; by simplify_eq|].
    intros [|[|i]] a b; simpl; intros; simplify_eq; lia. }
  assert (0 ≤ truncated 1 ≤ truncated 3) as Hd
    by (vm_compute; split; discriminate).
  destruct (generatePyEdges_first_error (generateEdges 100) [0; 1] PyOther
              [PyLong (-5)] 3 1) as (H1 & _); [done|done|simpl; lia|].
  destruct (generatePyEdges_first_error (generateEdges 100) [0; 1] (PyLong 3)
              [PyOther] 3 1) as (_ & _ & _ & H2 & _);
    [done|done|simpl; lia|].
  split; [by apply H1|apply (H2 3 1); done || lia].
Defined.

Local Open Scope Z_scope.

(** X14 (the layout of the representation).  For a graph object of a call
    with a valid coloring of [2 <= n <= 11] nodes and [m] colors (the last
    color plus one), the representation is the population count of the
    adjacency word, followed by [n] degrees and by [m(m+1)/2] edge counts:
    its length is [1 + n + m(m+1)/2].  The degrees are, in some order, the
    population counts of the word under the [n] degree filters and add up
    to twice the first entry; the edge counts add up to the first entry. *)
Theorem representation_layout (fuel : nat) (colors : list nat)
    (table : list (list nat)) (a : triu) (g : Graph) :
  valid_coloring colors → (2 ≤ length colors ≤ 11)%nat →
  0 ≤ a < 2 ^ Z.of_nat (triuSize (length colors)) →
  candidate fuel colors table a g →
  ∃ degs counts,
    representation g = popcountll a :: degs ++ counts
    ∧ degs ≡ₚ (λ v, popcountll
                      (Z.land a (calculateDegreeFilter (length colors) !!! v)))
              <$> seq 0 (length colors)
    ∧ length counts
      = (S (list_max colors) * (S (list_max colors) + 1) / 2)%nat
    ∧ foldr Z.add 0 degs = 2 * popcountll a
    ∧ foldr Z.add 0 counts = popcountll a
    ∧ length (representation g)
      = (1 + length colors
         + S (list_max colors) * (S (list_max colors) + 1) / 2)%nat.
Proof.
  intros Hv Hn Ha Hg.
  pose proof (candidate_representation _ _ _ _ _ Hv Hn Ha Hg) as Hrep.
  destruct (candidate_ok _ _ _ _ _ Hn Ha Hg) as [Hgo [Hng Hnodes _]].
  destruct (candidate_fields _ _ _ _ _ Hg) as (_ & _ & Hag & Hdf & _).
  destruct (candidate_edges _ _ _ _ _ Hn Ha Hg) as (Hs & Hpc & Hdeg).
  unfold invariant_vector in Hrep. rewrite Hnodes, Hng, <- Hpc in Hrep.
  set (m := S (list_max colors)) in *.
  set (degs := c ← seq 0 m; _) in Hrep.
  set (counts := x ← seq 0 m; _) in Hrep.
  assert (∀ v, (v < length colors)%nat → (colors !!! v < m)%nat) as Hcol.
  { intros v Hv'. unfold m. rewrite valid_coloring_list_max by done.
    pose proof (valid_coloring_le_last colors v Hv Hv'). lia. }
  assert (degs ≡ₚ (λ v, popcountll
                          (Z.land a (calculateDegreeFilter (length colors) !!! v)))
                  <$> seq 0 (length colors)) as Hdegs.
  { unfold degs.
    rewrite (bind_Permutation_ext _
               (λ c, (λ v, Z.of_nat (degree g v))
                       <$> filter (λ v, colors !!! v = c)
                                  (seq 0 (length colors)))).
    2:{ intros c _. apply merge_sort_Permutation. }
    rewrite <- fmap_bind_out, classes_Permutation.
    2:{ intros v Hv'%elem_of_seq. apply Hcol. lia. }
    assert ((λ v, Z.of_nat (degree g v)) <$> seq 0 (length colors)
            = (λ v, popcountll
                      (Z.land a (calculateDegreeFilter (length colors) !!! v)))
                <$> seq 0 (length colors)) as ->; [|done].
    apply list_eq. intros i. rewrite !list_lookup_fmap.
    destruct (seq 0 (length colors) !! i) as [v|] eqn:Hi; [|done].
    apply lookup_seq in Hi as [-> Hi]. simpl. f_equal.
    rewrite Hdeg by done.
    by rewrite degree_incident, incidence_getEdges by lia. }
  assert (length counts = (m * (m + 1) / 2)%nat) as Hlc
    by apply length_color_pairs.
  assert (foldr Z.add 0 counts = popcountll a) as Hsc.
  { unfold counts.
    assert ((x ← seq 0 m;
             (λ b, Z.of_nat (length (filter (λ e, edge_colors colors e = (x, b))
                                            (getEdges g))))
               <$> seq x (m - x))
            = (λ k, Z.of_nat (length (filter (λ e, edge_colors colors e = k)
                                             (getEdges g))))
                <$> (x ← seq 0 m; (λ b, (x, b)) <$> seq x (m - x))) as ->.
    { rewrite fmap_bind_out. apply bind_ext_eq. intros x.
      by rewrite <- list_fmap_compose. }
    rewrite sum_by_key; [by rewrite Hpc|apply NoDup_color_pairs|].
    intros [i j] [Hij _]%elem_of_getEdges. rewrite Hng in Hij.
    unfold edge_colors. cbn [fst snd].
    apply elem_of_color_pairs.
    pose proof (Hcol i ltac:(lia)). pose proof (Hcol j ltac:(lia)). lia. }
  exists degs, counts. split_and!; [done|done|done| |done|].
  - rewrite (sum_Permutation _ _ Hdegs).
    pose proof (popcountll_handshake g Hgo) as Hh.
    by rewrite Hag, Hdf, Hng in Hh.
  - rewrite Hrep, !length_app, Hlc, Hdegs.
    rewrite length_fmap, length_seq. cbn [length]. lia.
Qed.

Lemma representation_layout_witness :
  length
    (representation
       (mkGraph 3 [0; 0; 1]%nat [2; 1; 2; 1; 1; 1; 0] true 5
          (calculateDegreeFilter 3) (adjTriuMasksOf 3) []))
  = (1 + length [0; 0; 1]%nat
     + S (list_max [0; 0; 1]%nat) * (S (list_max [0; 0; 1]%nat) + 1) / 2)%nat.
Proof.
  destruct (representation_layout 3 [0; 0; 1]%nat [] 5
              (mkGraph 3 [0; 0; 1]%nat [2; 1; 2; 1; 1; 1; 0] true 5
                 (calculateDegreeFilter 3) (adjTriuMasksOf 3) []))
    as (degs & counts & _ & _ & _ & _ & _ & Hlen).
  - split; [done|].
    intros [|[|[|i]]] x y; simpl; intros; simplify_eq; lia.
  - simpl. lia.
  - change (0 ≤ 5 < 8). lia.
  - by vm_compute.
  - exact Hlen.
Defined.

